(** * BallotGuard: the confidential tally state machine

    A shallow embedding of [contracts/BallotGuard.sol] and the proofs of the
    properties its specification states.

    Conventions of the embedding:
    - Solidity integers ([uint256], [uint64], [uint32]) are [Z]; checked
      arithmetic reverts with [Panic] where the source can overflow;
    - a Solidity [mapping] is a [gmap] read through an accessor ([poll_at],
      [voted]) that gives the zero value of the value type at a missing key;
    - [bytes] is [list byte], [string] is [string];
    - a function body is a computation in the monad [M], which threads the
      storage and may [revert]; [transact] is the EVM's call boundary, which
      throws the writes of a reverted body away;
    - the FHEVM library ([FHE.sol]) is an interface, the class [FHE]; what its
      ciphertexts mean is the class [FHELaws]. *)

From stdpp Require Import base decidable option list gmap strings.
From Stdlib Require Import ZArith Lia.
From Stdlib.Strings Require Import Byte Ascii.

Local Open Scope Z_scope.

(** ** Machine integers and bytes *)

Definition address := Z.
Definition bytes := list byte.

Definition MAX_UINT256 : Z := 2 ^ 256 - 1.
Definition MAX_UINT32 : Z := 2 ^ 32 - 1.
Definition MIN_OPTIONS : Z := 2.
Definition MAX_OPTIONS : Z := 4.

Definition len {A} (l : list A) : Z := Z.of_nat (length l).

#[export] Instance byte_eq_decision : EqDecision byte := Byte.byte_eq_dec.

Definition byte_val (b : byte) : Z := Z.of_N (Byte.to_N b).

(** Big-endian value of a run of bytes. *)
Definition be_value (bs : bytes) : Z :=
  fold_left (fun acc b => acc * 256 + byte_val b) bs 0.

(** [mload(add(add(data, 0x20), off))]: the 32-byte word that starts [off]
    bytes into the contents of the memory array [data].  Past the end of the
    array the EVM reads whatever memory follows; the model reads zeros there
    (the source never gets there: the length is checked first). *)
Definition mload (data : bytes) (off : Z) : Z :=
  be_value (take 32 (drop (Z.to_nat off) data ++ replicate 32 "000"%byte)).

(** ** The FHEVM library, as an interface *)

Class FHE := {
  euint32 : Type;
  ebool : Type;
  externalEuint32 : Type;
  (** the zero handle: what a fresh storage slot of type [euint32] holds *)
  euint32_zero : euint32;
  asEuint32 : Z -> euint32;
  fhe_eq : euint32 -> euint32 -> ebool;
  fhe_select : ebool -> euint32 -> euint32 -> euint32;
  fhe_add : euint32 -> euint32 -> euint32;
  (** [FHE.fromExternal] for the caller [sender]; [None] is a revert *)
  fromExternal : externalEuint32 -> bytes -> address -> option euint32;
  (** [FHE.checkSignatures]; [false] is a revert *)
  checkSignatures : list euint32 -> bytes -> bytes -> bool;
}.

(** What the ciphertexts of a correct FHE implementation mean. *)
Class FHELaws (F : FHE) := {
  clear : euint32 -> Z;
  clearb : ebool -> bool;
  clear_range : forall a, 0 <= clear a <= MAX_UINT32;
  clear_zero : clear euint32_zero = 0;
  clear_asEuint32 : forall v, 0 <= v <= MAX_UINT32 -> clear (asEuint32 v) = v;
  clear_eq : forall a b, clearb (fhe_eq a b) = (clear a =? clear b);
  clear_select : forall c a b,
    clear (fhe_select c a b) = if clearb c then clear a else clear b;
  clear_add : forall a b,
    clear (fhe_add a b) = (clear a + clear b) mod 2 ^ 32;
}.

(** ** Errors, events and the storage *)

Inductive Error :=
  | PollNotFound (pollId : Z)
  | InvalidOptionCount
  | EmptyOption
  | EmptyTitle
  | InvalidSchedule
  | VotingNotStarted (pollId : Z)
  | VotingFinished (pollId : Z)
  | AlreadyVoted (pollId : Z) (voter : address)
  | PollStillRunning (pollId : Z)
  | PollAlreadyFinalized (pollId : Z)
  | ResultsAlreadySubmitted (pollId : Z)
  | PollNotFinalized (pollId : Z)
  | InvalidResultsLength (pollId : Z)
  | CountExceedsLimit (pollId : Z) (index : Z)
  | RequireFailed (reason : string)
  (** a revert raised inside the FHEVM library *)
  | FHEReverted
  (** Solidity's checked arithmetic and array bounds *)
  | Panic.

Section Contract.
Context {F : FHE}.

(** Events of the contract and the grants it records in the FHEVM access
    control list, in the order they happen. *)
Inductive Effect :=
  | PollCreated (pollId : Z) (creator : address) (title : string)
  | VoteSubmitted (pollId : Z) (voter : address)
  | PollFinalized (pollId : Z) (caller : address)
  | ResultsPublished (pollId : Z) (clearResults : list Z)
  | AllowThis (h : euint32)
  | PubliclyDecryptable (h : euint32).

Record Poll := mkPoll {
  title : string;
  description : string;
  options : list string;
  startTime : Z;
  endTime : Z;
  finalized : bool;
  resultsSubmitted : bool;
  creator : address;
  encryptedCounts : list euint32;
  decryptedCounts : list Z;
  encodedClearResults : bytes;
  decryptionProof : bytes;
}.

(** The zero value of [Poll]: what [polls[id]] is before anything is written. *)
Definition empty_poll : Poll :=
  mkPoll EmptyString EmptyString [] 0 0 false false 0 [] [] [] [].

Record State := mkState {
  pollCount : Z;
  polls : gmap Z Poll;
  pollVotes : gmap (Z * address) bool;
  effects : list Effect;
}.

(** The storage after [constructor() {}]. *)
Definition init : State := mkState 0 ∅ ∅ [].

(** The execution host's part of a call: [block.timestamp], [msg.sender]. *)
Record Env := mkEnv {
  timestamp : Z;
  sender : address;
}.

(** ** The monad of function bodies *)

Inductive Outcome (A : Type) :=
  | Done (a : A) (s : State)
  (** the body reverted; [s] is the storage it had written by then *)
  | Reverted (e : Error) (s : State).
Arguments Done {A} a s.
Arguments Reverted {A} e s.

Definition M (A : Type) := State -> Outcome A.

Definition ret {A} (a : A) : M A := fun s => Done a s.
Definition bind {A B} (m : M A) (k : A -> M B) : M B :=
  fun s => match m s with
           | Done a s' => k a s'
           | Reverted e s' => Reverted e s'
           end.
Definition revert {A} (e : Error) : M A := fun s => Reverted e s.
Definition get : M State := fun s => Done s s.
Definition modify (f : State -> State) : M unit := fun s => Done tt (f s).

#[export] Instance M_ret : MRet M := @ret.
#[export] Instance M_bind : MBind M := fun A B k m => bind m k.

(** [if (c) revert e;] *)
Definition revert_if (c : bool) (e : Error) : M unit :=
  if c then revert e else ret tt.

(** A [for] loop over the elements of [l], in order. *)
Fixpoint for_each {A} (l : list A) (body : A -> M unit) : M unit :=
  match l with
  | [] => ret tt
  | x :: l' => body x ;; for_each l' body
  end.

(** A loop that fills a fresh memory array, one element per index. *)
Fixpoint collect {A B} (l : list A) (body : A -> M B) : M (list B) :=
  match l with
  | [] => ret []
  | x :: l' => y ← body x; ys ← collect l' body; ret (y :: ys)
  end.

(** The indices of [for (uint256 i = 0; i < n; ++i)]. *)
Definition indices (n : Z) : list Z := Z.of_nat <$> seq 0 (Z.to_nat n).

(** [l[i]], which panics out of bounds. *)
Definition index {A} (l : list A) (i : Z) : M A :=
  match l !! Z.to_nat i with
  | Some x => ret x
  | None => revert Panic
  end.

(** [require(c, reason)] *)
Definition require (c : bool) (reason : string) : M unit :=
  if c then ret tt else revert (RequireFailed reason).

(** The call boundary: a reverted call leaves the storage as it was. *)
Inductive Result (A : Type) :=
  | Success (a : A)
  | Failure (e : Error).
Arguments Success {A} a.
Arguments Failure {A} e.

Definition transact {A} (m : M A) (s : State) : Result A * State :=
  match m s with
  | Done a s' => (Success a, s')
  | Reverted e _ => (Failure e, s)
  end.

(** ** Storage access *)

Definition poll_at (s : State) (pollId : Z) : Poll :=
  default empty_poll (polls s !! pollId).

Definition voted (s : State) (pollId : Z) (voter : address) : bool :=
  default false (pollVotes s !! (pollId, voter)).

Definition set_pollCount (n : Z) (s : State) : State :=
  mkState n (polls s) (pollVotes s) (effects s).

Definition update_poll (pollId : Z) (f : Poll -> Poll) (s : State) : State :=
  mkState (pollCount s) (<[pollId := f (poll_at s pollId)]> (polls s))
          (pollVotes s) (effects s).

Definition set_voted (pollId : Z) (voter : address) (s : State) : State :=
  mkState (pollCount s) (polls s) (<[(pollId, voter) := true]> (pollVotes s))
          (effects s).

Definition log (e : Effect) (s : State) : State :=
  mkState (pollCount s) (polls s) (pollVotes s) (effects s ++ [e]).

Definition set_header (t d : string) (st en : Z) (c : address) (p : Poll) : Poll :=
  mkPoll t d (options p) st en (finalized p) (resultsSubmitted p) c
         (encryptedCounts p) (decryptedCounts p)
         (encodedClearResults p) (decryptionProof p).

(** [poll.options.push(o); poll.encryptedCounts.push();] *)
Definition push_option (o : string) (p : Poll) : Poll :=
  mkPoll (title p) (description p) (options p ++ [o]) (startTime p) (endTime p)
         (finalized p) (resultsSubmitted p) (creator p)
         (encryptedCounts p ++ [euint32_zero]) (decryptedCounts p)
         (encodedClearResults p) (decryptionProof p).

Definition set_encryptedCounts (cs : list euint32) (p : Poll) : Poll :=
  mkPoll (title p) (description p) (options p) (startTime p) (endTime p)
         (finalized p) (resultsSubmitted p) (creator p)
         cs (decryptedCounts p)
         (encodedClearResults p) (decryptionProof p).

Definition set_finalized (b : bool) (p : Poll) : Poll :=
  mkPoll (title p) (description p) (options p) (startTime p) (endTime p)
         b (resultsSubmitted p) (creator p)
         (encryptedCounts p) (decryptedCounts p)
         (encodedClearResults p) (decryptionProof p).

Definition set_decryptedCounts (ds : list Z) (p : Poll) : Poll :=
  mkPoll (title p) (description p) (options p) (startTime p) (endTime p)
         (finalized p) (resultsSubmitted p) (creator p)
         (encryptedCounts p) ds
         (encodedClearResults p) (decryptionProof p).

Definition set_published (enc prf : bytes) (p : Poll) : Poll :=
  mkPoll (title p) (description p) (options p) (startTime p) (endTime p)
         (finalized p) true (creator p)
         (encryptedCounts p) (decryptedCounts p) enc prf.

(** ** The contract *)

(** [_ensurePollExists] *)
Definition _ensurePollExists (pollId : Z) : M unit :=
  s ← get;
  revert_if (len (options (poll_at s pollId)) =? 0) (PollNotFound pollId).

Definition createPoll (env : Env) (title description : string)
    (options : list string) (startTime endTime : Z) : M Z :=
  revert_if (Z.of_nat (String.length title) =? 0) EmptyTitle;;
  revert_if ((len options <? MIN_OPTIONS) || (len options >? MAX_OPTIONS))
            InvalidOptionCount;;
  revert_if ((endTime <=? startTime) || (endTime <=? timestamp env))
            InvalidSchedule;;
  s ← get;
  let pollId := pollCount s in
  revert_if (pollCount s + 1 >? MAX_UINT256) Panic;;
  modify (set_pollCount (pollCount s + 1));;
  modify (update_poll pollId
            (set_header title description startTime endTime (sender env)));;
  for_each options (fun o =>
    revert_if (Z.of_nat (String.length o) =? 0) EmptyOption;;
    modify (update_poll pollId (push_option o)));;
  modify (log (PollCreated pollId (sender env) title));;
  ret pollId.

Definition submitVote (env : Env) (pollId : Z)
    (encryptedChoice : externalEuint32) (inputProof : bytes) : M unit :=
  _ensurePollExists pollId;;
  s ← get;
  let poll := poll_at s pollId in
  revert_if (timestamp env <? startTime poll) (VotingNotStarted pollId);;
  revert_if (timestamp env >? endTime poll) (VotingFinished pollId);;
  revert_if (voted s pollId (sender env)) (AlreadyVoted pollId (sender env));;
  modify (set_voted pollId (sender env));;
  choice ← match fromExternal encryptedChoice inputProof (sender env) with
           | Some c => ret c
           | None => revert FHEReverted
           end;
  let optionCount := len (options poll) in
  let zeroIncrement := asEuint32 0 in
  let oneIncrement := asEuint32 1 in
  for_each (indices optionCount) (fun i =>
    let isTarget := fhe_eq choice (asEuint32 (i mod 2 ^ 32)) in
    let increment := fhe_select isTarget oneIncrement zeroIncrement in
    s ← get;
    c ← index (encryptedCounts (poll_at s pollId)) i;
    let c' := fhe_add c increment in
    modify (update_poll pollId (fun p =>
      set_encryptedCounts (<[Z.to_nat i := c']> (encryptedCounts p)) p));;
    modify (log (AllowThis c')));;
  modify (log (VoteSubmitted pollId (sender env))).

Definition finalizePoll (env : Env) (pollId : Z) : M unit :=
  _ensurePollExists pollId;;
  s ← get;
  let poll := poll_at s pollId in
  revert_if (timestamp env <=? endTime poll) (PollStillRunning pollId);;
  revert_if (finalized poll) (PollAlreadyFinalized pollId);;
  modify (update_poll pollId (set_finalized true));;
  let optionCount := len (encryptedCounts poll) in
  for_each (indices optionCount) (fun i =>
    c ← index (encryptedCounts poll) i;
    modify (log (PubliclyDecryptable c)));;
  modify (log (PollFinalized pollId (sender env))).

(** [_decodeClearValues] *)
Definition _decodeClearValues (encodedValues : bytes) (expectedLength : Z)
    (pollId : Z) : M (list Z) :=
  revert_if (expectedLength * 32 >? MAX_UINT256) Panic;;
  revert_if (negb (len encodedValues =? expectedLength * 32))
            (InvalidResultsLength pollId);;
  collect (indices expectedLength) (fun i =>
    ret (mload encodedValues ((i * 32) mod 2 ^ 256))).

Definition submitDecryptedResults (env : Env) (pollId : Z)
    (encodedCounts decryptionProof : bytes) : M unit :=
  _ensurePollExists pollId;;
  s ← get;
  let poll := poll_at s pollId in
  revert_if (negb (finalized poll)) (PollNotFinalized pollId);;
  revert_if (resultsSubmitted poll) (ResultsAlreadySubmitted pollId);;
  let optionCount := len (encryptedCounts poll) in
  handles ← collect (indices optionCount) (index (encryptedCounts poll));
  revert_if (negb (checkSignatures handles encodedCounts decryptionProof))
            FHEReverted;;
  decodedCounts ← _decodeClearValues encodedCounts optionCount pollId;
  modify (update_poll pollId (set_decryptedCounts []));;
  for_each (indices optionCount) (fun i =>
    v ← index decodedCounts i;
    revert_if (v >? MAX_UINT32) (CountExceedsLimit pollId i);;
    modify (update_poll pollId (fun p =>
      set_decryptedCounts (decryptedCounts p ++ [v mod 2 ^ 32]) p)));;
  modify (update_poll pollId (set_published encodedCounts decryptionProof));;
  s' ← get;
  modify (log (ResultsPublished pollId (decryptedCounts (poll_at s' pollId)))).

(** The read-only functions. *)

(** [_copyOptions] *)
Definition _copyOptions (poll : Poll) : M (list string) :=
  collect (indices (len (options poll))) (index (options poll)).

Record PollView := mkPollView {
  view_title : string;
  view_description : string;
  view_options : list string;
  view_startTime : Z;
  view_endTime : Z;
  view_finalized : bool;
  view_resultsSubmitted : bool;
  view_creator : address;
}.

Definition getPoll (pollId : Z) : M PollView :=
  _ensurePollExists pollId;;
  s ← get;
  let poll := poll_at s pollId in
  optionList ← _copyOptions poll;
  ret (mkPollView (title poll) (description poll) optionList
         (startTime poll) (endTime poll) (finalized poll)
         (resultsSubmitted poll) (creator poll)).

Definition getEncryptedResults (pollId : Z) : M (list euint32) :=
  _ensurePollExists pollId;;
  s ← get;
  let poll := poll_at s pollId in
  collect (indices (len (encryptedCounts poll))) (index (encryptedCounts poll)).

Definition RESULTS_NOT_AVAILABLE : string := "RESULTS_NOT_AVAILABLE".

Definition getDecryptedResults (pollId : Z) : M (list Z) :=
  _ensurePollExists pollId;;
  s ← get;
  let poll := poll_at s pollId in
  require (resultsSubmitted poll) RESULTS_NOT_AVAILABLE;;
  collect (indices (len (decryptedCounts poll))) (index (decryptedCounts poll)).

Definition getResultVerification (pollId : Z) : M (bytes * bytes) :=
  _ensurePollExists pollId;;
  s ← get;
  let poll := poll_at s pollId in
  require (resultsSubmitted poll) RESULTS_NOT_AVAILABLE;;
  ret (encodedClearResults poll, decryptionProof poll).

Definition hasVoted (pollId : Z) (account : address) : M bool :=
  s ← get;
  ret (voted s pollId account).

(** ** Calls and histories *)

(** The state-changing entry points, with their arguments. *)
Inductive Call :=
  | CreatePoll (title description : string) (options : list string)
               (startTime endTime : Z)
  | SubmitVote (pollId : Z) (encryptedChoice : externalEuint32)
               (inputProof : bytes)
  | FinalizePoll (pollId : Z)
  | SubmitDecryptedResults (pollId : Z) (encodedCounts decryptionProof : bytes).

(** What a call returns: the new poll's id for [createPoll], nothing for the
    others. *)
Definition call_body (env : Env) (c : Call) : M (option Z) :=
  match c with
  | CreatePoll t d os st en => id ← createPoll env t d os st en; ret (Some id)
  | SubmitVote p ch prf => submitVote env p ch prf;; ret None
  | FinalizePoll p => finalizePoll env p;; ret None
  | SubmitDecryptedResults p enc prf =>
      submitDecryptedResults env p enc prf;; ret None
  end.

Definition exec (env : Env) (c : Call) (s : State) : Result (option Z) * State :=
  transact (call_body env c) s.

Definition History := list (Env * Call).

Definition step (s : State) (ec : Env * Call) : State := (exec ec.1 ec.2 s).2.

(** The storage after a history of calls, oldest first. *)
Definition run (h : History) (s : State) : State := fold_left step h s.

Definition reachable (s : State) : Prop := exists h, s = run h init.

(** Time does not go backwards: the timestamps of a history never decrease,
    starting from [t]. *)
Fixpoint chrono_from (t : Z) (h : History) : Prop :=
  match h with
  | [] => True
  | (env, _) :: h' => t <= timestamp env /\ chrono_from (timestamp env) h'
  end.

Definition chrono (h : History) : Prop :=
  match h with
  | [] => True
  | (env, _) :: _ => chrono_from (timestamp env) h
  end.

End Contract.

Arguments Done {F A} a s.
Arguments Reverted {F A} e s.
Arguments Success {A} a.
Arguments Failure {A} e.

(** ** Vocabulary of the properties *)

Section Vocabulary.
Context {F : FHE}.

Definition is_empty (x : string) : bool := Z.of_nat (String.length x) =? 0.

(** A poll exists when its options list is not empty. *)
Definition poll_exists (s : State) (pollId : Z) : Prop :=
  options (poll_at s pollId) <> [].

(** [s'] is [s] with poll [p] replaced by [new]; the counter, the vote record
    and the other polls are the same (events are not constrained). *)
Record frame (p : Z) (new : Poll) (s s' : State) : Prop := mkFrame {
  frame_count : pollCount s' = pollCount s;
  frame_votes : pollVotes s' = pollVotes s;
  frame_poll : poll_at s' p = new;
  frame_others : forall q, q <> p -> poll_at s' q = poll_at s q;
}.

(** The options loop of [createPoll], when no option is empty. *)
Definition push_options (os : list string) (p : Poll) : Poll :=
  fold_left (fun p o => push_option o p) os p.

(** The first check of [createPoll] that fails, in the order of the source. *)
Definition createPoll_error (env : Env) (t : string) (os : list string)
    (st en : Z) (s : State) : option Error :=
  if is_empty t then Some EmptyTitle
  else if (len os <? MIN_OPTIONS) || (len os >? MAX_OPTIONS)
  then Some InvalidOptionCount
  else if (en <=? st) || (en <=? timestamp env) then Some InvalidSchedule
  else if pollCount s + 1 >? MAX_UINT256 then Some Panic
  else if existsb is_empty os then Some EmptyOption
  else None.

(** The encrypted increment [submitVote] adds to counter [i]. *)
Definition increment (choice : euint32) (i : Z) : euint32 :=
  fhe_select (fhe_eq choice (asEuint32 (i mod 2 ^ 32)))
             (asEuint32 1) (asEuint32 0).

(** One turn of the tally loop of [submitVote], on the counters alone. *)
Definition bump (choice : euint32) (cs : list euint32) (i : nat) : list euint32 :=
  match cs !! i with
  | Some c => <[i := fhe_add c (increment choice (Z.of_nat i))]> cs
  | None => cs
  end.

(** The counters after the tally loop has run over the first [n] of them. *)
Definition tally (choice : euint32) (n : nat) (cs : list euint32) : list euint32 :=
  fold_left (bump choice) (seq 0 n) cs.

(** The first check of [submitVote] that fails, in the order of the source. *)
Definition submitVote_error (env : Env) (p : Z) (ch : externalEuint32)
    (prf : bytes) (s : State) : option Error :=
  if len (options (poll_at s p)) =? 0 then Some (PollNotFound p)
  else if timestamp env <? startTime (poll_at s p)
  then Some (VotingNotStarted p)
  else if timestamp env >? endTime (poll_at s p) then Some (VotingFinished p)
  else if voted s p (sender env) then Some (AlreadyVoted p (sender env))
  else if fromExternal ch prf (sender env) is None then Some FHEReverted
  else None.

(** The first check of [finalizePoll] that fails. *)
Definition finalizePoll_error (env : Env) (p : Z) (s : State) : option Error :=
  if len (options (poll_at s p)) =? 0 then Some (PollNotFound p)
  else if timestamp env <=? endTime (poll_at s p)
  then Some (PollStillRunning p)
  else if finalized (poll_at s p) then Some (PollAlreadyFinalized p)
  else None.

(** The words [_decodeClearValues] reads from [enc] for [n] counters. *)
Definition decoded_words (enc : bytes) (n : Z) : list Z :=
  (fun i => mload enc ((i * 32) mod 2 ^ 256)) <$> indices n.

Definition exceeds_limit (v : Z) : Prop := v > MAX_UINT32.

#[export] Instance exceeds_limit_dec v : Decision (exceeds_limit v).
Proof. unfold exceeds_limit. apply _. Defined.

(** The first check of [submitDecryptedResults] that fails. *)
Definition submitDecryptedResults_error (p : Z) (enc prf : bytes) (s : State)
    : option Error :=
  let poll := poll_at s p in
  let n := len (encryptedCounts poll) in
  if len (options poll) =? 0 then Some (PollNotFound p)
  else if negb (finalized poll) then Some (PollNotFinalized p)
  else if resultsSubmitted poll then Some (ResultsAlreadySubmitted p)
  else if negb (checkSignatures (encryptedCounts poll) enc prf)
  then Some FHEReverted
  else if n * 32 >? MAX_UINT256 then Some Panic
  else if negb (len enc =? n * 32) then Some (InvalidResultsLength p)
  else match list_find exceeds_limit (decoded_words enc n) with
       | Some (i, _) => Some (CountExceedsLimit p (Z.of_nat i))
       | None => None
       end.

(** The well-formed storages: every storage the contract can reach is one. *)
Record wf (s : State) : Prop := mkWf {
  wf_count : 0 <= pollCount s <= MAX_UINT256;
  wf_fresh : forall q, ~ (0 <= q < pollCount s) -> poll_at s q = empty_poll;
  wf_options : forall q, 0 <= q < pollCount s ->
    MIN_OPTIONS <= len (options (poll_at s q)) <= MAX_OPTIONS;
  wf_counters : forall q,
    length (encryptedCounts (poll_at s q)) = length (options (poll_at s q));
  wf_votes : forall q v, voted s q v = true -> 0 <= q < pollCount s;
}.

(** What one call does to the storage, as a transition relation: the view of
    [exec] the invariants are proved against. *)
Inductive transition (env : Env) : Call -> State -> State -> Prop :=
  | tr_failed c s e :
      exec env c s = (Failure e, s) ->
      transition env c s s
  | tr_created t d os st en s s' :
      exec env (CreatePoll t d os st en) s = (Success (Some (pollCount s)), s') ->
      createPoll_error env t os st en s = None ->
      pollCount s' = pollCount s + 1 ->
      pollVotes s' = pollVotes s ->
      poll_at s' (pollCount s) =
        push_options os
          (set_header t d st en (sender env) (poll_at s (pollCount s))) ->
      (forall q, q <> pollCount s -> poll_at s' q = poll_at s q) ->
      transition env (CreatePoll t d os st en) s s'
  | tr_voted p ch prf c s s' :
      exec env (SubmitVote p ch prf) s = (Success None, s') ->
      submitVote_error env p ch prf s = None ->
      fromExternal ch prf (sender env) = Some c ->
      pollCount s' = pollCount s ->
      pollVotes s' = <[(p, sender env) := true]> (pollVotes s) ->
      poll_at s' p =
        set_encryptedCounts
          (tally c (length (options (poll_at s p)))
             (encryptedCounts (poll_at s p)))
          (poll_at s p) ->
      (forall q, q <> p -> poll_at s' q = poll_at s q) ->
      transition env (SubmitVote p ch prf) s s'
  | tr_finalized p s s' :
      exec env (FinalizePoll p) s = (Success None, s') ->
      finalizePoll_error env p s = None ->
      frame p (set_finalized true (poll_at s p)) s s' ->
      transition env (FinalizePoll p) s s'
  | tr_published p enc prf s s' :
      exec env (SubmitDecryptedResults p enc prf) s = (Success None, s') ->
      submitDecryptedResults_error p enc prf s = None ->
      frame p (set_published enc prf
                 (set_decryptedCounts
                    ((fun v => v mod 2 ^ 32) <$>
                     decoded_words enc (len (encryptedCounts (poll_at s p))))
                    (poll_at s p))) s s' ->
      transition env (SubmitDecryptedResults p enc prf) s s'.

(** [s'] is a later storage than [s]: what is fixed at creation stays, the
    flags and the vote record only grow, published results stay. *)
Record later (s s' : State) : Prop := mkLater {
  later_count : pollCount s <= pollCount s';
  later_options : forall q, 0 <= q < pollCount s ->
    options (poll_at s' q) = options (poll_at s q);
  later_startTime : forall q, 0 <= q < pollCount s ->
    startTime (poll_at s' q) = startTime (poll_at s q);
  later_endTime : forall q, 0 <= q < pollCount s ->
    endTime (poll_at s' q) = endTime (poll_at s q);
  later_finalized : forall q,
    finalized (poll_at s q) = true -> finalized (poll_at s' q) = true;
  later_results : forall q,
    resultsSubmitted (poll_at s q) = true ->
    resultsSubmitted (poll_at s' q) = true /\
    decryptedCounts (poll_at s' q) = decryptedCounts (poll_at s q) /\
    encodedClearResults (poll_at s' q) = encodedClearResults (poll_at s q) /\
    decryptionProof (poll_at s' q) = decryptionProof (poll_at s q);
  later_voted : forall q v, voted s q v = true -> voted s' q v = true;
}.

(** The time of the last call of a history that starts at time [t]. *)
Fixpoint end_time (t : Z) (h : History) : Z :=
  match h with
  | [] => t
  | (env, _) :: h' => end_time (timestamp env) h'
  end.

(** At time [t] every finalized poll is past its end. *)
Definition closed (t : Z) (s : State) : Prop :=
  forall q, finalized (poll_at s q) = true -> endTime (poll_at s q) < t.

(** The decoding of the results as the specification words it: [n]
    consecutive 32-byte big-endian unsigned integers, one per option, in
    option order. *)
Definition be_words (n : nat) (enc : bytes) : list Z :=
  (fun k => be_value (take 32 (drop (32 * k) enc))) <$> seq 0 n.

(** The id a call created, if it is a [createPoll] that succeeded. *)
Definition created_id (env : Env) (c : Call) (s : State) : option Z :=
  match c with
  | CreatePoll _ _ _ _ _ =>
      match (exec env c s).1 with
      | Success (Some id) => Some id
      | _ => None
      end
  | _ => None
  end.

(** The ids of the polls created along a history that starts in [s]. *)
Fixpoint created_ids (h : History) (s : State) : list Z :=
  match h with
  | [] => []
  | ec :: h' =>
      option_list (created_id ec.1 ec.2 s) ++ created_ids h' (step s ec)
  end.

(** The ballot a call cast for poll [p], if it is a [submitVote] for [p] that
    succeeded: the voter and the validated ciphertext of the choice. *)
Definition ballot (env : Env) (c : Call) (s : State) (p : Z)
    : option (address * euint32) :=
  match c with
  | SubmitVote q ch prf =>
      if bool_decide (q = p) then
        match (exec env c s).1 with
        | Success _ => pair (sender env) <$> fromExternal ch prf (sender env)
        | Failure _ => None
        end
      else None
  | _ => None
  end.

(** The ballots cast for poll [p] along a history that starts in [s]. *)
Fixpoint ballots (h : History) (s : State) (p : Z) : list (address * euint32) :=
  match h with
  | [] => []
  | ec :: h' => option_list (ballot ec.1 ec.2 s p) ++ ballots h' (step s ec) p
  end.

(** The voters of a list of ballots, as a set. *)
Definition voters (bs : list (address * euint32)) : gset address :=
  list_to_set bs.*1.

Definition sumZ (l : list Z) : Z := foldr Z.add 0 l.

End Vocabulary.

Section TallyVocabulary.
Context {F : FHE} {L : FHELaws F}.

(** The number of ballots whose choice is option [i]. *)
Definition votes_for (i : Z) (bs : list (address * euint32)) : nat :=
  length (filter (fun b => clear b.2 = i) bs).

(** The ballots whose choice is one of the [n] options. *)
Definition valid_ballots (n : Z) (bs : list (address * euint32))
    : list (address * euint32) :=
  filter (fun b => clear b.2 < n) bs.

(** Each counter holds the number of ballots for its option, modulo [2^32]. *)
Definition counted (bs : list (address * euint32)) (cs : list euint32) : Prop :=
  forall (i : nat) c, cs !! i = Some c ->
    clear c = Z.of_nat (votes_for (Z.of_nat i) bs) mod 2 ^ 32.

End TallyVocabulary.

(** ** An ideal FHE: ciphertexts that carry their plaintext

    The reference implementation of the interface, used to run the contract on
    concrete histories. *)
Module Ideal.

Inductive ct :=
  | Fresh          (** the zero handle *)
  | Ct (v : Z).

Record input := mkInput {
  input_value : Z;
  input_owner : address;
}.

Definition plain (c : ct) : Z :=
  match c with
  | Fresh => 0
  | Ct v => v mod 2 ^ 32
  end.

Definition byte_of (v : Z) : byte :=
  default "000"%byte (Byte.of_N (Z.to_N (v mod 256))).

(** The [n]-byte big-endian encoding of [v]. *)
Fixpoint be_bytes (n : nat) (v : Z) : bytes :=
  match n with
  | O => []
  | S n' => be_bytes n' (v / 256) ++ [byte_of v]
  end.

(** [abi.encode] of a tuple of unsigned integers: one 32-byte word each. *)
Definition abi_encode (vs : list Z) : bytes := vs ≫= be_bytes 32.

#[export] Instance ideal : FHE := {|
  euint32 := ct;
  ebool := bool;
  externalEuint32 := input;
  euint32_zero := Fresh;
  asEuint32 v := Ct (v mod 2 ^ 32);
  fhe_eq a b := plain a =? plain b;
  fhe_select c a b := if c then a else b;
  fhe_add a b := Ct (plain a + plain b);
  fromExternal ext _ who :=
    if input_owner ext =? who then Some (Ct (input_value ext mod 2 ^ 32))
    else None;
  checkSignatures hs enc _ := bool_decide (enc = abi_encode (plain <$> hs));
|}.

End Ideal.


(** ** Histories used as examples *)

Module Scenarios.
Import Ideal.

Definition alice : address := 1.
Definition bob : address := 2.
Definition carol : address := 3.

(** The scenario of the repository's test: a three-option poll open from 100
    to 3700, Alice votes 1, Bob votes 2. *)
Definition election : History := [
  (mkEnv 100 0,
   CreatePoll "Election" "Choose wisely" ["Alpha"; "Beta"; "Gamma"] 100 3700);
  (mkEnv 101 alice, SubmitVote 0 (Ideal.mkInput 1 alice) []);
  (mkEnv 102 bob, SubmitVote 0 (Ideal.mkInput 2 bob) [])].

Definition election_published : History :=
  election ++ [
  (mkEnv 3701 bob, FinalizePoll 0);
  (mkEnv 3702 bob, SubmitDecryptedResults 0 (Ideal.abi_encode [0; 1; 1]) [])].

(** A two-option poll open from 100 to 200; Alice's encrypted choice is 7,
    which is no option; Bob votes 0. *)
Definition referendum : History := [
  (mkEnv 100 0, CreatePoll "Referendum" EmptyString ["Yes"; "No"] 100 200);
  (mkEnv 101 alice, SubmitVote 0 (Ideal.mkInput 7 alice) []);
  (mkEnv 102 bob, SubmitVote 0 (Ideal.mkInput 0 bob) [])].

Definition referendum_closed : History :=
  referendum ++ [(mkEnv 201 carol, FinalizePoll 0)].

Definition referendum_results : bytes := Ideal.abi_encode [1; 0].

Definition election_created : History := [
  (mkEnv 100 0,
   CreatePoll "Election" "Choose wisely" ["Alpha"; "Beta"; "Gamma"] 100 3700)].

Definition alice_votes : Env * Call :=
  (mkEnv 101 alice, SubmitVote 0 (Ideal.mkInput 1 alice) []).

Definition bob_votes : Env * Call :=
  (mkEnv 102 bob, SubmitVote 0 (Ideal.mkInput 2 bob) []).

Definition election_closed : History :=
  election ++ [(mkEnv 3701 bob, FinalizePoll 0)].

End Scenarios.

(** ** Vocabulary of the further properties *)

Section CoverageVocabulary.
Context {F : FHE}.

(** The poll a call works on: the one it names, or for [createPoll] the one
    it is about to create. *)
Definition target_of (c : Call) (s : State) : Z :=
  match c with
  | CreatePoll _ _ _ _ _ => pollCount s
  | SubmitVote p _ _ => p
  | FinalizePoll p => p
  | SubmitDecryptedResults p _ _ => p
  end.

(** The audit record of a poll: before publication there is none; after it
    the stored counts are the decoding of the stored bytes, one count of at
    most 32 bits per option, and the poll is finalized. *)
Definition audit_ok (p : Poll) : Prop :=
  if resultsSubmitted p
  then finalized p = true /\
       len (encodedClearResults p) = len (options p) * 32 /\
       decryptedCounts p = be_words (length (options p)) (encodedClearResults p) /\
       Forall (fun v => 0 <= v <= MAX_UINT32) (decryptedCounts p)
  else decryptedCounts p = [] /\ encodedClearResults p = [] /\
       decryptionProof p = [].



Definition public_handle (e : Effect) : option euint32 :=
  match e with
  | PubliclyDecryptable h => Some h
  | _ => None
  end.

Definition public_handles (s : State) : list euint32 :=
  omap public_handle (effects s).

Definition allowed_handle (e : Effect) : option euint32 :=
  match e with
  | AllowThis h => Some h
  | _ => None
  end.

Definition allowed_handles (s : State) : list euint32 :=
  omap allowed_handle (effects s).

(** What a successful call logs: the grants it records in the access
    control list, then its event. *)
Definition grants_of (c : Call) (s s' : State) : list Effect :=
  match c with
  | CreatePoll _ _ _ _ _ => []
  | SubmitVote p _ _ => AllowThis <$> encryptedCounts (poll_at s' p)
  | FinalizePoll p => PubliclyDecryptable <$> encryptedCounts (poll_at s p)
  | SubmitDecryptedResults _ _ _ => []
  end.

Definition event_of (env : Env) (c : Call) (s s' : State) : Effect :=
  match c with
  | CreatePoll t _ _ _ _ => PollCreated (pollCount s) (sender env) t
  | SubmitVote p _ _ => VoteSubmitted p (sender env)
  | FinalizePoll p => PollFinalized p (sender env)
  | SubmitDecryptedResults p _ _ =>
      ResultsPublished p (decryptedCounts (poll_at s' p))
  end.

End CoverageVocabulary.

(** ** The web client and the command-line tasks

    The parts of the client that decide what is sent to the contract and
    what is offered to the user, as pure functions of the component state
    and of what was read from the contract.  Rendering, wallet access and
    the asynchronous plumbing are left out. *)





(** *** [CreatePollForm] *)

Module CreatePollForm.











Section HandleSubmit.
(** [String.prototype.trim], and
    [Math.floor(new Date(d).getTime() / 1000)], which is [NaN] (here [None])
    when [d] is no date. *)
Variable trim : string -> string.
Variable seconds_of : string -> option Z.


End HandleSubmit.

End CreatePollForm.

(** *** The task [task:create-poll] *)

Module Tasks.

(** [x.split(sep)] for a one-character separator. *)
Fixpoint split (sep : ascii) (x : string) : list string :=
  match x with
  | EmptyString => [EmptyString]
  | String c x' =>
      if Ascii.eqb c sep then EmptyString :: split sep x'
      else match split sep x' with
           | y :: ys => String c y :: ys
           | [] => [String c EmptyString]
           end
  end.


Section CreatePoll.
(** [String.prototype.trim], and [Number(x)] when it is a finite integer
    ([None] otherwise). *)
Variable trim : string -> string.
Variable integer_of : string -> option Z.


End CreatePoll.

End Tasks.

(** *** [BallotApp] *)

Section PollViews.
Context {F : FHE}.


End PollViews.

Module BallotApp.

(** [PollRecord]: the id and what [getPoll] returned. *)
Record PollRecord := mkPollRecord {
  id : Z;
  view : PollView;
}.

Inductive ActionType := vote | finalize | decrypt | publish.

#[global] Instance ActionType_eq_dec : EqDecision ActionType.
Proof. solve_decision. Defined.


Definition pollIds (pollCount : Z) : list Z :=
  (fun idx => pollCount - idx - 1) <$> indices pollCount.

(** [pollResponses.map((response, index) => ...)] *)
Definition hydratedPolls (pollIds : list Z) (pollResponses : list PollView)
    : list PollRecord :=
  imap (fun index response =>
          mkPollRecord (default 0 (pollIds !! index)) response)
       pollResponses.


Section Reads.
Context {F : FHE}.

(** The batch of [getPoll] reads, with [allowFailure: false]: one failed
    read fails the batch. *)
Definition pollResponses (s : State) : option (list PollView) :=
  mapM (fun id => match (transact (getPoll id) s).1 with
                  | Success v => Some v
                  | Failure _ => None
                  end)
       (pollIds (pollCount s)).

(** The polls the component shows. *)
Definition polls (s : State) : list PollRecord :=
  match pollResponses s with
  | Some responses => hydratedPolls (pollIds (pollCount s)) responses
  | None => []
  end.


End Reads.

End BallotApp.

(** *** [PollCard] *)

Module PollCard.
Import BallotApp.

Inductive Status := upcoming | finished | active.

#[global] Instance Status_eq_dec : EqDecision Status.
Proof. solve_decision. Defined.

Record DecryptionState := mkDecryptionState {
  tallies : list Z;
  encodedResults : bytes;
  proof : bytes;
}.






Definition showPublish (poll : PollRecord)
    (busyState : Z -> ActionType -> bool)
    (decryptState : option DecryptionState) : bool :=
  bool_decide (is_Some decryptState) &&
  negb (view_resultsSubmitted (view poll)) &&
  negb (busyState (id poll) publish).



End PollCard.

(** *** Examples for the client *)

Module ClientScenarios.
Import Ideal Scenarios.

Definition carol_votes_late : Env * Call :=
  (mkEnv 3702 carol, SubmitVote 0 (Ideal.mkInput 0 carol) []).





End ClientScenarios.

(** ** Basic facts about the monad and the storage *)

Section Theory.
Context {F : FHE}.

(** A failed call changes nothing. *)
Lemma transact_failure {A} (m : M A) s e s' :
  transact m s = (Failure e, s') -> s' = s.
Proof. unfold transact. destruct (m s); congruence. Qed.

Lemma exec_failure env c s e s' :
  exec env c s = (Failure e, s') -> s' = s.
Proof. apply transact_failure. Qed.

Lemma for_each_cons {A} (x : A) l body s :
  for_each (x :: l) body s =
  match body x s with
  | Done _ s' => for_each l body s'
  | Reverted e s' => Reverted e s'
  end.
Proof. reflexivity. Qed.

Lemma poll_at_update_poll p f s q :
  poll_at (update_poll p f s) q =
  if decide (p = q) then f (poll_at s p) else poll_at s q.
Proof.
  unfold poll_at, update_poll. simpl. rewrite lookup_insert.
  by case_decide.
Qed.

Lemma poll_at_update_poll_eq p f s :
  poll_at (update_poll p f s) p = f (poll_at s p).
Proof. rewrite poll_at_update_poll. by case_decide. Qed.

Lemma poll_at_update_poll_ne p f s q :
  p <> q -> poll_at (update_poll p f s) q = poll_at s q.
Proof. intros. rewrite poll_at_update_poll. by case_decide. Qed.

Lemma poll_at_log e s q : poll_at (log e s) q = poll_at s q.
Proof. reflexivity. Qed.

Lemma poll_at_set_voted p v s q : poll_at (set_voted p v s) q = poll_at s q.
Proof. reflexivity. Qed.

Lemma poll_at_init q : poll_at init q = empty_poll.
Proof. unfold poll_at, init. simpl. by rewrite lookup_empty. Qed.

Lemma voted_init q v : voted init q v = false.
Proof. unfold voted, init. simpl. by rewrite lookup_empty. Qed.

Lemma frame_refl p s : frame p (poll_at s p) s s.
Proof. by split. Qed.

Lemma frame_trans p x y s1 s2 s3 :
  frame p x s1 s2 -> frame p y s2 s3 -> frame p y s1 s3.
Proof.
  intros [c1 v1 p1 o1] [c2 v2 p2 o2]. split.
  - by rewrite c2.
  - by rewrite v2.
  - done.
  - intros q Hq. by rewrite o2, o1.
Qed.

Lemma frame_eq p x y s s' : x = y -> frame p x s s' -> frame p y s s'.
Proof. by intros ->. Qed.

Lemma frame_update_poll p f s : frame p (f (poll_at s p)) s (update_poll p f s).
Proof.
  split; try done.
  - apply poll_at_update_poll_eq.
  - intros q Hq. by apply poll_at_update_poll_ne.
Qed.

Lemma frame_log p e s : frame p (poll_at s p) s (log e s).
Proof. by split. Qed.

Lemma frame_log_r p x e s s' : frame p x s s' -> frame p x s (log e s').
Proof. intros []. by split. Qed.

(** *** [createPoll] *)

Lemma push_options_fields os p :
  options (push_options os p) = options p ++ os /\
  encryptedCounts (push_options os p) =
    encryptedCounts p ++ replicate (length os) euint32_zero /\
  title (push_options os p) = title p /\
  description (push_options os p) = description p /\
  startTime (push_options os p) = startTime p /\
  endTime (push_options os p) = endTime p /\
  finalized (push_options os p) = finalized p /\
  resultsSubmitted (push_options os p) = resultsSubmitted p /\
  creator (push_options os p) = creator p /\
  decryptedCounts (push_options os p) = decryptedCounts p.
Proof.
  revert p. induction os as [|o os IH]; intros p.
  - simpl. by rewrite !app_nil_r.
  - change (push_options (o :: os) p) with (push_options os (push_option o p)).
    destruct (IH (push_option o p)) as (-> & -> & -> & -> & -> & -> & -> & -> & -> & ->).
    simpl. by rewrite <- !app_assoc.
Qed.

Lemma createPoll_loop p os s :
  let loop := for_each os (fun o =>
    revert_if (Z.of_nat (String.length o) =? 0) EmptyOption;;
    modify (update_poll p (push_option o))) in
  if existsb is_empty os
  then exists s', loop s = Reverted EmptyOption s'
  else exists s', loop s = Done tt s' /\
                  frame p (push_options os (poll_at s p)) s s'.
Proof.
  simpl. revert s. induction os as [|o os IH]; intros s.
  - simpl. exists s. split; [done|apply frame_refl].
  - rewrite for_each_cons. simpl existsb. unfold is_empty at 1.
    destruct (Z.of_nat (String.length o) =? 0) eqn:Eo; simpl.
    + by eexists.
    + specialize (IH (update_poll p (push_option o) s)).
      destruct (existsb is_empty os).
      * destruct IH as [s' ->]. by eexists.
      * destruct IH as (s' & -> & Hf). eexists. split; [done|].
        eapply frame_eq; [|eapply frame_trans; [apply frame_update_poll|apply Hf]].
        by rewrite poll_at_update_poll_eq.
Qed.

Lemma createPoll_spec env t d os st en s :
  match createPoll_error env t os st en s with
  | Some e => exists s', createPoll env t d os st en s = Reverted e s'
  | None => exists s',
      createPoll env t d os st en s = Done (pollCount s) s' /\
      pollCount s' = pollCount s + 1 /\
      pollVotes s' = pollVotes s /\
      poll_at s' (pollCount s) =
        push_options os
          (set_header t d st en (sender env) (poll_at s (pollCount s))) /\
      forall q, q <> pollCount s -> poll_at s' q = poll_at s q
  end.
Proof.
  unfold createPoll_error, createPoll, is_empty.
  unfold mbind, M_bind, bind, revert_if, get.
  destruct (Z.of_nat (String.length t) =? 0); [simpl; by eexists|].
  destruct ((len os <? MIN_OPTIONS) || (len os >? MAX_OPTIONS)); [simpl; by eexists|].
  destruct ((en <=? st) || (en <=? timestamp env)); [simpl; by eexists|].
  simpl.
  destruct (pollCount s + 1 >? MAX_UINT256); [simpl; by eexists|].
  simpl.
  set (s1 := update_poll _ _ _).
  pose proof (createPoll_loop (pollCount s) os s1) as Hloop. simpl in Hloop.
  unfold mbind, M_bind, bind, revert_if in Hloop.
  fold (is_empty) in *.
  destruct (existsb is_empty os).
  - destruct Hloop as [s' ->]. by eexists.
  - destruct Hloop as (s' & -> & [Hc Hv Hp Ho]). eexists. split; [done|].
    simpl. subst s1. repeat split.
    + by rewrite Hc.
    + by rewrite Hv.
    + by rewrite poll_at_log, Hp, poll_at_update_poll_eq.
    + intros q Hq. rewrite poll_at_log, Ho by done.
      by rewrite poll_at_update_poll_ne.
Qed.

(** *** [submitVote] *)

Lemma bump_length choice cs i : length (bump choice cs i) = length cs.
Proof. unfold bump. destruct (cs !! i); [apply length_insert|done]. Qed.

Lemma fold_bump_length choice l cs :
  length (fold_left (bump choice) l cs) = length cs.
Proof.
  revert cs. induction l as [|i l IH]; intros cs; [done|].
  simpl. by rewrite IH, bump_length.
Qed.

Lemma tally_length choice n cs : length (tally choice n cs) = length cs.
Proof. apply fold_bump_length. Qed.

Lemma tally_lookup choice n cs i :
  tally choice n cs !! i =
  if decide (i < n)%nat
  then (fun c => fhe_add c (increment choice (Z.of_nat i))) <$> cs !! i
  else cs !! i.
Proof.
  unfold tally. revert i. induction n as [|n IH]; intros i.
  - case_decide; [lia|done].
  - rewrite seq_S, fold_left_app. cbn [fold_left Nat.add].
    unfold bump at 1. fold (tally choice n cs) in *.
    assert (En : tally choice n cs !! n = cs !! n).
    { rewrite IH. case_decide; [lia|done]. }
    rewrite En.
    destruct (cs !! n) as [c|] eqn:Ec.
    + destruct (decide (i = n)) as [->|Hne].
      * rewrite list_lookup_insert_eq.
        2:{ rewrite tally_length. eapply lookup_lt_is_Some_1; eauto. }
        case_decide; [|lia]. by rewrite Ec.
      * rewrite list_lookup_insert_ne by done. rewrite IH.
        repeat case_decide; try done; lia.
    + rewrite IH. repeat case_decide; try done; try lia.
      assert (i = n) as -> by lia. by rewrite Ec.
Qed.

Local Abbreviation vote_body p choice := (fun i : Z =>
  let isTarget := fhe_eq choice (asEuint32 (i mod 2 ^ 32)) in
  let increment := fhe_select isTarget (asEuint32 1) (asEuint32 0) in
  s ← get;
  c ← index (encryptedCounts (poll_at s p)) i;
  let c' := fhe_add c increment in
  modify (update_poll p (fun x =>
    set_encryptedCounts (<[Z.to_nat i := c']> (encryptedCounts x)) x));;
  modify (log (AllowThis c'))).

Lemma vote_turn p choice (i : nat) s c :
  encryptedCounts (poll_at s p) !! i = Some c ->
  vote_body p choice (Z.of_nat i) s =
  Done tt (log (AllowThis (fhe_add c (increment choice (Z.of_nat i))))
            (update_poll p (fun x =>
               set_encryptedCounts
                 (<[i := fhe_add c (increment choice (Z.of_nat i))]>
                    (encryptedCounts x)) x) s)).
Proof.
  intros Hc. unfold mbind, M_bind, bind, get, index.
  rewrite Nat2Z.id, Hc. reflexivity.
Qed.

Lemma vote_loop p choice l s :
  (forall i, i ∈ l -> (i < length (encryptedCounts (poll_at s p)))%nat) ->
  exists s',
    for_each (Z.of_nat <$> l) (vote_body p choice) s = Done tt s' /\
    frame p (set_encryptedCounts
               (fold_left (bump choice) l (encryptedCounts (poll_at s p)))
               (poll_at s p)) s s'.
Proof.
  revert s. induction l as [|i l IH]; intros s Hl.
  - exists s. split; [done|]. split; try done. by destruct (poll_at s p).
  - rewrite fmap_cons, for_each_cons.
    assert (Hi : (i < length (encryptedCounts (poll_at s p)))%nat)
      by (apply Hl; left).
    destruct (lookup_lt_is_Some_2 _ _ Hi) as [c Hc].
    rewrite (vote_turn _ _ _ _ _ Hc).
    set (s1 := log _ (update_poll _ _ s)).
    destruct (IH s1) as (s' & -> & Hf).
    { intros j Hj. subst s1. rewrite poll_at_log, poll_at_update_poll_eq. simpl.
      rewrite length_insert. apply Hl. by right. }
    exists s'. split; [done|].
    eapply frame_eq; [|eapply frame_trans; [|apply Hf]].
    2:{ subst s1. eapply frame_trans; [apply frame_update_poll|apply frame_log]. }
    subst s1. rewrite poll_at_log, poll_at_update_poll_eq. simpl.
    assert (bump choice (encryptedCounts (poll_at s p)) i =
            <[i := fhe_add c (increment choice (Z.of_nat i))]>
              (encryptedCounts (poll_at s p))) as ->
      by (unfold bump; by rewrite Hc).
    reflexivity.
Qed.

Lemma indices_len {A} (l : list A) :
  indices (len l) = Z.of_nat <$> seq 0 (length l).
Proof. unfold indices, len. by rewrite Nat2Z.id. Qed.

Lemma submitVote_spec env p ch prf s :
  match submitVote_error env p ch prf s with
  | Some e => exists s', submitVote env p ch prf s = Reverted e s'
  | None =>
    length (encryptedCounts (poll_at s p)) = length (options (poll_at s p)) ->
    exists s' c,
      fromExternal ch prf (sender env) = Some c /\
      submitVote env p ch prf s = Done tt s' /\
      pollCount s' = pollCount s /\
      pollVotes s' = <[(p, sender env) := true]> (pollVotes s) /\
      poll_at s' p =
        set_encryptedCounts
          (tally c (length (options (poll_at s p)))
             (encryptedCounts (poll_at s p)))
          (poll_at s p) /\
      forall q, q <> p -> poll_at s' q = poll_at s q
  end.
Proof.
  unfold submitVote_error, submitVote, _ensurePollExists.
  unfold mbind, M_bind, bind, revert_if, get.
  destruct (len (options (poll_at s p)) =? 0); [simpl; by eexists|].
  simpl.
  destruct (timestamp env <? startTime (poll_at s p)); [simpl; by eexists|].
  simpl.
  destruct (timestamp env >? endTime (poll_at s p)); [simpl; by eexists|].
  simpl.
  destruct (voted s p (sender env)); [simpl; by eexists|].
  simpl.
  destruct (fromExternal ch prf (sender env)) as [c|]; [|simpl; by eexists].
  simpl. intros Hlen.
  rewrite indices_len.
  destruct (vote_loop p c (seq 0 (length (options (poll_at s p))))
              (set_voted p (sender env) s)) as (s' & Hrun & [Hc Hv Hp Ho]).
  { intros i Hi. rewrite poll_at_set_voted, Hlen.
    apply elem_of_seq in Hi. lia. }
  match goal with |- context [for_each ?l ?b ?st] =>
    replace (for_each l b st) with (@Done F unit tt s')
      by (symmetry; exact Hrun)
  end.
  exists (log (VoteSubmitted p (sender env)) s'), c.
  repeat split; done.
Qed.

(** *** [finalizePoll] *)

Lemma finalize_loop (cs : list euint32) l s :
  (forall i, i ∈ l -> (i < length cs)%nat) ->
  exists s',
    for_each (Z.of_nat <$> l) (fun i =>
      c ← index cs i; modify (log (PubliclyDecryptable c))) s = Done tt s' /\
    forall p, frame p (poll_at s p) s s'.
Proof.
  revert s. induction l as [|i l IH]; intros s Hl.
  - exists s. split; [done|]. intros p. apply frame_refl.
  - rewrite fmap_cons, for_each_cons.
    destruct (lookup_lt_is_Some_2 cs i) as [c Hc]; [apply Hl; left|].
    unfold mbind at 1, M_bind at 1, bind at 1, index at 1.
    rewrite Nat2Z.id, Hc. unfold ret at 1, modify at 1.
    destruct (IH (log (PubliclyDecryptable c) s)) as (s' & -> & Hf).
    { intros j Hj. apply Hl. by right. }
    exists s'. split; [done|]. intros p.
    eapply frame_trans; [apply frame_log|]. apply Hf.
Qed.

Lemma finalizePoll_spec env p s :
  match finalizePoll_error env p s with
  | Some e => exists s', finalizePoll env p s = Reverted e s'
  | None => exists s',
      finalizePoll env p s = Done tt s' /\
      frame p (set_finalized true (poll_at s p)) s s'
  end.
Proof.
  unfold finalizePoll_error, finalizePoll, _ensurePollExists.
  unfold mbind, M_bind, bind, revert_if, get.
  destruct (len (options (poll_at s p)) =? 0); [simpl; by eexists|].
  simpl.
  destruct (timestamp env <=? endTime (poll_at s p)); [simpl; by eexists|].
  simpl.
  destruct (finalized (poll_at s p)) eqn:Efin; [simpl; by eexists|].
  simpl. rewrite indices_len.
  destruct (finalize_loop (encryptedCounts (poll_at s p))
              (seq 0 (length (encryptedCounts (poll_at s p))))
              (update_poll p (set_finalized true) s)) as (s' & Hrun & Hf).
  { intros i Hi. apply elem_of_seq in Hi. lia. }
  match goal with |- context [for_each ?l ?b ?st] =>
    replace (for_each l b st) with (@Done F unit tt s')
      by (symmetry; exact Hrun)
  end.
  exists (log (PollFinalized p (sender env)) s'). split; [done|].
  apply frame_log_r.
  eapply frame_trans; [apply frame_update_poll|].
  eapply frame_eq; [|apply Hf]. by rewrite poll_at_update_poll_eq.
Qed.

(** *** [submitDecryptedResults] *)

Lemma collect_cons {A B} (x : A) l (body : A -> M B) s :
  collect (x :: l) body s =
  match body x s with
  | Done y s' =>
      match collect l body s' with
      | Done ys s'' => Done (y :: ys) s''
      | Reverted e s'' => Reverted e s''
      end
  | Reverted e s' => Reverted e s'
  end.
Proof. reflexivity. Qed.

Lemma collect_ret {A B} (f : A -> B) l s :
  collect l (fun i => ret (f i)) s = Done (f <$> l) s.
Proof.
  induction l as [|x l IH]; [done|].
  rewrite collect_cons. unfold ret at 1. by rewrite IH.
Qed.

Lemma collect_index {A} (cs : list A) k a s :
  (a + k <= length cs)%nat ->
  collect (Z.of_nat <$> seq a k) (index cs) s = Done (take k (drop a cs)) s.
Proof.
  revert a. induction k as [|k IH]; intros a Hk; [done|].
  simpl seq. rewrite fmap_cons, collect_cons.
  destruct (lookup_lt_is_Some_2 cs a) as [c Hc]; [lia|].
  unfold index at 1. rewrite Nat2Z.id, Hc. unfold ret at 1.
  rewrite IH by lia.
  by rewrite (drop_S _ _ _ Hc).
Qed.

Lemma collect_index_all {A} (cs : list A) s :
  collect (indices (len cs)) (index cs) s = Done cs s.
Proof.
  rewrite indices_len, collect_index by lia.
  by rewrite drop_0, firstn_all.
Qed.

Local Abbreviation publish_body p ds := (fun i : Z =>
  v ← index ds i;
  revert_if (v >? MAX_UINT32) (CountExceedsLimit p i);;
  modify (update_poll p (fun x =>
    set_decryptedCounts (decryptedCounts x ++ [v mod 2 ^ 32]) x))).

Lemma publish_loop p (ds : list Z) rest : forall pre s,
  ds = pre ++ rest ->
  match list_find exceeds_limit rest with
  | Some (j, _) => exists s',
      for_each (Z.of_nat <$> seq (length pre) (length rest))
        (publish_body p ds) s =
      Reverted (CountExceedsLimit p (Z.of_nat (length pre + j))) s'
  | None => exists s',
      for_each (Z.of_nat <$> seq (length pre) (length rest))
        (publish_body p ds) s = Done tt s' /\
      frame p (set_decryptedCounts
                 (decryptedCounts (poll_at s p) ++
                  ((fun v => v mod 2 ^ 32) <$> rest))
                 (poll_at s p)) s s'
  end.
Proof.
  induction rest as [|v rest IH]; intros pre s Hds.
  - simpl. exists s. split; [done|]. rewrite app_nil_r.
    eapply frame_eq; [|apply frame_refl]. by destruct (poll_at s p).
  - assert (Hv : ds !! length pre = Some v).
    { subst ds. by rewrite list_lookup_middle. }
    simpl seq. rewrite fmap_cons.
    cbn [list_find].
    assert (Hbody : publish_body p ds (Z.of_nat (length pre)) s =
      if decide (exceeds_limit v)
      then Reverted (CountExceedsLimit p (Z.of_nat (length pre))) s
      else Done tt (update_poll p (fun x =>
             set_decryptedCounts (decryptedCounts x ++ [v mod 2 ^ 32]) x) s)).
    { unfold mbind, M_bind, bind, index. rewrite Nat2Z.id, Hv.
      unfold ret at 1, revert_if, exceeds_limit.
      case_decide; destruct (v >? MAX_UINT32) eqn:E; try done; lia. }
    rewrite for_each_cons, Hbody.
    destruct (decide (exceeds_limit v)) as [Hex|Hex].
    + simpl. exists s. by rewrite Nat.add_0_r.
    + specialize (IH (pre ++ [v])
        (update_poll p (fun x =>
           set_decryptedCounts (decryptedCounts x ++ [v mod 2 ^ 32]) x) s)).
      rewrite length_app in IH. simpl in IH.
      replace (length pre + 1)%nat with (S (length pre)) in IH by lia.
      rewrite <- app_assoc in IH. specialize (IH Hds).
      destruct (list_find exceeds_limit rest) as [[j w]|]; simpl.
      * destruct IH as [s' ->]. exists s'. do 3 f_equal. lia.
      * destruct IH as (s' & -> & Hf). exists s'. split; [done|].
        eapply frame_eq; [|eapply frame_trans; [apply frame_update_poll|apply Hf]].
        rewrite poll_at_update_poll_eq. simpl. by rewrite <- app_assoc.
Qed.

Lemma submitDecryptedResults_spec env p enc prf s :
  match submitDecryptedResults_error p enc prf s with
  | Some e => exists s', submitDecryptedResults env p enc prf s = Reverted e s'
  | None => exists s',
      submitDecryptedResults env p enc prf s = Done tt s' /\
      frame p (set_published enc prf
                 (set_decryptedCounts
                    ((fun v => v mod 2 ^ 32) <$>
                     decoded_words enc (len (encryptedCounts (poll_at s p))))
                    (poll_at s p))) s s'
  end.
Proof.
  unfold submitDecryptedResults_error, submitDecryptedResults,
    _ensurePollExists, _decodeClearValues.
  unfold mbind, M_bind, bind, revert_if, get.
  destruct (len (options (poll_at s p)) =? 0); [simpl; by eexists|].
  simpl.
  destruct (finalized (poll_at s p)); [|simpl; by eexists].
  simpl.
  destruct (resultsSubmitted (poll_at s p)); [simpl; by eexists|].
  simpl.
  rewrite collect_index_all.
  destruct (checkSignatures (encryptedCounts (poll_at s p)) enc prf);
    [|simpl; by eexists].
  simpl.
  destruct (len (encryptedCounts (poll_at s p)) * 32 >? MAX_UINT256);
    [simpl; by eexists|].
  simpl.
  destruct (len enc =? len (encryptedCounts (poll_at s p)) * 32);
    [|simpl; by eexists].
  simpl.
  rewrite collect_ret.
  fold (decoded_words enc (len (encryptedCounts (poll_at s p)))).
  set (ds := decoded_words enc (len (encryptedCounts (poll_at s p)))).
  assert (Hn : length ds = length (encryptedCounts (poll_at s p))).
  { subst ds. unfold decoded_words. rewrite indices_len.
    by rewrite !length_fmap, length_seq. }
  rewrite indices_len, <- Hn.
  pose proof (publish_loop p ds ds [] (update_poll p (set_decryptedCounts []) s)
                eq_refl) as Hloop.
  simpl length in Hloop.
  unfold mbind, M_bind, bind, revert_if in Hloop.
  destruct (list_find exceeds_limit ds) as [[j w]|].
  - destruct Hloop as [s' Hrun].
    match goal with |- context [for_each ?l ?b ?st] =>
      replace (for_each l b st)
        with (@Reverted F unit (CountExceedsLimit p (Z.of_nat (0 + j))) s')
        by (symmetry; exact Hrun)
    end.
    by eexists.
  - destruct Hloop as (s' & Hrun & Hf).
    match goal with |- context [for_each ?l ?b ?st] =>
      replace (for_each l b st) with (@Done F unit tt s')
        by (symmetry; exact Hrun)
    end.
    eexists. split; [done|].
    apply frame_log_r.
    eapply frame_eq; [|eapply frame_trans;
      [eapply frame_trans; [apply frame_update_poll|apply Hf]
      |apply frame_update_poll]].
    destruct Hf as [_ _ -> _]. rewrite poll_at_update_poll_eq. reflexivity.
Qed.

(** *** The calls, at the call boundary *)

Lemma exec_createPoll env t d os st en s :
  match createPoll_error env t os st en s with
  | Some e => exec env (CreatePoll t d os st en) s = (Failure e, s)
  | None => exists s',
      exec env (CreatePoll t d os st en) s = (Success (Some (pollCount s)), s') /\
      pollCount s' = pollCount s + 1 /\
      pollVotes s' = pollVotes s /\
      poll_at s' (pollCount s) =
        push_options os
          (set_header t d st en (sender env) (poll_at s (pollCount s))) /\
      forall q, q <> pollCount s -> poll_at s' q = poll_at s q
  end.
Proof.
  pose proof (createPoll_spec env t d os st en s) as H.
  unfold exec, transact, call_body. unfold mbind, M_bind, bind.
  destruct (createPoll_error env t os st en s).
  - destruct H as [s' ->]. done.
  - destruct H as (s' & -> & H). by exists s'.
Qed.

Lemma exec_submitVote env p ch prf s :
  match submitVote_error env p ch prf s with
  | Some e => exec env (SubmitVote p ch prf) s = (Failure e, s)
  | None =>
    length (encryptedCounts (poll_at s p)) = length (options (poll_at s p)) ->
    exists s' c,
      fromExternal ch prf (sender env) = Some c /\
      exec env (SubmitVote p ch prf) s = (Success None, s') /\
      pollCount s' = pollCount s /\
      pollVotes s' = <[(p, sender env) := true]> (pollVotes s) /\
      poll_at s' p =
        set_encryptedCounts
          (tally c (length (options (poll_at s p)))
             (encryptedCounts (poll_at s p)))
          (poll_at s p) /\
      forall q, q <> p -> poll_at s' q = poll_at s q
  end.
Proof.
  pose proof (submitVote_spec env p ch prf s) as H.
  unfold exec, transact, call_body. unfold mbind, M_bind, bind.
  destruct (submitVote_error env p ch prf s).
  - destruct H as [s' ->]. done.
  - intros Hlen. destruct (H Hlen) as (s' & c & ? & -> & H'). by exists s', c.
Qed.

Lemma exec_finalizePoll env p s :
  match finalizePoll_error env p s with
  | Some e => exec env (FinalizePoll p) s = (Failure e, s)
  | None => exists s',
      exec env (FinalizePoll p) s = (Success None, s') /\
      frame p (set_finalized true (poll_at s p)) s s'
  end.
Proof.
  pose proof (finalizePoll_spec env p s) as H.
  unfold exec, transact, call_body. unfold mbind, M_bind, bind.
  destruct (finalizePoll_error env p s).
  - destruct H as [s' ->]. done.
  - destruct H as (s' & -> & H). by exists s'.
Qed.

Lemma exec_submitDecryptedResults env p enc prf s :
  match submitDecryptedResults_error p enc prf s with
  | Some e => exec env (SubmitDecryptedResults p enc prf) s = (Failure e, s)
  | None => exists s',
      exec env (SubmitDecryptedResults p enc prf) s = (Success None, s') /\
      frame p (set_published enc prf
                 (set_decryptedCounts
                    ((fun v => v mod 2 ^ 32) <$>
                     decoded_words enc (len (encryptedCounts (poll_at s p))))
                    (poll_at s p))) s s'
  end.
Proof.
  pose proof (submitDecryptedResults_spec env p enc prf s) as H.
  unfold exec, transact, call_body. unfold mbind, M_bind, bind.
  destruct (submitDecryptedResults_error p enc prf s).
  - destruct H as [s' ->]. done.
  - destruct H as (s' & -> & H). by exists s'.
Qed.

(** A poll that exists has an id below the counter. *)
Lemma wf_exists_range s q :
  wf s -> (len (options (poll_at s q)) =? 0) = false -> 0 <= q < pollCount s.
Proof.
  intros Hwf Hq.
  destruct (decide (0 <= q < pollCount s)) as [|Hout]; [done|].
  rewrite (wf_fresh s Hwf q Hout) in Hq. done.
Qed.

Lemma wf_init : wf init.
Proof.
  split.
  - unfold MAX_UINT256. simpl. lia.
  - intros q _. apply poll_at_init.
  - simpl. lia.
  - intros q. by rewrite poll_at_init.
  - intros q v. by rewrite voted_init.
Qed.

Lemma voted_insert s s' p v q w :
  pollVotes s' = <[(p, v) := true]> (pollVotes s) ->
  voted s' q w = if decide ((p, v) = (q, w)) then true else voted s q w.
Proof.
  intros E. unfold voted. rewrite E, lookup_insert. by case_decide.
Qed.

Lemma voted_same s s' q w : pollVotes s' = pollVotes s -> voted s' q w = voted s q w.
Proof. intros E. unfold voted. by rewrite E. Qed.

Lemma step_transition env c s :
  wf s -> transition env c s (step s (env, c)).
Proof.
  intros Hwf. unfold step. simpl. destruct c as [t d os st en|p ch prf|p|p enc prf].
  - pose proof (exec_createPoll env t d os st en s) as H.
    destruct (createPoll_error env t os st en s) eqn:E.
    + rewrite H. simpl. eapply tr_failed; eauto.
    + destruct H as (s' & Hx & ? & ? & ? & ?). rewrite Hx. simpl.
      by apply tr_created.
  - pose proof (exec_submitVote env p ch prf s) as H.
    destruct (submitVote_error env p ch prf s) eqn:E.
    + rewrite H. simpl. eapply tr_failed; eauto.
    + destruct (H (wf_counters s Hwf p)) as (s' & c & ? & Hx & ? & ? & ? & ?).
      rewrite Hx. simpl. by eapply tr_voted.
  - pose proof (exec_finalizePoll env p s) as H.
    destruct (finalizePoll_error env p s) eqn:E.
    + rewrite H. simpl. eapply tr_failed; eauto.
    + destruct H as (s' & Hx & ?). rewrite Hx. simpl. by apply tr_finalized.
  - pose proof (exec_submitDecryptedResults env p enc prf s) as H.
    destruct (submitDecryptedResults_error p enc prf s) eqn:E.
    + rewrite H. simpl. eapply tr_failed; eauto.
    + destruct H as (s' & Hx & ?). rewrite Hx. simpl. by apply tr_published.
Qed.

(** *** What a passed cascade of checks says *)

Lemma createPoll_ok env t os st en s :
  createPoll_error env t os st en s = None ->
  is_empty t = false /\ MIN_OPTIONS <= len os <= MAX_OPTIONS /\
  st < en /\ timestamp env < en /\ pollCount s + 1 <= MAX_UINT256 /\
  existsb is_empty os = false.
Proof.
  unfold createPoll_error.
  destruct (is_empty t); [done|].
  destruct (len os <? MIN_OPTIONS) eqn:E1; [done|].
  destruct (len os >? MAX_OPTIONS) eqn:E2; [done|].
  destruct (en <=? st) eqn:E3; [done|].
  destruct (en <=? timestamp env) eqn:E4; [done|].
  destruct (pollCount s + 1 >? MAX_UINT256) eqn:E5; [done|].
  destruct (existsb is_empty os); [done|]. simpl. intros _.
  repeat split; try done; lia.
Qed.

Lemma submitVote_ok env p ch prf s :
  submitVote_error env p ch prf s = None ->
  (len (options (poll_at s p)) =? 0) = false /\
  startTime (poll_at s p) <= timestamp env <= endTime (poll_at s p) /\
  voted s p (sender env) = false /\
  is_Some (fromExternal ch prf (sender env)).
Proof.
  unfold submitVote_error.
  destruct (len (options (poll_at s p)) =? 0); [done|].
  destruct (timestamp env <? startTime (poll_at s p)) eqn:E1; [done|].
  destruct (timestamp env >? endTime (poll_at s p)) eqn:E2; [done|].
  destruct (voted s p (sender env)); [done|].
  destruct (fromExternal ch prf (sender env)); [|done]. intros _.
  repeat split; try done; lia.
Qed.

Lemma finalizePoll_ok env p s :
  finalizePoll_error env p s = None ->
  (len (options (poll_at s p)) =? 0) = false /\
  endTime (poll_at s p) < timestamp env /\
  finalized (poll_at s p) = false.
Proof.
  unfold finalizePoll_error.
  destruct (len (options (poll_at s p)) =? 0); [done|].
  destruct (timestamp env <=? endTime (poll_at s p)) eqn:E1; [done|].
  destruct (finalized (poll_at s p)); [done|]. intros _.
  repeat split; try done; lia.
Qed.

Lemma submitDecryptedResults_ok p enc prf s :
  submitDecryptedResults_error p enc prf s = None ->
  let n := len (encryptedCounts (poll_at s p)) in
  (len (options (poll_at s p)) =? 0) = false /\
  finalized (poll_at s p) = true /\
  resultsSubmitted (poll_at s p) = false /\
  checkSignatures (encryptedCounts (poll_at s p)) enc prf = true /\
  len enc = n * 32 /\
  list_find exceeds_limit (decoded_words enc n) = None.
Proof.
  unfold submitDecryptedResults_error. simpl.
  destruct (len (options (poll_at s p)) =? 0); [done|].
  destruct (finalized (poll_at s p)); [|done].
  destruct (resultsSubmitted (poll_at s p)); [done|].
  destruct (checkSignatures (encryptedCounts (poll_at s p)) enc prf); [|done].
  simpl.
  destruct (len (encryptedCounts (poll_at s p)) * 32 >? MAX_UINT256); [done|].
  destruct (len enc =? len (encryptedCounts (poll_at s p)) * 32) eqn:E; [|done].
  simpl.
  destruct (list_find _ _) as [[j w]|]; [done|]. intros _.
  repeat split; try done; lia.
Qed.

(** *** Every reachable storage is well formed *)

Lemma wf_transition env c s s' : wf s -> transition env c s s' -> wf s'.
Proof.
  intros Hwf Htr. destruct Hwf as [Hc Hf Ho Hk Hv].
  inversion Htr as
    [ c0 s0 e _
    | t d os st en s0 s0' _ Herr Hpc Hpv Hnew Hoth
    | p ch prf ct s0 s0' _ Herr Hext Hpc Hpv Hnew Hoth
    | p s0 s0' _ Herr [Hpc Hpv Hnew Hoth]
    | p enc prf s0 s0' _ Herr [Hpc Hpv Hnew Hoth] ]; subst.
  - by split.
  - apply createPoll_ok in Herr as (_ & Hn & _ & _ & Hmax & _).
    assert (Hempty : poll_at s (pollCount s) = empty_poll) by (apply Hf; lia).
    destruct (push_options_fields os
      (set_header t d st en (sender env) (poll_at s (pollCount s))))
      as (Hopts & Hencs & _).
    rewrite Hempty in Hopts, Hencs, Hnew. simpl in Hopts, Hencs.
    split.
    + lia.
    + intros q Hq. rewrite Hoth by lia. apply Hf. lia.
    + intros q Hq. destruct (decide (q = pollCount s)) as [->|Hne].
      * by rewrite Hnew, Hopts.
      * rewrite Hoth by done. apply Ho. lia.
    + intros q. destruct (decide (q = pollCount s)) as [->|Hne].
      * by rewrite Hnew, Hopts, Hencs, length_replicate.
      * rewrite Hoth by done. apply Hk.
    + intros q v. rewrite (voted_same s s') by done.
      intros Hq%Hv. lia.
  - apply submitVote_ok in Herr as (Hex & _).
    pose proof (wf_exists_range s p (mkWf s Hc Hf Ho Hk Hv) Hex) as Hp.
    split.
    + lia.
    + intros q Hq. rewrite Hoth by lia. apply Hf. lia.
    + intros q Hq. destruct (decide (q = p)) as [->|Hne].
      * rewrite Hnew. simpl. apply Ho. lia.
      * rewrite Hoth by done. apply Ho. lia.
    + intros q. destruct (decide (q = p)) as [->|Hne].
      * rewrite Hnew. simpl. rewrite tally_length. apply Hk.
      * rewrite Hoth by done. apply Hk.
    + intros q v. rewrite (voted_insert s s' p (sender env)) by done.
      case_decide as Hd; [injection Hd as ? ?; lia|].
      intros Hq%Hv. lia.
  - apply finalizePoll_ok in Herr as (Hex & _).
    pose proof (wf_exists_range s p (mkWf s Hc Hf Ho Hk Hv) Hex) as Hp.
    split.
    + lia.
    + intros q Hq. rewrite Hoth by lia. apply Hf. lia.
    + intros q Hq. destruct (decide (q = p)) as [->|Hne].
      * rewrite Hnew. simpl. apply Ho. lia.
      * rewrite Hoth by done. apply Ho. lia.
    + intros q. destruct (decide (q = p)) as [->|Hne].
      * rewrite Hnew. simpl. apply Hk.
      * rewrite Hoth by done. apply Hk.
    + intros q v. rewrite (voted_same s s') by done.
      intros Hq%Hv. lia.
  - apply submitDecryptedResults_ok in Herr as (Hex & _).
    pose proof (wf_exists_range s p (mkWf s Hc Hf Ho Hk Hv) Hex) as Hp.
    split.
    + lia.
    + intros q Hq. rewrite Hoth by lia. apply Hf. lia.
    + intros q Hq. destruct (decide (q = p)) as [->|Hne].
      * rewrite Hnew. simpl. apply Ho. lia.
      * rewrite Hoth by done. apply Ho. lia.
    + intros q. destruct (decide (q = p)) as [->|Hne].
      * rewrite Hnew. simpl. apply Hk.
      * rewrite Hoth by done. apply Hk.
    + intros q v. rewrite (voted_same s s') by done.
      intros Hq%Hv. lia.
Qed.

Lemma wf_step s ec : wf s -> wf (step s ec).
Proof.
  intros Hwf. destruct ec as [env c].
  eapply wf_transition; [done|]. by apply step_transition.
Qed.

Lemma run_snoc h ec s : run (h ++ [ec]) s = step (run h s) ec.
Proof. unfold run. by rewrite fold_left_app. Qed.

Lemma run_app h1 h2 s : run (h1 ++ h2) s = run h2 (run h1 s).
Proof. unfold run. by rewrite fold_left_app. Qed.

Lemma run_cons ec h s : run (ec :: h) s = run h (step s ec).
Proof. reflexivity. Qed.

Lemma wf_run h s : wf s -> wf (run h s).
Proof.
  revert s. induction h as [|ec h IH]; intros s Hwf; [done|].
  rewrite run_cons. apply IH. by apply wf_step.
Qed.

Lemma reachable_wf s : reachable s -> wf s.
Proof. intros [h ->]. apply wf_run, wf_init. Qed.

(** *** Later storages *)

Lemma wf_flag_range s q :
  wf s ->
  finalized (poll_at s q) = true \/ resultsSubmitted (poll_at s q) = true ->
  0 <= q < pollCount s.
Proof.
  intros Hwf Hq.
  destruct (decide (0 <= q < pollCount s)) as [|Hout]; [done|].
  rewrite (wf_fresh s Hwf q Hout) in Hq. simpl in Hq. by destruct Hq.
Qed.

Lemma later_refl s : later s s.
Proof. by split. Qed.

Lemma later_trans s1 s2 s3 : later s1 s2 -> later s2 s3 -> later s1 s3.
Proof.
  intros [c1 o1 st1 en1 f1 r1 v1] [c2 o2 st2 en2 f2 r2 v2]. split.
  - lia.
  - intros q Hq. rewrite o2 by lia. by apply o1.
  - intros q Hq. rewrite st2 by lia. by apply st1.
  - intros q Hq. rewrite en2 by lia. by apply en1.
  - intros q Hq. by apply f2, f1.
  - intros q Hq. destruct (r1 q Hq) as (Ha & Hb & Hc & Hd).
    destruct (r2 q Ha) as (Ha' & Hb' & Hc' & Hd').
    repeat split; congruence.
  - intros q v Hq. by apply v2, v1.
Qed.

Lemma later_frame p new s s' :
  options new = options (poll_at s p) ->
  startTime new = startTime (poll_at s p) ->
  endTime new = endTime (poll_at s p) ->
  (finalized (poll_at s p) = true -> finalized new = true) ->
  (resultsSubmitted (poll_at s p) = true ->
   resultsSubmitted new = true /\
   decryptedCounts new = decryptedCounts (poll_at s p) /\
   encodedClearResults new = encodedClearResults (poll_at s p) /\
   decryptionProof new = decryptionProof (poll_at s p)) ->
  pollCount s' = pollCount s ->
  (forall q v, voted s q v = true -> voted s' q v = true) ->
  poll_at s' p = new ->
  (forall q, q <> p -> poll_at s' q = poll_at s q) ->
  later s s'.
Proof.
  intros Ho Hst Hen Hfin Hres Hpc Hv Hnew Hoth. split.
  - lia.
  - intros q _. destruct (decide (q = p)) as [->|]; [congruence|by rewrite Hoth].
  - intros q _. destruct (decide (q = p)) as [->|]; [congruence|by rewrite Hoth].
  - intros q _. destruct (decide (q = p)) as [->|]; [congruence|by rewrite Hoth].
  - intros q Hq. destruct (decide (q = p)) as [->|]; [|by rewrite Hoth].
    rewrite Hnew. auto.
  - intros q Hq. destruct (decide (q = p)) as [->|]; [|by rewrite Hoth].
    rewrite Hnew. auto.
  - done.
Qed.

Lemma later_transition env c s s' : wf s -> transition env c s s' -> later s s'.
Proof.
  intros Hwf Htr.
  inversion Htr as
    [ c0 s0 e _
    | t d os st en s0 s0' _ Herr Hpc Hpv Hnew Hoth
    | p ch prf ct s0 s0' _ Herr Hext Hpc Hpv Hnew Hoth
    | p s0 s0' _ Herr [Hpc Hpv Hnew Hoth]
    | p enc prf s0 s0' _ Herr [Hpc Hpv Hnew Hoth] ]; subst.
  - apply later_refl.
  - split.
    + lia.
    + intros q Hq. rewrite Hoth by lia. done.
    + intros q Hq. rewrite Hoth by lia. done.
    + intros q Hq. rewrite Hoth by lia. done.
    + intros q Hq.
      pose proof (wf_flag_range s q Hwf (or_introl Hq)).
      rewrite Hoth by lia. done.
    + intros q Hq.
      pose proof (wf_flag_range s q Hwf (or_intror Hq)).
      rewrite Hoth by lia. done.
    + intros q v. by rewrite (voted_same s s').
  - eapply (later_frame p (poll_at s' p)); rewrite ?Hnew; simpl; try done.
    intros q v Hq. rewrite (voted_insert s s' p (sender env)) by done.
    by case_decide.
  - eapply (later_frame p (poll_at s' p)); rewrite ?Hnew; simpl; try done.
    intros q v. by rewrite (voted_same s s').
  - apply submitDecryptedResults_ok in Herr as (_ & _ & Hres & _).
    eapply (later_frame p (poll_at s' p)); rewrite ?Hnew; simpl; try done.
    + intros Hq. congruence.
    + intros q v. by rewrite (voted_same s s').
Qed.

Lemma later_step s ec : wf s -> later s (step s ec).
Proof.
  intros Hwf. destruct ec as [env c].
  eapply later_transition; [done|]. by apply step_transition.
Qed.

Lemma later_run h s : wf s -> later s (run h s).
Proof.
  revert s. induction h as [|ec h IH]; intros s Hwf; [apply later_refl|].
  rewrite run_cons. eapply later_trans; [by apply later_step|].
  apply IH. by apply wf_step.
Qed.

(** *** Time *)

Lemma chrono_from_app t h1 h2 :
  chrono_from t (h1 ++ h2) <->
  chrono_from t h1 /\ chrono_from (end_time t h1) h2.
Proof.
  revert t. induction h1 as [|[e0 c0] h1 IH]; intros t; simpl.
  - tauto.
  - rewrite IH. tauto.
Qed.


Lemma chrono_chrono_from h :
  chrono h -> exists t, chrono_from t h.
Proof.
  destruct h as [|[e0 c0] h]; simpl.
  - by exists 0.
  - intros H. by exists (timestamp e0).
Qed.

Lemma closed_init t : closed t init.
Proof. intros q. by rewrite poll_at_init. Qed.

Lemma closed_mono t t' s : t <= t' -> closed t s -> closed t' s.
Proof. intros Ht Hc q Hq. apply Hc in Hq. lia. Qed.

Lemma closed_transition env c s s' :
  wf s -> closed (timestamp env) s -> transition env c s s' ->
  closed (timestamp env) s'.
Proof.
  intros Hwf Hcl Htr.
  inversion Htr as
    [ c0 s0 e _
    | t d os st en s0 s0' _ Herr Hpc Hpv Hnew Hoth
    | p ch prf ct s0 s0' _ Herr Hext Hpc Hpv Hnew Hoth
    | p s0 s0' _ Herr [Hpc Hpv Hnew Hoth]
    | p enc prf s0 s0' _ Herr [Hpc Hpv Hnew Hoth] ]; subst.
  - done.
  - intros q. destruct (decide (q = pollCount s)) as [->|Hne].
    + rewrite Hnew.
      destruct (push_options_fields os
        (set_header t d st en (sender env) (poll_at s (pollCount s))))
        as (_ & _ & _ & _ & _ & _ & -> & _).
      simpl. rewrite (wf_fresh s Hwf (pollCount s)) by lia. done.
    + rewrite Hoth by done. apply Hcl.
  - intros q. destruct (decide (q = p)) as [->|Hne].
    + rewrite Hnew. simpl. apply Hcl.
    + rewrite Hoth by done. apply Hcl.
  - apply finalizePoll_ok in Herr as (_ & Hend & _).
    intros q. destruct (decide (q = p)) as [->|Hne].
    + rewrite Hnew. simpl. done.
    + rewrite Hoth by done. apply Hcl.
  - intros q. destruct (decide (q = p)) as [->|Hne].
    + rewrite Hnew. simpl. apply Hcl.
    + rewrite Hoth by done. apply Hcl.
Qed.

Lemma closed_run h : forall t s,
  wf s -> closed t s -> chrono_from t h -> closed (end_time t h) (run h s).
Proof.
  induction h as [|[env c] h IH]; intros t s Hwf Hcl Hch; [done|].
  destruct Hch as [Ht Hch]. rewrite run_cons. simpl end_time.
  apply IH; [by apply wf_step| |done].
  eapply closed_transition; [done| |by apply step_transition].
  by eapply closed_mono.
Qed.

(** *** Schedules *)

Lemma scheduled_run h : forall s,
  wf s ->
  (forall q, 0 <= q < pollCount s ->
     startTime (poll_at s q) < endTime (poll_at s q)) ->
  forall q, 0 <= q < pollCount (run h s) ->
    startTime (poll_at (run h s) q) < endTime (poll_at (run h s) q).
Proof.
  induction h as [|[env c] h IH]; intros s Hwf Hs; [done|].
  rewrite run_cons. apply IH; [by apply wf_step|].
  pose proof (step_transition env c s Hwf) as Htr.
  generalize dependent (step s (env, c)). intros s' Htr.
  pose proof (later_transition _ _ _ _ Hwf Htr) as Hl.
  intros q Hq.
  destruct (decide (q < pollCount s)) as [Hold|Hnew].
  - rewrite (later_startTime _ _ Hl), (later_endTime _ _ Hl) by lia.
    apply Hs. lia.
  - inversion Htr as
      [ c0 s0 e _
      | t d os st en s0 s0' _ Herr Hpc Hpv Hnew' Hoth
      | p ch prf ct s0 s0' _ Herr Hext Hpc Hpv Hnew' Hoth
      | p s0 s0' _ Herr [Hpc Hpv Hnew' Hoth]
      | p enc prf s0 s0' _ Herr [Hpc Hpv Hnew' Hoth] ]; subst; try lia.
    assert (q = pollCount s) as -> by lia.
    rewrite Hnew'.
      destruct (push_options_fields os
        (set_header t d st en (sender env) (poll_at s (pollCount s))))
      as (_ & _ & _ & _ & -> & -> & _).
    simpl. by apply createPoll_ok in Herr as (_ & _ & ? & _).
Qed.

Lemma reachable_scheduled h q :
  0 <= q < pollCount (run h init) ->
  startTime (poll_at (run h init) q) < endTime (poll_at (run h init) q).
Proof.
  apply scheduled_run; [apply wf_init|]. simpl. lia.
Qed.

Lemma exec_pair env c s r :
  (exec env c s).1 = r -> exec env c s = (r, step s (env, c)).
Proof. unfold step. simpl. intros <-. by destruct (exec env c s). Qed.

(** A successful call is one of the four proper transitions. *)
Lemma exec_success env c s r s' :
  wf s -> exec env c s = (Success r, s') -> transition env c s s' /\ wf s'.
Proof.
  intros Hwf Hx.
  pose proof (step_transition env c s Hwf) as Htr.
  unfold step in Htr. simpl in Htr. rewrite Hx in Htr. simpl in Htr.
  split; [done|]. by eapply wf_transition.
Qed.

Lemma poll_exists_len s p :
  poll_exists s p <-> (len (options (poll_at s p)) =? 0) = false.
Proof.
  unfold poll_exists, len. destruct (options (poll_at s p)); simpl length.
  - split; [done|]. intros H%Z.eqb_neq. done.
  - split; [|done]. intros _. apply Z.eqb_neq. lia.
Qed.

Lemma wf_exists s q : wf s -> poll_exists s q <-> 0 <= q < pollCount s.
Proof.
  intros Hwf. rewrite poll_exists_len. split.
  - by apply wf_exists_range.
  - intros Hq. pose proof (wf_options s Hwf q Hq) as Ho.
    unfold MIN_OPTIONS in Ho. apply Z.eqb_neq. lia.
Qed.

(** ** The claims *)

Lemma submitVote_guards env p ch prf s :
  (poll_exists s p -> timestamp env < startTime (poll_at s p) ->
   exec env (SubmitVote p ch prf) s = (Failure (VotingNotStarted p), s)) /\
  (poll_exists s p -> startTime (poll_at s p) <= timestamp env ->
   endTime (poll_at s p) < timestamp env ->
   exec env (SubmitVote p ch prf) s = (Failure (VotingFinished p), s)) /\
  (poll_exists s p ->
   startTime (poll_at s p) <= timestamp env <= endTime (poll_at s p) ->
   voted s p (sender env) = true ->
   exec env (SubmitVote p ch prf) s =
     (Failure (AlreadyVoted p (sender env)), s)).
Proof.
  pose proof (exec_submitVote env p ch prf s) as H.
  unfold submitVote_error in H. rewrite poll_exists_len.
  destruct (len (options (poll_at s p)) =? 0); [done|].
  destruct (timestamp env <? startTime (poll_at s p)) eqn:E1.
  { apply Z.ltb_lt in E1. split_and!; try done; intros; lia. }
  apply Z.ltb_ge in E1.
  destruct (timestamp env >? endTime (poll_at s p)) eqn:E2.
  { split_and!; try done; intros; lia. }
  destruct (voted s p (sender env)).
  { split_and!; try done; intros; lia. }
  split_and!; try done; intros; lia.
Qed.

(** C5. [submitVote] checks, in this order: that the poll exists
    ([PollNotFound]), that the current time is at least [startTime]
    ([VotingNotStarted]), that it is at most [endTime] ([VotingFinished]), that
    the caller has not voted ([AlreadyVoted]); and a failing call, whatever
    the failure, leaves the tallies and the rest of the storage as they were. *)
Theorem submitVote_check_order env p ch prf s :
  (~ poll_exists s p ->
   exec env (SubmitVote p ch prf) s = (Failure (PollNotFound p), s)) /\
  (poll_exists s p -> timestamp env < startTime (poll_at s p) ->
   exec env (SubmitVote p ch prf) s = (Failure (VotingNotStarted p), s)) /\
  (poll_exists s p -> startTime (poll_at s p) <= timestamp env ->
   endTime (poll_at s p) < timestamp env ->
   exec env (SubmitVote p ch prf) s = (Failure (VotingFinished p), s)) /\
  (poll_exists s p ->
   startTime (poll_at s p) <= timestamp env <= endTime (poll_at s p) ->
   voted s p (sender env) = true ->
   exec env (SubmitVote p ch prf) s =
     (Failure (AlreadyVoted p (sender env)), s)) /\
  (forall e s', exec env (SubmitVote p ch prf) s = (Failure e, s') ->
   s' = s /\
   encryptedCounts (poll_at s' p) = encryptedCounts (poll_at s p)).
Proof.
  pose proof (exec_submitVote env p ch prf s) as H.
  unfold submitVote_error in H. rewrite poll_exists_len.
  assert (Hfail : forall e s', exec env (SubmitVote p ch prf) s = (Failure e, s') ->
    s' = s /\ encryptedCounts (poll_at s' p) = encryptedCounts (poll_at s p)).
  { intros e s' Hx%exec_failure. by subst. }
  destruct (len (options (poll_at s p)) =? 0) eqn:E0.
  { split_and!; try done. }
  destruct (timestamp env <? startTime (poll_at s p)) eqn:E1.
  { apply Z.ltb_lt in E1. split_and!; try done; intros; lia. }
  apply Z.ltb_ge in E1.
  destruct (timestamp env >? endTime (poll_at s p)) eqn:E2.
  { split_and!; try done; intros; lia. }
  destruct (voted s p (sender env)) eqn:E3.
  { split_and!; try done; intros; lia. }
  split_and!; try done; intros; lia.
Qed.



(** C7. Voting-open and finalized never overlap: if time never goes
    backwards, then in every reachable state where a poll is finalized a
    [submitVote] for it fails, with [VotingFinished], because the poll was
    finalized after its [endTime]. *)
Theorem no_vote_once_finalized (h : History) env p ch prf :
  chrono (h ++ [(env, SubmitVote p ch prf)]) ->
  finalized (poll_at (run h init) p) = true ->
  exec env (SubmitVote p ch prf) (run h init) =
    (Failure (VotingFinished p), run h init).
Proof.
  intros Hch Hfin.
  apply chrono_chrono_from in Hch as [t Hch].
  apply chrono_from_app in Hch as [Hch Hlast].
  simpl in Hlast. destruct Hlast as [Hlast _].
  pose proof (closed_run h t init wf_init (closed_init t) Hch p Hfin) as Hcl.
  assert (Hwf : wf (run h init)) by apply wf_run, wf_init.
  pose proof (wf_flag_range _ p Hwf (or_introl Hfin)) as Hp.
  pose proof (reachable_scheduled h p Hp) as Hsch.
  apply (submitVote_guards env p ch prf (run h init)); [|lia|lia].
  by apply wf_exists.
Qed.

(** *** Created polls *)

Lemma created_step env c s :
  wf s ->
  (created_id env c s = Some (pollCount s) /\
   pollCount (step s (env, c)) = pollCount s + 1) \/
  (created_id env c s = None /\ pollCount (step s (env, c)) = pollCount s).
Proof.
  intros Hwf. pose proof (step_transition env c s Hwf) as Htr.
  unfold created_id.
  generalize dependent (step s (env, c)). intros s' Htr.
  inversion Htr as
    [ c0 s0 e Hx
    | t d os st en s0 s0' Hx Herr Hpc Hpv Hnew Hoth
    | p ch prf ct s0 s0' Hx Herr Hext Hpc Hpv Hnew Hoth
    | p s0 s0' Hx Herr [Hpc Hpv Hnew Hoth]
    | p enc prf s0 s0' Hx Herr [Hpc Hpv Hnew Hoth] ]; subst.
  - right. rewrite Hx. simpl. by destruct c.
  - left. rewrite Hx. done.
  - by right.
  - by right.
  - by right.
Qed.

Lemma created_ids_range h : forall s p,
  wf s ->
  p ∈ created_ids h s <-> pollCount s <= p < pollCount (run h s).
Proof.
  induction h as [|[env c] h IH]; intros s p Hwf.
  - simpl. rewrite elem_of_nil. lia.
  - rewrite run_cons. simpl created_ids. rewrite elem_of_app.
    rewrite IH by (by apply wf_step).
    pose proof (later_count _ _ (later_run h _ (wf_step s (env, c) Hwf))).
    destruct (created_step env c s Hwf) as [[-> Hpc]|[-> Hpc]]; simpl.
    + rewrite list_elem_of_singleton. lia.
    + rewrite elem_of_nil. lia.
Qed.

Lemma getPoll_result p s :
  transact (getPoll p) s =
  if len (options (poll_at s p)) =? 0
  then (Failure (PollNotFound p), s)
  else (Success (mkPollView (title (poll_at s p)) (description (poll_at s p))
                   (options (poll_at s p)) (startTime (poll_at s p))
                   (endTime (poll_at s p)) (finalized (poll_at s p))
                   (resultsSubmitted (poll_at s p)) (creator (poll_at s p))), s).
Proof.
  unfold transact, getPoll, _ensurePollExists, _copyOptions.
  unfold mbind, M_bind, bind, revert_if, get.
  destruct (len (options (poll_at s p)) =? 0); [done|].
  simpl. by rewrite collect_index_all.
Qed.

(** C8. Every created poll has between two and four options and as many
    encrypted counters as options, in the state after its creation and in
    every state after that; so [getPoll] fails with [PollNotFound] exactly
    for the ids no [createPoll] call has returned. *)
Theorem created_polls_well_formed (h : History) p :
  let s := run h init in
  (p ∈ created_ids h init ->
   MIN_OPTIONS <= len (options (poll_at s p)) <= MAX_OPTIONS /\
   len (encryptedCounts (poll_at s p)) = len (options (poll_at s p))) /\
  ((transact (getPoll p) s).1 = Failure (PollNotFound p) <->
   p ∉ created_ids h init) /\
  (p ∈ created_ids h init <-> 0 <= p < pollCount s).
Proof.
  intros s.
  assert (Hwf : wf s) by apply wf_run, wf_init.
  pose proof (created_ids_range h init p wf_init) as Hr.
  change (pollCount init) with 0 in Hr. fold s in Hr.
  split_and!; [| |done].
  - intros Hp%Hr. split; [by apply wf_options|].
    unfold len. by rewrite (wf_counters s Hwf p).
  - rewrite getPoll_result, Hr, <- (wf_exists s p Hwf), poll_exists_len.
    destruct (len (options (poll_at s p)) =? 0); simpl.
    + split; [|done]. intros _ H. done.
    + split; [done|]. intros H. by destruct H.
Qed.

Lemma hasVoted_result p v s :
  transact (hasVoted p v) s = (Success (voted s p v), s).
Proof. reflexivity. Qed.

(** C10. A recorded vote refers to an existing poll: in every reachable state,
    if [hasVoted(pollId, voter)] returns true then a poll with that id has
    been created, so [pollId < pollCount]. *)
Theorem recorded_vote_has_poll (h : History) p v :
  let s := run h init in
  (transact (hasVoted p v) s).1 = Success true ->
  0 <= p < pollCount s /\ p ∈ created_ids h init /\ poll_exists s p.
Proof.
  intros s. rewrite hasVoted_result. simpl. intros [= Hv].
  assert (Hwf : wf s) by apply wf_run, wf_init.
  pose proof (wf_votes s Hwf p v Hv) as Hp.
  split_and!; [lia|lia| |by apply wf_exists].
  apply created_ids_range; [apply wf_init|]. simpl. fold s. lia.
Qed.

Lemma is_empty_false x : is_empty x = false <-> x <> EmptyString.
Proof.
  unfold is_empty. destruct x; simpl String.length.
  - split; [intros H%Z.eqb_neq|]; done.
  - split; [done|]. intros _. apply Z.eqb_neq. lia.
Qed.

Lemma existsb_is_empty_false os :
  existsb is_empty os = false <-> Forall (fun o => o <> EmptyString) os.
Proof.
  induction os as [|o os IH]; simpl.
  - split; [constructor|done].
  - rewrite orb_false_iff, IH, is_empty_false, Forall_cons. done.
Qed.

Lemma createPoll_result env t d os st en s :
  exec env (CreatePoll t d os st en) s =
  match createPoll_error env t os st en s with
  | Some e => (Failure e, s)
  | None => (Success (Some (pollCount s)), step s (env, CreatePoll t d os st en))
  end.
Proof.
  pose proof (exec_createPoll env t d os st en s) as H.
  destruct (createPoll_error env t os st en s); [done|].
  destruct H as (s' & Hx & _). unfold step. simpl. by rewrite Hx.
Qed.

(** C9. [createPoll] does not ask for a [startTime] in the future: with a
    non-empty title, two to four non-empty options, [endTime > startTime] and
    [endTime] after the current time, the call succeeds wherever [startTime]
    lies; and when [startTime] is not after the current time the new poll
    takes a vote at once.  (The poll counter is a [uint256]: the call needs
    it below its maximum.) *)
Theorem createPoll_past_start_allowed (h : History) env t d os st en :
  let s := run h init in
  pollCount s < MAX_UINT256 ->
  t <> EmptyString ->
  MIN_OPTIONS <= len os <= MAX_OPTIONS ->
  Forall (fun o => o <> EmptyString) os ->
  st < en ->
  timestamp env < en ->
  exists s',
    exec env (CreatePoll t d os st en) s = (Success (Some (pollCount s)), s') /\
    options (poll_at s' (pollCount s)) = os /\
    startTime (poll_at s' (pollCount s)) = st /\
    endTime (poll_at s' (pollCount s)) = en /\
    (st <= timestamp env ->
     forall voter ch prf,
       is_Some (fromExternal ch prf voter) ->
       exists s'',
         exec (mkEnv (timestamp env) voter) (SubmitVote (pollCount s) ch prf) s'
         = (Success None, s'')).
Proof.
  intros s Hmax Ht Hn Hos Hse Hnow.
  assert (Hwf : wf s) by apply wf_run, wf_init.
  assert (Herr : createPoll_error env t os st en s = None).
  { unfold createPoll_error.
    apply is_empty_false in Ht as ->.
    destruct (len os <? MIN_OPTIONS) eqn:E1; [apply Z.ltb_lt in E1; lia|].
    destruct (len os >? MAX_OPTIONS) eqn:E2; [lia|].
    destruct (en <=? st) eqn:E3; [apply Z.leb_le in E3; lia|].
    destruct (en <=? timestamp env) eqn:E4; [apply Z.leb_le in E4; lia|].
    destruct (pollCount s + 1 >? MAX_UINT256) eqn:E5; [lia|].
    apply existsb_is_empty_false in Hos as ->. done. }
  pose proof (exec_createPoll env t d os st en s) as H. rewrite Herr in H.
  destruct H as (s' & Hx & Hpc & Hpv & Hnew & Hoth).
  destruct (exec_success _ _ _ _ _ Hwf Hx) as [_ Hwf'].
  rewrite (wf_fresh s Hwf (pollCount s)) in Hnew by lia.
  destruct (push_options_fields os
    (set_header t d st en (sender env) empty_poll))
    as (Hopts & _ & _ & _ & Hst & Hen & _).
  simpl in Hopts, Hst, Hen. rewrite <- Hnew in Hopts, Hst, Hen.
  exists s'. split_and!; try done.
  intros Hstart voter ch prf [c Hc].
  pose proof (exec_submitVote (mkEnv (timestamp env) voter) (pollCount s)
                ch prf s') as Hv.
  unfold submitVote_error in Hv. simpl in Hv.
  rewrite Hopts, Hst, Hen, Hc in Hv.
  destruct (len os =? 0) eqn:E0;
    [apply Z.eqb_eq in E0; unfold MIN_OPTIONS in Hn; lia|].
  destruct (timestamp env <? st) eqn:E1; [apply Z.ltb_lt in E1; lia|].
  destruct (timestamp env >? en) eqn:E2; [lia|].
  destruct (voted s' (pollCount s) voter) eqn:E3.
  { rewrite (voted_same s s') in E3 by done.
    apply (wf_votes s Hwf) in E3. lia. }
  destruct Hv as (s'' & c' & _ & Hx' & _).
  { rewrite <- Hopts. apply (wf_counters s' Hwf'). }
  by exists s''.
Qed.

(** C6, as the code has it. The checks of [createPoll] come in the order
    [EmptyTitle], [InvalidOptionCount], [InvalidSchedule], [EmptyOption]: the
    schedule is checked before the options are looked at, and the empty-option
    check runs last, in the loop that stores the options.  A failing call
    leaves the storage as it was. *)
Theorem createPoll_validation_order env t d os st en s :
  (t = EmptyString ->
   exec env (CreatePoll t d os st en) s = (Failure EmptyTitle, s)) /\
  (t <> EmptyString -> ~ (MIN_OPTIONS <= len os <= MAX_OPTIONS) ->
   exec env (CreatePoll t d os st en) s = (Failure InvalidOptionCount, s)) /\
  (t <> EmptyString -> MIN_OPTIONS <= len os <= MAX_OPTIONS ->
   en <= st \/ en <= timestamp env ->
   exec env (CreatePoll t d os st en) s = (Failure InvalidSchedule, s)) /\
  (t <> EmptyString -> MIN_OPTIONS <= len os <= MAX_OPTIONS ->
   st < en -> timestamp env < en -> pollCount s < MAX_UINT256 ->
   Exists (fun o => o = EmptyString) os ->
   exec env (CreatePoll t d os st en) s = (Failure EmptyOption, s)) /\
  (forall e s', exec env (CreatePoll t d os st en) s = (Failure e, s') -> s' = s).
Proof.
  rewrite createPoll_result. unfold createPoll_error.
  assert (Hfail : forall e s', exec env (CreatePoll t d os st en) s = (Failure e, s') ->
                               s' = s) by apply exec_failure.
  rewrite createPoll_result in Hfail. unfold createPoll_error in Hfail.
  destruct (is_empty t) eqn:Et.
  { assert (t = EmptyString).
    { destruct (decide (t = EmptyString)) as [|Hne]; [done|].
      apply is_empty_false in Hne. congruence. }
    split_and!; try done. }
  apply is_empty_false in Et.
  destruct (len os <? MIN_OPTIONS) eqn:E1.
  { apply Z.ltb_lt in E1. split_and!; try done; intros; lia. }
  apply Z.ltb_ge in E1.
  destruct (len os >? MAX_OPTIONS) eqn:E2.
  { split_and!; try done; intros; lia. }
  destruct (en <=? st) eqn:E3.
  { apply Z.leb_le in E3. split_and!; try done; intros; lia. }
  apply Z.leb_gt in E3.
  destruct (en <=? timestamp env) eqn:E4.
  { apply Z.leb_le in E4. split_and!; try done; intros; lia. }
  apply Z.leb_gt in E4. simpl.
  destruct (pollCount s + 1 >? MAX_UINT256) eqn:E5.
  { split_and!; try done; intros; lia. }
  destruct (existsb is_empty os) eqn:E6.
  { split_and!; try done; intros; lia. }
  apply existsb_is_empty_false in E6.
  split_and!; try done; try (intros; lia).
  intros _ _ _ _ _ Hex. apply Exists_exists in Hex as (o & Ho & ->).
  rewrite Forall_forall in E6. by apply E6 in Ho.
Qed.

(** C1, as the code has it. After a voter's [submitVote] has succeeded, every
    later [submitVote] by that voter for that poll fails and changes nothing;
    the error is [AlreadyVoted] while the voting window is open, and the
    window's own error outside it, since the window is checked first. *)
Theorem one_vote_per_voter (h : History) env p ch prf s1 :
  let s := run h init in
  exec env (SubmitVote p ch prf) s = (Success None, s1) ->
  forall (h' : History) env' ch' prf',
    sender env' = sender env ->
    let s2 := run h' s1 in
    exec env' (SubmitVote p ch' prf') s2 =
      (Failure (if timestamp env' <? startTime (poll_at s p)
                then VotingNotStarted p
                else if timestamp env' >? endTime (poll_at s p)
                then VotingFinished p
                else AlreadyVoted p (sender env)), s2) /\
    encryptedCounts (poll_at (step s2 (env', SubmitVote p ch' prf')) p) =
      encryptedCounts (poll_at s2 p).
Proof.
  intros s Hx h' env' ch' prf' Hsender s2.
  assert (Hwf : wf s) by apply wf_run, wf_init.
  destruct (exec_success env _ s _ s1 Hwf Hx) as [Htr Hwf1].
  inversion Htr as
    [ c0 s0 e Hx' | | p0 ch0 prf0 ct s0 s0' _ Herr Hext Hpc Hpv Hnew Hoth | | ];
    subst; [congruence|].
  apply submitVote_ok in Herr as (Hex & _).
  pose proof (wf_exists_range s p Hwf Hex) as Hp.
  pose proof (later_run h' s1 Hwf1) as Hl. fold s2 in Hl.
  assert (Hwf2 : wf s2) by (by apply wf_run).
  assert (Hex2 : poll_exists s2 p).
  { apply wf_exists; [done|]. pose proof (later_count _ _ Hl). lia. }
  assert (Hst : startTime (poll_at s2 p) = startTime (poll_at s p)).
  { rewrite (later_startTime _ _ Hl) by lia. by rewrite Hnew. }
  assert (Hen : endTime (poll_at s2 p) = endTime (poll_at s p)).
  { rewrite (later_endTime _ _ Hl) by lia. by rewrite Hnew. }
  assert (Hv : voted s2 p (sender env') = true).
  { apply (later_voted _ _ Hl). rewrite Hsender.
    rewrite (voted_insert s s1 p (sender env)) by done. by case_decide. }
  assert (Hres : exec env' (SubmitVote p ch' prf') s2 =
      (Failure (if timestamp env' <? startTime (poll_at s p)
                then VotingNotStarted p
                else if timestamp env' >? endTime (poll_at s p)
                then VotingFinished p
                else AlreadyVoted p (sender env)), s2)).
  { destruct (submitVote_guards env' p ch' prf' s2) as (G1 & G2 & G3).
    rewrite Hst, Hen, Hsender in *.
    destruct (timestamp env' <? startTime (poll_at s p)) eqn:E1.
    { apply Z.ltb_lt in E1. by apply G1. }
    apply Z.ltb_ge in E1.
    destruct (timestamp env' >? endTime (poll_at s p)) eqn:E2.
    { apply G2; [done|done|lia]. }
    apply G3; [done|lia|done]. }
  split; [done|]. unfold step. simpl. by rewrite Hres.
Qed.

(** *** Decoding the published results *)

Lemma byte_val_nonneg b : 0 <= byte_val b.
Proof. unfold byte_val. lia. Qed.

Lemma be_value_nonneg bs : 0 <= be_value bs.
Proof.
  unfold be_value.
  assert (H : forall acc, 0 <= acc ->
    0 <= fold_left (fun acc b => acc * 256 + byte_val b) bs acc).
  { induction bs as [|b bs IH]; intros acc Hacc; simpl; [done|].
    apply IH. pose proof (byte_val_nonneg b). lia. }
  by apply H.
Qed.

Lemma mload_in_range enc (k : nat) :
  (32 * k + 32 <= length enc)%nat ->
  mload enc (Z.of_nat (32 * k)) = be_value (take 32 (drop (32 * k) enc)).
Proof.
  intros Hk. unfold mload. rewrite Nat2Z.id.
  rewrite take_app_le; [done|]. rewrite length_drop. lia.
Qed.

(** The decoder of the source reads the words the specification describes. *)
Lemma decoded_words_be_words enc (n : nat) :
  len enc = Z.of_nat n * 32 ->
  Z.of_nat n * 32 <= MAX_UINT256 ->
  decoded_words enc (Z.of_nat n) = be_words n enc.
Proof.
  intros Hlen Hmax. unfold decoded_words, be_words, indices.
  rewrite Nat2Z.id, <- list_fmap_compose.
  apply Forall_fmap_ext_1, Forall_forall. intros k Hk%elem_of_seq. simpl.
  unfold len in Hlen.
  replace ((Z.of_nat k * 32) mod 2 ^ 256) with (Z.of_nat (32 * k)).
  - apply mload_in_range. lia.
  - rewrite Z.mod_small; [lia|]. unfold MAX_UINT256 in Hmax. lia.
Qed.

Lemma be_words_nonneg n enc : Forall (fun v => 0 <= v) (be_words n enc).
Proof.
  unfold be_words. apply Forall_fmap, Forall_forall. intros k _. simpl.
  apply be_value_nonneg.
Qed.

Lemma submitDecryptedResults_result env p enc prf s :
  exec env (SubmitDecryptedResults p enc prf) s =
  match submitDecryptedResults_error p enc prf s with
  | Some e => (Failure e, s)
  | None => (Success None, step s (env, SubmitDecryptedResults p enc prf))
  end.
Proof.
  pose proof (exec_submitDecryptedResults env p enc prf s) as H.
  destruct (submitDecryptedResults_error p enc prf s); [done|].
  destruct H as (s' & Hx & _). unfold step. simpl. by rewrite Hx.
Qed.

Lemma mod_small_words (ws : list Z) :
  Forall (fun v => 0 <= v) ws ->
  Forall (fun v => ~ exceeds_limit v) ws ->
  (fun v => v mod 2 ^ 32) <$> ws = ws.
Proof.
  intros H0 H1. rewrite <- (list_fmap_id ws) at 2.
  apply Forall_fmap_ext_1.
  rewrite Forall_forall in H0, H1. apply Forall_forall. intros v Hv.
  pose proof (H0 v Hv) as Hv0. pose proof (H1 v Hv) as Hv1. simpl. unfold exceeds_limit, MAX_UINT32 in Hv1.
  apply Z.mod_small. lia.
Qed.

(** C2. Once its guards and the proof check have passed,
    [submitDecryptedResults] fails with [InvalidResultsLength] exactly when
    the length of [encodedCounts] is not [options.length * 32]; otherwise it
    reads [encodedCounts] as one 32-byte big-endian unsigned integer per
    option, in option order, fails with [CountExceedsLimit] if one of them is
    above [2^32 - 1], and else stores them as [decryptedCounts], stores
    [encodedCounts] and the proof as they came, and sets [resultsSubmitted]. *)
Theorem submitDecryptedResults_decoding (h : History) env p enc prf :
  let s := run h init in
  let n := length (options (poll_at s p)) in
  poll_exists s p ->
  finalized (poll_at s p) = true ->
  resultsSubmitted (poll_at s p) = false ->
  checkSignatures (encryptedCounts (poll_at s p)) enc prf = true ->
  ((exec env (SubmitDecryptedResults p enc prf) s).1 =
     Failure (InvalidResultsLength p) <->
   len enc <> Z.of_nat n * 32) /\
  (len enc = Z.of_nat n * 32 ->
   Exists (fun v => v > MAX_UINT32) (be_words n enc) ->
   exists i v,
     be_words n enc !! i = Some v /\ v > MAX_UINT32 /\
     exec env (SubmitDecryptedResults p enc prf) s =
       (Failure (CountExceedsLimit p (Z.of_nat i)), s)) /\
  (len enc = Z.of_nat n * 32 ->
   Forall (fun v => v <= MAX_UINT32) (be_words n enc) ->
   exists s',
     exec env (SubmitDecryptedResults p enc prf) s = (Success None, s') /\
     decryptedCounts (poll_at s' p) = be_words n enc /\
     encodedClearResults (poll_at s' p) = enc /\
     decryptionProof (poll_at s' p) = prf /\
     resultsSubmitted (poll_at s' p) = true).
Proof.
  intros s n Hex Hfin Hres Hsig.
  assert (Hwf : wf s) by apply wf_run, wf_init.
  pose proof (proj1 (wf_exists s p Hwf) Hex) as Hp.
  pose proof (wf_options s Hwf p Hp) as Hopts.
  pose proof (wf_counters s Hwf p) as Hcnt. fold n in Hcnt.
  unfold len in Hopts. fold n in Hopts. unfold MIN_OPTIONS, MAX_OPTIONS in Hopts.
  apply poll_exists_len in Hex.
  assert (Hn : len (encryptedCounts (poll_at s p)) = Z.of_nat n)
    by (unfold len; by rewrite Hcnt).
  assert (Hmax : Z.of_nat n * 32 <= MAX_UINT256)
    by (unfold MAX_UINT256; lia).
  assert (Herr : submitDecryptedResults_error p enc prf s =
    if negb (len enc =? Z.of_nat n * 32) then Some (InvalidResultsLength p)
    else match list_find exceeds_limit (decoded_words enc (Z.of_nat n)) with
         | Some (i, _) => Some (CountExceedsLimit p (Z.of_nat i))
         | None => None
         end).
  { unfold submitDecryptedResults_error. simpl.
    rewrite Hex, Hfin, Hres, Hsig, Hn. simpl.
    destruct (Z.of_nat n * 32 >? MAX_UINT256) eqn:Emax; [lia|done]. }
  pose proof (exec_submitDecryptedResults env p enc prf s) as Hspec.
  rewrite submitDecryptedResults_result.
  rewrite Herr in Hspec |- *. rewrite Hn in Hspec.
  destruct (len enc =? Z.of_nat n * 32) eqn:Elen; simpl in Hspec |- *.
  2:{ apply Z.eqb_neq in Elen. split_and!; try done. }
  apply Z.eqb_eq in Elen.
  rewrite (decoded_words_be_words enc n Elen Hmax) in *.
  destruct (list_find exceeds_limit (be_words n enc)) as [[i v]|] eqn:Efind.
  - apply list_find_Some in Efind as (Hi & Hv & _).
    split_and!.
    + simpl. split; [done|]. intros H. done.
    + intros _ _. by exists i, v.
    + intros _ Hall. rewrite Forall_forall in Hall.
      apply list_elem_of_lookup_2, Hall in Hi. unfold exceeds_limit in Hv. lia.
  - apply list_find_None in Efind.
    split_and!.
    + simpl. split; [done|]. intros H. done.
    + intros _ Hsome. apply Exists_exists in Hsome as (v & Hv & Hgt).
      rewrite Forall_forall in Efind. by apply Efind in Hv.
    + intros _ _. destruct Hspec as (s' & Hx & [_ _ Hnew _]).
      unfold step. simpl. rewrite Hx. simpl. exists s'. split; [done|].
      rewrite Hnew. simpl.
      rewrite mod_small_words; [done|apply be_words_nonneg|done].
Qed.

(** *** Ballots *)

Lemma ballots_app h1 h2 s p :
  ballots (h1 ++ h2) s p = ballots h1 s p ++ ballots h2 (run h1 s) p.
Proof.
  revert s. induction h1 as [|ec h1 IH]; intros s; [done|].
  simpl. by rewrite IH, app_assoc.
Qed.

(** What a step does to the vote record and the counters of poll [p]. *)
Lemma ballot_step env c s p :
  wf s ->
  let s' := step s (env, c) in
  match ballot env c s p with
  | Some (v, ct) =>
      v = sender env /\ voted s p v = false /\ 0 <= p < pollCount s /\
      (forall w, voted s' p w = if decide (w = v) then true else voted s p w) /\
      encryptedCounts (poll_at s' p) =
        tally ct (length (encryptedCounts (poll_at s p)))
          (encryptedCounts (poll_at s p))
  | None =>
      (forall w, voted s' p w = voted s p w) /\
      (0 <= p < pollCount s ->
       encryptedCounts (poll_at s' p) = encryptedCounts (poll_at s p)) /\
      (~ 0 <= p < pollCount s ->
       Forall (fun c => c = euint32_zero) (encryptedCounts (poll_at s' p)))
  end.
Proof.
  intros Hwf. pose proof (step_transition env c s Hwf) as Htr.
  unfold ballot. simpl.
  generalize dependent (step s (env, c)). intros s' Htr.
  inversion Htr as
    [ c0 s0 e Hx
    | t d os st en s0 s0' Hx Herr Hpc Hpv Hnew Hoth
    | q ch prf ct s0 s0' Hx Herr Hext Hpc Hpv Hnew Hoth
    | q s0 s0' Hx Herr [Hpc Hpv Hnew Hoth]
    | q enc prf s0 s0' Hx Herr [Hpc Hpv Hnew Hoth] ]; subst.
  - match goal with |- match ?b with _ => _ end => assert (Hnone : b = None) end.
    { destruct c; try done. case_bool_decide; [|done]. by rewrite Hx. }
    rewrite Hnone. split_and!; try done.
    intros Hout. rewrite (wf_fresh _ Hwf p Hout). constructor.
  - split_and!.
    + intros w. by apply voted_same.
    + intros Hp. rewrite Hoth by lia. done.
    + intros Hout. destruct (decide (p = pollCount s)) as [->|Hne].
      * rewrite Hnew.
        destruct (push_options_fields os
          (set_header t d st en (sender env) (poll_at s (pollCount s))))
          as (_ & -> & _).
        rewrite (wf_fresh _ Hwf (pollCount s)) by lia. simpl.
        apply Forall_forall. intros x Hx'. by apply elem_of_replicate in Hx' as [-> _].
      * rewrite Hoth by done. rewrite (wf_fresh _ Hwf p Hout). constructor.
  - apply submitVote_ok in Herr as (Hex & _ & Hnv & _).
    pose proof (wf_exists_range _ q Hwf Hex) as Hq.
    case_bool_decide as Hqp.
    + subst q. rewrite Hx, Hext. simpl. split_and!; try done; try lia.
      * intros w. rewrite (voted_insert _ _ _ _ p w Hpv).
        destruct (decide (w = sender env)) as [->|Hne]; [by case_decide|].
        case_decide as Hd; [congruence|done].
      * rewrite Hnew. simpl. by rewrite (wf_counters _ Hwf p).
    + split_and!.
      * intros w. rewrite (voted_insert _ _ _ _ p w Hpv).
        case_decide as Hd; [congruence|done].
      * intros _. by rewrite Hoth.
      * intros Hout. rewrite Hoth by done.
        rewrite (wf_fresh _ Hwf p Hout). constructor.
  - split_and!.
    + intros w. by apply voted_same.
    + intros _. destruct (decide (p = q)) as [->|Hne].
      * by rewrite Hnew.
      * by rewrite Hoth.
    + intros Hout. apply finalizePoll_ok in Herr as (Hex & _).
      pose proof (wf_exists_range _ q Hwf Hex) as Hq.
      rewrite Hoth by (intros ->; lia).
      rewrite (wf_fresh _ Hwf p Hout). constructor.
  - split_and!.
    + intros w. by apply voted_same.
    + intros _. destruct (decide (p = q)) as [->|Hne].
      * by rewrite Hnew.
      * by rewrite Hoth.
    + intros Hout. apply submitDecryptedResults_ok in Herr as (Hex & _).
      pose proof (wf_exists_range _ q Hwf Hex) as Hq.
      rewrite Hoth by (intros ->; lia).
      rewrite (wf_fresh _ Hwf p Hout). constructor.
Qed.

End Theory.

(** ** The tallies count the ballots *)

Section Tally.
Context {F : FHE} {L : FHELaws F}.

Lemma clear_increment ct i :
  0 <= i <= MAX_UINT32 ->
  clear (increment ct i) = if decide (clear ct = i) then 1 else 0.
Proof.
  intros Hi. unfold increment.
  rewrite clear_select, clear_eq.
  rewrite Z.mod_small by (unfold MAX_UINT32 in Hi; lia).
  rewrite !clear_asEuint32 by (unfold MAX_UINT32 in *; lia).
  case_decide as Hd.
  - by rewrite (proj2 (Z.eqb_eq _ _) Hd).
  - by rewrite (proj2 (Z.eqb_neq _ _) Hd).
Qed.

Lemma votes_for_snoc i bs b :
  votes_for i (bs ++ [b]) =
  (votes_for i bs + if decide (clear b.2 = i) then 1 else 0)%nat.
Proof.
  unfold votes_for. rewrite filter_app, length_app. f_equal.
  rewrite filter_cons, filter_nil. by case_decide.
Qed.

Lemma ballots_snoc h env c p :
  ballots (h ++ [(env, c)]) init p =
  ballots h init p ++ option_list (ballot env c (run h init) p).
Proof. rewrite ballots_app. simpl. by rewrite app_nil_r. Qed.

(** The ballots of a history are the vote record, one per voter, and the
    counters count them. *)
Lemma ballots_invariant (h : History) p :
  let s := run h init in
  let bs := ballots h init p in
  (forall v, v ∈ bs.*1 <-> voted s p v = true) /\
  NoDup bs.*1 /\
  counted bs (encryptedCounts (poll_at s p)).
Proof.
  induction h as [|[env c] h IH] using rev_ind.
  - simpl. split_and!.
    + intros v. rewrite voted_init. split; [by intros ?%elem_of_nil|done].
    + constructor.
    + intros i c. by rewrite poll_at_init.
  - simpl in IH. destruct IH as (Hv & Hnd & Hcnt).
    rewrite run_snoc, ballots_snoc.
    assert (Hwf : wf (run h init)) by apply wf_run, wf_init.
    pose proof (ballot_step env c (run h init) p Hwf) as Hstep.
    simpl in Hstep.
    destruct (ballot env c (run h init) p) as [[v ct]|]; simpl.
    + destruct Hstep as (-> & Hnv & Hp & Hv' & Hcs).
      split_and!.
      * intros w. rewrite fmap_app, elem_of_app, Hv'. simpl.
        rewrite list_elem_of_singleton, Hv.
        case_decide; [tauto|]. tauto.
      * rewrite fmap_app. simpl. apply NoDup_app. split_and!; [done| |].
        -- intros w Hw ->%list_elem_of_singleton.
           apply Hv in Hw. congruence.
        -- apply NoDup_singleton.
      * intros i c'. rewrite Hcs, tally_lookup.
        case_decide as Hi.
        2:{ intros Hsome%lookup_lt_Some. lia. }
        destruct (encryptedCounts (poll_at (run h init) p) !! i) as [c0|] eqn:E;
          [|done].
        simpl. intros [= <-].
        assert (Hi4 : 0 <= Z.of_nat i <= MAX_UINT32).
        { pose proof (wf_options _ Hwf p Hp) as Ho.
          rewrite (wf_counters _ Hwf p) in Hi.
          unfold len, MAX_OPTIONS, MAX_UINT32 in *. lia. }
        rewrite clear_add, (Hcnt i c0 E), clear_increment by done.
        rewrite votes_for_snoc. simpl.
        rewrite Zplus_mod_idemp_l. f_equal.
        case_decide; lia.
    + destruct Hstep as (Hv' & Hin & Hout). rewrite app_nil_r.
      split_and!.
      * intros w. by rewrite Hv', Hv.
      * done.
      * destruct (decide (0 <= p < pollCount (run h init))) as [Hp|Hp].
        -- by rewrite Hin.
        -- assert (Hbs : ballots h init p = []).
           { destruct (ballots h init p) as [|[v ct] bs] eqn:E; [done|].
             exfalso. apply Hp. apply (wf_votes _ Hwf p v).
             apply Hv. simpl. left. }
           rewrite Hbs. intros i c' Hc'.
           specialize (Hout Hp). rewrite Forall_forall in Hout.
           apply list_elem_of_lookup_2 in Hc'. rewrite (Hout c' Hc').
           rewrite clear_zero. done.
Qed.

(** Once a poll is finalized, and as long as time does not go backwards, no
    ballot is cast for it. *)
Lemma ballots_closed (h : History) : forall t s p,
  wf s -> closed t s -> finalized (poll_at s p) = true ->
  chrono_from t h -> ballots h s p = [].
Proof.
  induction h as [|[env c] h IH]; intros t s p Hwf Hcl Hfin Hch; [done|].
  destruct Hch as [Ht Hch]. simpl ballots.
  assert (Hnone : ballot env c s p = None).
  { unfold ballot. destruct c as [|q ch prf| |]; try done.
    case_bool_decide as Hq; [subst q|done].
    pose proof (wf_flag_range s p Hwf (or_introl Hfin)) as Hp.
    apply (wf_exists s p Hwf) in Hp.
    pose proof (Hcl p Hfin) as Hend.
    destruct (submitVote_guards env p ch prf s) as (G1 & G2 & _).
    destruct (decide (timestamp env < startTime (poll_at s p))) as [Hlt|Hge].
    - by rewrite (G1 Hp Hlt).
    - rewrite G2; [done|done|lia|lia]. }
  rewrite Hnone. simpl.
  apply (IH (timestamp env)); [by apply wf_step| | |done].
  - eapply closed_transition; [done| |by apply step_transition].
    by eapply closed_mono.
  - by apply (later_finalized _ _ (later_step s (env, c) Hwf)).
Qed.

Lemma votes_for_le i bs : (votes_for i bs <= length bs)%nat.
Proof. unfold votes_for. apply length_filter. Qed.

Lemma valid_ballots_S (n : nat) bs :
  length (valid_ballots (Z.of_nat (S n)) bs) =
  (length (valid_ballots (Z.of_nat n) bs) + votes_for (Z.of_nat n) bs)%nat.
Proof.
  unfold valid_ballots, votes_for.
  induction bs as [|b bs IH]; [done|].
  rewrite !filter_cons.
  repeat case_decide; simpl; rewrite IH; lia.
Qed.

Lemma valid_ballots_0 bs : valid_ballots 0 bs = [].
Proof.
  unfold valid_ballots. induction bs as [|b bs IH]; [done|].
  rewrite filter_cons. case_decide as Hd; [|done].
  pose proof (clear_range b.2). lia.
Qed.

Lemma sum_votes_for (n : nat) bs :
  sumZ ((fun i => Z.of_nat (votes_for (Z.of_nat i) bs)) <$> seq 0 n) =
  Z.of_nat (length (valid_ballots (Z.of_nat n) bs)).
Proof.
  induction n as [|n IH].
  - simpl. by rewrite valid_ballots_0.
  - rewrite seq_S, fmap_app, valid_ballots_S. simpl.
    unfold sumZ in *. rewrite foldr_app. simpl.
    rewrite Z.add_0_r.
    assert (Hfold : forall (l : list Z) a, foldr Z.add a l = foldr Z.add 0 l + a).
    { induction l as [|x l IHl]; intros a; simpl; [lia|]. rewrite IHl. lia. }
    rewrite Hfold, IH. lia.
Qed.

(** Counters that count the ballots add up to the number of valid ballots,
    as long as there are fewer than [2^32] ballots. *)
Lemma counted_sum bs cs :
  counted bs cs ->
  Z.of_nat (length bs) < 2 ^ 32 ->
  sumZ (clear <$> cs) =
  Z.of_nat (length (valid_ballots (Z.of_nat (length cs)) bs)).
Proof.
  intros Hcnt Hlen. rewrite <- sum_votes_for. f_equal.
  apply list_eq. intros i. rewrite !list_lookup_fmap.
  destruct (cs !! i) as [c|] eqn:E; simpl.
  - rewrite lookup_seq_lt by (by eapply lookup_lt_Some). simpl. f_equal.
    rewrite (Hcnt i c E). apply Z.mod_small.
    pose proof (votes_for_le (Z.of_nat i) bs). lia.
  - apply lookup_ge_None in E.
    rewrite (proj2 (lookup_ge_None _ _)); [done|]. by rewrite length_seq.
Qed.

Lemma valid_ballots_voters n bs :
  NoDup bs.*1 ->
  size (voters (valid_ballots n bs)) = length (valid_ballots n bs) /\
  (size (voters (valid_ballots n bs)) <= size (voters bs))%nat.
Proof.
  intros Hnd. unfold voters.
  assert (Hsub : (valid_ballots n bs).*1 `sublist_of` bs.*1).
  { apply fmap_sublist. apply sublist_filter. }
  pose proof (sublist_NoDup _ _ Hnd Hsub) as Hnd'.
  rewrite !size_list_to_set by done. rewrite !length_fmap.
  split; [done|]. apply length_filter.
Qed.

(** C3, as the code has it. For a poll that was finalized and then had a
    correct decryption published, the stored [decryptedCounts] add up to the
    number of distinct voters whose [submitVote] succeeded with a choice that
    is one of the poll's options; a ballot whose encrypted choice is no
    option index is accepted and recorded, and counts for no option.  So the
    sum is at most the number of distinct voters who voted.  (The counters
    are [euint32]: fewer than [2^32] voters.) *)
Theorem tallies_count_valid_ballots (h1 h2 : History) env p enc prf :
  let h := h1 ++ (env, SubmitDecryptedResults p enc prf) :: h2 in
  let s1 := run h1 init in
  let s := run h init in
  let bs := ballots h init p in
  let n := length (options (poll_at s p)) in
  chrono h ->
  (exec env (SubmitDecryptedResults p enc prf) s1).1 = Success None ->
  be_words (length (options (poll_at s1 p))) enc =
    clear <$> encryptedCounts (poll_at s1 p) ->
  Z.of_nat (size (voters bs)) < 2 ^ 32 ->
  sumZ (decryptedCounts (poll_at s p)) =
    Z.of_nat (size (voters (valid_ballots (Z.of_nat n) bs))) /\
  sumZ (decryptedCounts (poll_at s p)) <= Z.of_nat (size (voters bs)) /\
  (forall v, v ∈ voters bs <-> voted s p v = true).
Proof.
  intros h s1 s bs n Hch Hx Hcorrect Hsmall.
  assert (Hwf1 : wf s1) by apply wf_run, wf_init.
  (* time *)
  apply chrono_chrono_from in Hch as [t0 Hch].
  apply chrono_from_app in Hch as [Hch1 Hch2].
  pose proof (closed_run h1 t0 init wf_init (closed_init t0) Hch1) as Hcl1.
  fold s1 in Hcl1.
  (* the publishing call *)
  destruct (exec env (SubmitDecryptedResults p enc prf) s1) as [r s1'] eqn:Ex.
  simpl in Hx. subst r.
  destruct (exec_success env _ s1 _ s1' Hwf1 Ex) as [Htr Hwf1'].
  inversion Htr as [ c0 s0 e Hx' | | | | p0 enc0 prf0 s0 s0' _ Herr [Hpc Hpv Hnew Hoth] ];
    subst; [congruence|].
  pose proof Herr as Hok.
  apply submitDecryptedResults_ok in Hok as (Hex & Hfin & _ & _ & Hlen & Hfind).
  pose proof (wf_exists_range s1 p Hwf1 Hex) as Hp.
  pose proof (wf_counters s1 Hwf1 p) as Hcnt.
  pose proof (wf_options s1 Hwf1 p Hp) as Hopt.
  (* the ballots are those cast before the poll was finalized *)
  assert (Hbs : bs = ballots h1 init p).
  { subst bs h. rewrite ballots_app. fold s1.
    rewrite (ballots_closed _ (end_time t0 h1) s1 p Hwf1 Hcl1 Hfin Hch2).
    by rewrite app_nil_r. }
  destruct (ballots_invariant h1 p) as (Hvoted & Hnd & Hcounted).
  fold s1 in Hvoted, Hcounted. rewrite <- Hbs in Hvoted, Hnd, Hcounted.
  (* the state after the rest of the history *)
  assert (Hs : s = run h2 s1').
  { subst s h. rewrite run_app, run_cons. fold s1. unfold step. simpl.
    by rewrite Ex. }
  pose proof (later_run h2 s1' Hwf1') as Hl. rewrite <- Hs in Hl.
  assert (Hres' : resultsSubmitted (poll_at s1' p) = true) by (by rewrite Hnew).
  destruct (later_results _ _ Hl p Hres') as (_ & Hdec & _).
  assert (Hn : n = length (encryptedCounts (poll_at s1 p))).
  { subst n. rewrite (later_options _ _ Hl) by lia. rewrite Hnew. simpl.
    by rewrite Hcnt. }
  (* the stored counts are the plaintexts of the counters *)
  assert (Hstored : decryptedCounts (poll_at s p) =
                    clear <$> encryptedCounts (poll_at s1 p)).
  { rewrite Hdec, Hnew. simpl.
    assert (Hmax : Z.of_nat (length (encryptedCounts (poll_at s1 p))) * 32
                   <= MAX_UINT256).
    { rewrite Hcnt. unfold len, MAX_OPTIONS, MAX_UINT256 in *. lia. }
    unfold len in Hlen, Hfind |- *.
    rewrite (decoded_words_be_words enc _ Hlen Hmax) in Hfind |- *.
    apply list_find_None in Hfind.
    rewrite mod_small_words; [|apply be_words_nonneg|done].
    by rewrite Hcnt. }
  rewrite Hstored.
  assert (Hsize : size (voters bs) = length bs).
  { unfold voters. rewrite size_list_to_set by done. by rewrite length_fmap. }
  rewrite Hsize in Hsmall |- *.
  rewrite (counted_sum bs _ Hcounted Hsmall), <- Hn.
  destruct (valid_ballots_voters (Z.of_nat n) bs Hnd) as [Heq Hle].
  rewrite Heq. split_and!.
  - done.
  - apply inj_le. unfold valid_ballots. apply length_filter.
  - intros v. unfold voters. rewrite elem_of_list_to_set, Hvoted.
    split.
    + intros Hv. apply (later_voted _ _ Hl).
      rewrite (voted_same s1 s1') by done. done.
    + intros Hv. destruct (voted s1 p v) eqn:E; [done|]. exfalso.
      (* a vote recorded after the poll was finalized would be a ballot *)
      destruct (ballots_invariant h p) as (Hvoted' & _ & _).
      fold s in Hvoted'. fold bs in Hvoted'.
      apply Hvoted' in Hv. apply Hvoted in Hv. congruence.
Qed.

End Tally.

(** ** Further properties of the contract *)

Section Coverage.
Context {F : FHE}.

(** *** Helpers *)

Lemma push_options_audit os p :
  encodedClearResults (push_options os p) = encodedClearResults p /\
  decryptionProof (push_options os p) = decryptionProof p.
Proof.
  revert p. induction os as [|o os IH]; intros p; [done|].
  change (push_options (o :: os) p) with (push_options os (push_option o p)).
  destruct (IH (push_option o p)) as [-> ->]. done.
Qed.

(** What a transition leaves of a poll that exists. *)
Lemma static_transition env c s s' q :
  wf s -> transition env c s s' -> 0 <= q < pollCount s ->
  title (poll_at s' q) = title (poll_at s q) /\
  description (poll_at s' q) = description (poll_at s q) /\
  creator (poll_at s' q) = creator (poll_at s q).
Proof.
  intros Hwf Htr Hq.
  inversion Htr as
    [ c0 s0 e _
    | t d os st en s0 s0' _ Herr Hpc Hpv Hnew Hoth
    | p ch prf ct s0 s0' _ Herr Hext Hpc Hpv Hnew Hoth
    | p s0 s0' _ Herr [Hpc Hpv Hnew Hoth]
    | p enc prf s0 s0' _ Herr [Hpc Hpv Hnew Hoth] ]; subst.
  - done.
  - by rewrite Hoth by lia.
  - destruct (decide (q = p)) as [->|Hne]; [by rewrite Hnew|by rewrite Hoth].
  - destruct (decide (q = p)) as [->|Hne]; [by rewrite Hnew|by rewrite Hoth].
  - destruct (decide (q = p)) as [->|Hne]; [by rewrite Hnew|by rewrite Hoth].
Qed.

Lemma static_run h : forall s q,
  wf s -> 0 <= q < pollCount s ->
  title (poll_at (run h s) q) = title (poll_at s q) /\
  description (poll_at (run h s) q) = description (poll_at s q) /\
  creator (poll_at (run h s) q) = creator (poll_at s q).
Proof.
  induction h as [|[env c] h IH]; intros s q Hwf Hq; [done|].
  rewrite run_cons.
  pose proof (step_transition env c s Hwf) as Htr.
  pose proof (later_count _ _ (later_transition _ _ _ _ Hwf Htr)) as Hc.
  destruct (IH (step s (env, c)) q) as (-> & -> & ->);
    [by apply wf_step|lia|].
  by apply (static_transition env c).
Qed.

Lemma audit_ok_empty : audit_ok empty_poll.
Proof. by unfold audit_ok. Qed.

Lemma audit_transition env c s s' :
  wf s -> (forall q, audit_ok (poll_at s q)) -> transition env c s s' ->
  forall q, audit_ok (poll_at s' q).
Proof.
  intros Hwf Hok Htr q.
  inversion Htr as
    [ c0 s0 e _
    | t d os st en s0 s0' _ Herr Hpc Hpv Hnew Hoth
    | p ch prf ct s0 s0' _ Herr Hext Hpc Hpv Hnew Hoth
    | p s0 s0' _ Herr [Hpc Hpv Hnew Hoth]
    | p enc prf s0 s0' _ Herr [Hpc Hpv Hnew Hoth] ]; subst.
  - done.
  - destruct (decide (q = pollCount s)) as [->|Hne]; [|by rewrite Hoth].
    rewrite Hnew. rewrite (wf_fresh s Hwf (pollCount s)) by lia.
    unfold audit_ok.
    destruct (push_options_fields os
      (set_header t d st en (sender env) empty_poll))
      as (_ & _ & _ & _ & _ & _ & _ & -> & _ & ->).
    destruct (push_options_audit os
      (set_header t d st en (sender env) empty_poll)) as [-> ->].
    done.
  - destruct (decide (q = p)) as [->|Hne]; [|by rewrite Hoth].
    rewrite Hnew. apply (Hok p).
  - destruct (decide (q = p)) as [->|Hne]; [|by rewrite Hoth].
    rewrite Hnew. specialize (Hok p). unfold audit_ok in *. simpl.
    destruct (resultsSubmitted (poll_at s p)); [|done].
    destruct Hok as (_ & ? & ? & ?). done.
  - destruct (decide (q = p)) as [->|Hne]; [|by rewrite Hoth].
    rewrite Hnew. unfold audit_ok. simpl.
    apply submitDecryptedResults_ok in Herr
      as (_ & Hfin & _ & _ & Hlen & Hfind).
    pose proof (wf_counters s Hwf p) as Hcnt.
    assert (Hn : len (encryptedCounts (poll_at s p)) =
                 Z.of_nat (length (options (poll_at s p))))
      by (unfold len; by rewrite Hcnt).
    rewrite Hn in Hlen, Hfind |- *.
    assert (Hmax : Z.of_nat (length (options (poll_at s p))) * 32
                   <= MAX_UINT256).
    { destruct (decide (0 <= p < pollCount s)) as [Hp|Hp].
      - pose proof (wf_options s Hwf p Hp).
        unfold len, MAX_OPTIONS, MAX_UINT256 in *. lia.
      - rewrite (wf_fresh s Hwf p Hp). unfold MAX_UINT256. simpl. lia. }
    rewrite (decoded_words_be_words enc _ Hlen Hmax) in Hfind |- *.
    apply list_find_None in Hfind.
    rewrite mod_small_words; [|apply be_words_nonneg|done].
    split_and!; try done.
    pose proof (be_words_nonneg (length (options (poll_at s p))) enc) as H0.
    rewrite Forall_forall in H0, Hfind |- *. intros v Hv.
    specialize (H0 v Hv). specialize (Hfind v Hv).
    unfold exceeds_limit in Hfind. lia.
Qed.

Lemma audit_run h : forall s,
  wf s -> (forall q, audit_ok (poll_at s q)) ->
  forall q, audit_ok (poll_at (run h s) q).
Proof.
  induction h as [|[env c] h IH]; intros s Hwf Hok; [done|].
  rewrite run_cons. apply IH; [by apply wf_step|].
  eapply audit_transition; [done|done|by apply step_transition].
Qed.

Lemma audit_reachable h q : audit_ok (poll_at (run h init) q).
Proof.
  apply audit_run; [apply wf_init|]. intros q'. rewrite poll_at_init.
  apply audit_ok_empty.
Qed.

Lemma getEncryptedResults_result p s :
  transact (getEncryptedResults p) s =
  if len (options (poll_at s p)) =? 0
  then (Failure (PollNotFound p), s)
  else (Success (encryptedCounts (poll_at s p)), s).
Proof.
  unfold transact, getEncryptedResults, _ensurePollExists.
  unfold mbind, M_bind, bind, revert_if, get.
  destruct (len (options (poll_at s p)) =? 0); [done|].
  simpl. by rewrite collect_index_all.
Qed.

Lemma getDecryptedResults_result p s :
  transact (getDecryptedResults p) s =
  if len (options (poll_at s p)) =? 0
  then (Failure (PollNotFound p), s)
  else if resultsSubmitted (poll_at s p)
  then (Success (decryptedCounts (poll_at s p)), s)
  else (Failure (RequireFailed RESULTS_NOT_AVAILABLE), s).
Proof.
  unfold transact, getDecryptedResults, _ensurePollExists, require.
  unfold mbind, M_bind, bind, revert_if, get.
  destruct (len (options (poll_at s p)) =? 0); [done|].
  simpl. destruct (resultsSubmitted (poll_at s p)); [|done].
  simpl. by rewrite collect_index_all.
Qed.

Lemma getResultVerification_result p s :
  transact (getResultVerification p) s =
  if len (options (poll_at s p)) =? 0
  then (Failure (PollNotFound p), s)
  else if resultsSubmitted (poll_at s p)
  then (Success (encodedClearResults (poll_at s p),
                 decryptionProof (poll_at s p)), s)
  else (Failure (RequireFailed RESULTS_NOT_AVAILABLE), s).
Proof.
  unfold transact, getResultVerification, _ensurePollExists, require.
  unfold mbind, M_bind, bind, revert_if, get.
  destruct (len (options (poll_at s p)) =? 0); [done|].
  simpl. by destruct (resultsSubmitted (poll_at s p)).
Qed.

Lemma created_ids_from h : forall s,
  wf s ->
  created_ids h s =
  (fun k => pollCount s + Z.of_nat k) <$>
    seq 0 (Z.to_nat (pollCount (run h s) - pollCount s)).
Proof.
  induction h as [|[env c] h IH]; intros s Hwf.
  - simpl. by rewrite Z.sub_diag.
  - rewrite run_cons. simpl created_ids.
    rewrite IH by (by apply wf_step).
    pose proof (later_count _ _ (later_run h _ (wf_step s (env, c) Hwf))) as Hle.
    destruct (created_step env c s Hwf) as [[-> Hpc]|[-> Hpc]]; simpl.
    + rewrite Hpc in Hle |- *.
      replace (Z.to_nat (pollCount (run h (step s (env, c))) - pollCount s))
        with (S (Z.to_nat (pollCount (run h (step s (env, c)))
                           - (pollCount s + 1)))) by lia.
      simpl. rewrite Z.add_0_r. f_equal.
      rewrite <- fmap_S_seq, <- list_fmap_compose.
      apply list_fmap_ext. intros _ k _. simpl. lia.
    + by rewrite Hpc.
Qed.

(** The counters of a finalized poll stay as they are, as long as time does
    not go backwards. *)
Lemma counters_closed (h : History) : forall t s p,
  wf s -> closed t s -> finalized (poll_at s p) = true ->
  chrono_from t h ->
  encryptedCounts (poll_at (run h s) p) = encryptedCounts (poll_at s p).
Proof.
  induction h as [|[env c] h IH]; intros t s p Hwf Hcl Hfin Hch; [done|].
  pose proof (ballots_closed ((env, c) :: h) t s p Hwf Hcl Hfin Hch) as Hb.
  simpl in Hb. apply app_eq_nil in Hb as [Hb _].
  destruct Hch as [Ht Hch]. rewrite run_cons.
  pose proof (ballot_step env c s p Hwf) as Hstep. simpl in Hstep.
  destruct (ballot env c s p) as [[v ct]|]; [done|].
  destruct Hstep as (_ & Hin & _).
  rewrite <- Hin by (apply wf_flag_range; auto).
  apply (IH (timestamp env)); [by apply wf_step| | |done].
  - eapply closed_transition; [done| |by apply step_transition].
    by eapply closed_mono.
  - by apply (later_finalized _ _ (later_step s (env, c) Hwf)).
Qed.

(** *** The further properties *)

(** X1. A poll just created reads back as it was given: [getPoll] on the
    returned id gives the title, description, options and schedule of the
    call, both flags false and the caller as creator; the id is the poll
    count before the call, which the call increments; before the call
    [getPoll] on that id failed with [PollNotFound]. *)
Theorem created_poll_reads_back (h : History) env t d os st en id :
  let s := run h init in
  let s' := step s (env, CreatePoll t d os st en) in
  (exec env (CreatePoll t d os st en) s).1 = Success (Some id) ->
  id = pollCount s /\
  pollCount s' = id + 1 /\
  transact (getPoll id) s' =
    (Success (mkPollView t d os st en false false (sender env)), s') /\
  (transact (getPoll id) s).1 = Failure (PollNotFound id).
Proof.
  intros s s' Hx.
  assert (Hwf : wf s) by apply wf_run, wf_init.
  pose proof (exec_createPoll env t d os st en s) as H.
  rewrite createPoll_result in Hx.
  destruct (createPoll_error env t os st en s) eqn:Herr; [done|].
  simpl in Hx. injection Hx as <-.
  destruct H as (s1 & Hx1 & Hpc & Hpv & Hnew & Hoth).
  assert (s' = s1) as -> by (subst s'; unfold step; simpl; by rewrite Hx1).
  apply createPoll_ok in Herr as (_ & Hn & _).
  rewrite (wf_fresh s Hwf (pollCount s)) in Hnew by lia.
  destruct (push_options_fields os
    (set_header t d st en (sender env) empty_poll))
    as (Ho & _ & Ht & Hd & Hst & Hen & Hf & Hr & Hc & _).
  rewrite <- Hnew in Ho, Ht, Hd, Hst, Hen, Hf, Hr, Hc. simpl in *.
  split_and!; [done|done| |].
  - rewrite getPoll_result, Ho, Ht, Hd, Hst, Hen, Hf, Hr, Hc.
    destruct (len os =? 0) eqn:E; [|done].
    apply Z.eqb_eq in E. unfold MIN_OPTIONS in Hn. lia.
  - rewrite getPoll_result, (wf_fresh s Hwf (pollCount s)) by lia. done.
Qed.

(** X2. What [getPoll] returns of a poll never changes except for its two
    flags, and those only go from false to true: title, description, options,
    start and end time and creator are the same in every later state. *)
Theorem poll_metadata_is_immutable (h h' : History) p v :
  (transact (getPoll p) (run h init)).1 = Success v ->
  exists v',
    (transact (getPoll p) (run (h ++ h') init)).1 = Success v' /\
    view_title v' = view_title v /\
    view_description v' = view_description v /\
    view_options v' = view_options v /\
    view_startTime v' = view_startTime v /\
    view_endTime v' = view_endTime v /\
    view_creator v' = view_creator v /\
    (view_finalized v = true -> view_finalized v' = true) /\
    (view_resultsSubmitted v = true -> view_resultsSubmitted v' = true).
Proof.
  rewrite run_app. set (s := run h init).
  assert (Hwf : wf s) by apply wf_run, wf_init.
  rewrite !getPoll_result.
  destruct (len (options (poll_at s p)) =? 0) eqn:Hex; [done|].
  simpl. intros [= <-].
  pose proof (wf_exists_range s p Hwf Hex) as Hp.
  pose proof (later_run h' s Hwf) as Hl.
  destruct (static_run h' s p Hwf Hp) as (Ht & Hd & Hc).
  rewrite (later_options _ _ Hl) by done. rewrite Hex.
  eexists. split; [reflexivity|]. simpl.
  rewrite (later_startTime _ _ Hl), (later_endTime _ _ Hl) by done.
  split_and!; try done.
  - apply (later_finalized _ _ Hl).
  - intros Hr. by destruct (later_results _ _ Hl p Hr).
Qed.

(** X3. Poll ids are handed out in sequence from 0: the ids returned by the
    successful [createPoll] calls of a history are 0, 1, 2, ... in call
    order, and [pollCount] is how many there are. *)
Theorem poll_ids_are_sequential (h : History) :
  created_ids h init =
    Z.of_nat <$> seq 0 (Z.to_nat (pollCount (run h init))) /\
  pollCount (run h init) = len (created_ids h init).
Proof.
  pose proof (created_ids_from h init wf_init) as H. simpl in H.
  rewrite Z.sub_0_r in H.
  assert (H' : created_ids h init =
               Z.of_nat <$> seq 0 (Z.to_nat (pollCount (run h init)))).
  { rewrite H. apply list_fmap_ext. intros _ k _. lia. }
  split; [done|].
  rewrite H'. unfold len. rewrite length_fmap, length_seq.
  pose proof (wf_count _ (wf_run h init wf_init)). lia.
Qed.

(** X4. The two result readers agree and are available exactly after
    publication: on an unknown id both fail with [PollNotFound]; on a poll
    whose results are not published both fail with the requirement
    [RESULTS_NOT_AVAILABLE]; on a published poll [getResultVerification]
    returns the stored bytes and proof and [getDecryptedResults] returns the
    decoding of those very bytes, one count of at most [2^32 - 1] per option.
    Neither changes the storage. *)
Theorem result_readers_agree (h : History) p :
  let s := run h init in
  let n := length (options (poll_at s p)) in
  (~ poll_exists s p ->
   transact (getDecryptedResults p) s = (Failure (PollNotFound p), s) /\
   transact (getResultVerification p) s = (Failure (PollNotFound p), s)) /\
  (poll_exists s p -> resultsSubmitted (poll_at s p) = false ->
   transact (getDecryptedResults p) s =
     (Failure (RequireFailed RESULTS_NOT_AVAILABLE), s) /\
   transact (getResultVerification p) s =
     (Failure (RequireFailed RESULTS_NOT_AVAILABLE), s)) /\
  (poll_exists s p -> resultsSubmitted (poll_at s p) = true ->
   exists enc prf,
     transact (getResultVerification p) s = (Success (enc, prf), s) /\
     transact (getDecryptedResults p) s = (Success (be_words n enc), s) /\
     len enc = Z.of_nat n * 32 /\
     length (be_words n enc) = n /\
     Forall (fun v => 0 <= v <= MAX_UINT32) (be_words n enc)).
Proof.
  intros s n.
  rewrite getDecryptedResults_result, getResultVerification_result.
  rewrite poll_exists_len.
  pose proof (audit_reachable h p) as Hok. fold s in Hok.
  unfold audit_ok in Hok.
  destruct (len (options (poll_at s p)) =? 0); [by split_and!|].
  split_and!; [done| |].
  - by intros _ ->.
  - intros _ Hr. rewrite Hr in Hok |- *.
    destruct Hok as (_ & Hlen & Hdec & Hall). fold n in Hdec.
    exists (encodedClearResults (poll_at s p)), (decryptionProof (poll_at s p)).
    rewrite <- Hdec. split_and!; try done.
    rewrite Hdec. unfold be_words. by rewrite length_fmap, length_seq.
Qed.

(** X5. Publication is terminal and reads back: once
    [submitDecryptedResults(pollId, encodedCounts, proof)] has succeeded,
    then in every later state, whatever calls follow,
    [getResultVerification] returns exactly [encodedCounts] and [proof], and
    [getDecryptedResults] returns the decoding of [encodedCounts]. *)
Theorem published_results_read_back (h h' : History) env p enc prf :
  let s := run h init in
  let s2 := run h' (step s (env, SubmitDecryptedResults p enc prf)) in
  (exec env (SubmitDecryptedResults p enc prf) s).1 = Success None ->
  transact (getResultVerification p) s2 = (Success (enc, prf), s2) /\
  transact (getDecryptedResults p) s2 =
    (Success (be_words (length (options (poll_at s p))) enc), s2).
Proof.
  intros s s2 Hx.
  assert (Hwf : wf s) by apply wf_run, wf_init.
  apply exec_pair in Hx.
  destruct (exec_success env _ s _ _ Hwf Hx) as [Htr Hwf1].
  set (s1 := step s (env, SubmitDecryptedResults p enc prf)) in *.
  inversion Htr as [ c0 s0 e Hx' | | | | p0 enc0 prf0 s0 s0' _ Herr [Hpc Hpv Hnew Hoth] ];
    subst; [congruence|].
  apply submitDecryptedResults_ok in Herr as (Hex & _).
  pose proof (wf_exists_range s p Hwf Hex) as Hp.
  pose proof (later_run h' s1 Hwf1) as Hl. fold s2 in Hl.
  assert (Hr1 : resultsSubmitted (poll_at s1 p) = true) by (by rewrite Hnew).
  destruct (later_results _ _ Hl p Hr1) as (Hr2 & Hdec & Henc & Hprf).
  assert (Hopt : options (poll_at s2 p) = options (poll_at s p)).
  { rewrite (later_options _ _ Hl) by lia. by rewrite Hnew. }
  pose proof (audit_reachable
    (h ++ (env, SubmitDecryptedResults p enc prf) :: h') p) as Hok.
  rewrite run_app, run_cons in Hok. fold s s1 s2 in Hok.
  unfold audit_ok in Hok. rewrite Hr2 in Hok.
  destruct Hok as (_ & _ & Hbe & _).
  rewrite getResultVerification_result, getDecryptedResults_result.
  rewrite Hopt, Hex, Hr2, Henc, Hprf, Hbe, Hopt, Henc, Hnew. done.
Qed.

(** X6. [submitDecryptedResults] checks, in this order, that the poll exists
    ([PollNotFound]), that it is finalized ([PollNotFinalized]) and that no
    results are stored yet ([ResultsAlreadySubmitted]), before it asks the
    FHE library to check the proof; and it is single-shot: after one call
    has succeeded every later call for that poll fails with
    [ResultsAlreadySubmitted] and changes nothing, whatever it submits. *)
Theorem submitDecryptedResults_single_shot (h : History) env p enc prf :
  let s := run h init in
  (~ poll_exists s p ->
   exec env (SubmitDecryptedResults p enc prf) s =
     (Failure (PollNotFound p), s)) /\
  (poll_exists s p -> finalized (poll_at s p) = false ->
   exec env (SubmitDecryptedResults p enc prf) s =
     (Failure (PollNotFinalized p), s)) /\
  (poll_exists s p -> finalized (poll_at s p) = true ->
   resultsSubmitted (poll_at s p) = true ->
   exec env (SubmitDecryptedResults p enc prf) s =
     (Failure (ResultsAlreadySubmitted p), s)) /\
  (poll_exists s p -> finalized (poll_at s p) = true ->
   resultsSubmitted (poll_at s p) = false ->
   checkSignatures (encryptedCounts (poll_at s p)) enc prf = false ->
   exec env (SubmitDecryptedResults p enc prf) s = (Failure FHEReverted, s)) /\
  ((exec env (SubmitDecryptedResults p enc prf) s).1 = Success None ->
   forall (h' : History) env' enc' prf',
     let s2 := run h' (step s (env, SubmitDecryptedResults p enc prf)) in
     exec env' (SubmitDecryptedResults p enc' prf') s2 =
       (Failure (ResultsAlreadySubmitted p), s2)).
Proof.
  intros s.
  assert (Hwf : wf s) by apply wf_run, wf_init.
  assert (Hguards : forall (s0 : State) e0 enc0 prf0,
    exec e0 (SubmitDecryptedResults p enc0 prf0) s0 =
    if len (options (poll_at s0 p)) =? 0 then (Failure (PollNotFound p), s0)
    else if negb (finalized (poll_at s0 p))
    then (Failure (PollNotFinalized p), s0)
    else if resultsSubmitted (poll_at s0 p)
    then (Failure (ResultsAlreadySubmitted p), s0)
    else if negb (checkSignatures (encryptedCounts (poll_at s0 p)) enc0 prf0)
    then (Failure FHEReverted, s0)
    else exec e0 (SubmitDecryptedResults p enc0 prf0) s0).
  { intros s0 e0 enc0 prf0.
    destruct (len (options (poll_at s0 p)) =? 0) eqn:E1.
    { rewrite submitDecryptedResults_result.
      unfold submitDecryptedResults_error. simpl. by rewrite E1. }
    destruct (finalized (poll_at s0 p)) eqn:E2; simpl.
    2:{ rewrite submitDecryptedResults_result.
        unfold submitDecryptedResults_error. simpl. by rewrite E1, E2. }
    destruct (resultsSubmitted (poll_at s0 p)) eqn:E3.
    { rewrite submitDecryptedResults_result.
      unfold submitDecryptedResults_error. simpl. by rewrite E1, E2, E3. }
    destruct (checkSignatures _ _ _) eqn:E4; simpl; [done|].
    rewrite submitDecryptedResults_result.
    unfold submitDecryptedResults_error. simpl. by rewrite E1, E2, E3, E4. }
  rewrite poll_exists_len.
  split_and!.
  - intros Hex. rewrite Hguards.
    destruct (len (options (poll_at s p)) =? 0); [done|]. by destruct Hex.
  - intros Hex Hf. by rewrite Hguards, Hex, Hf.
  - intros Hex Hf Hr. by rewrite Hguards, Hex, Hf, Hr.
  - intros Hex Hf Hr Hc. by rewrite Hguards, Hex, Hf, Hr, Hc.
  - intros Hx h' env' enc' prf' s2.
    apply exec_pair in Hx.
    destruct (exec_success env _ s _ _ Hwf Hx) as [Htr Hwf1].
    set (s1 := step s (env, SubmitDecryptedResults p enc prf)) in *.
    inversion Htr as [ c0 s0 e Hx' | | | | p0 enc0 prf0 s0 s0' _ Herr [Hpc Hpv Hnew Hoth] ];
      subst; [congruence|].
    apply submitDecryptedResults_ok in Herr as (Hex & Hfin & _).
    pose proof (wf_exists_range s p Hwf Hex) as Hp.
    pose proof (later_run h' s1 Hwf1) as Hl. fold s2 in Hl.
    assert (Hr1 : resultsSubmitted (poll_at s1 p) = true) by (by rewrite Hnew).
    destruct (later_results _ _ Hl p Hr1) as (Hr2 & _).
    assert (Hf2 : finalized (poll_at s2 p) = true).
    { apply (later_finalized _ _ Hl). by rewrite Hnew. }
    assert (Hopt : options (poll_at s2 p) = options (poll_at s p)).
    { rewrite (later_options _ _ Hl) by lia. by rewrite Hnew. }
    by rewrite Hguards, Hopt, Hex, Hf2, Hr2.
Qed.

(** X7. The flags of a poll follow the life cycle: in every state reached
    with timestamps that do not decrease, a poll with published results is
    finalized, a finalized poll exists and is past its end time, and a poll
    whose results are not published stores no counts, no bytes and no
    proof. *)
Theorem flags_follow_lifecycle (h : History) t p :
  let s := run h init in
  chrono_from t h ->
  (resultsSubmitted (poll_at s p) = true -> finalized (poll_at s p) = true) /\
  (finalized (poll_at s p) = true ->
   poll_exists s p /\ endTime (poll_at s p) < end_time t h) /\
  (resultsSubmitted (poll_at s p) = false ->
   decryptedCounts (poll_at s p) = [] /\
   encodedClearResults (poll_at s p) = [] /\
   decryptionProof (poll_at s p) = []).
Proof.
  intros s Hch.
  assert (Hwf : wf s) by apply wf_run, wf_init.
  pose proof (audit_reachable h p) as Hok. fold s in Hok.
  unfold audit_ok in Hok.
  split_and!.
  - intros Hr. rewrite Hr in Hok. by destruct Hok.
  - intros Hf. split.
    + apply (wf_exists s p Hwf). apply wf_flag_range; auto.
    + by apply (closed_run h t init wf_init (closed_init t) Hch p).
  - intros Hr. by rewrite Hr in Hok.
Qed.

(** X8. [submitVote] succeeds exactly when the poll exists, the current
    time is within [startTime, endTime], the caller has not voted and the FHE
    library accepts the encrypted input; and then the caller, and nobody
    else, becomes recorded as having voted, and no poll is created. *)
Theorem submitVote_succeeds_iff (h : History) env p ch prf :
  let s := run h init in
  let s' := step s (env, SubmitVote p ch prf) in
  ((exec env (SubmitVote p ch prf) s).1 = Success None <->
   poll_exists s p /\
   startTime (poll_at s p) <= timestamp env <= endTime (poll_at s p) /\
   voted s p (sender env) = false /\
   is_Some (fromExternal ch prf (sender env))) /\
  ((exec env (SubmitVote p ch prf) s).1 = Success None ->
   voted s' p (sender env) = true /\
   (forall q v, (q, v) <> (p, sender env) -> voted s' q v = voted s q v) /\
   pollCount s' = pollCount s).
Proof.
  intros s s'.
  assert (Hwf : wf s) by apply wf_run, wf_init.
  pose proof (exec_submitVote env p ch prf s) as H.
  pose proof (submitVote_ok env p ch prf s) as Hok.
  rewrite poll_exists_len.
  destruct (submitVote_error env p ch prf s) as [e|] eqn:Herr.
  - rewrite H. simpl. split; [|done]. split; [done|].
    intros (Hex & Ht & Hv & Hin). exfalso.
    unfold submitVote_error in Herr. rewrite Hex, Hv in Herr.
    destruct (timestamp env <? startTime (poll_at s p)) eqn:E1;
      [apply Z.ltb_lt in E1; lia|].
    destruct (timestamp env >? endTime (poll_at s p)) eqn:E2; [lia|].
    destruct Hin as [c Hc]. by rewrite Hc in Herr.
  - destruct (H (wf_counters s Hwf p)) as (s1 & c & Hc & Hx & Hpc & Hpv & _).
    assert (s' = s1) as -> by (subst s'; unfold step; simpl; by rewrite Hx).
    rewrite Hx. simpl. split.
    + split; [|done]. intros _. by apply Hok.
    + intros _. split_and!; [| |done].
      * rewrite (voted_insert s s1 p (sender env)) by done. by case_decide.
      * intros q v Hne. rewrite (voted_insert s s1 p (sender env)) by done.
        case_decide; [congruence|done].
Qed.

(** X9. A call works on one poll only: every other poll, its schedule,
    flags, counters and results, and every other poll's vote record, are
    after the call what they were before.  For [createPoll] the one poll is
    the new one, so no existing poll changes. *)
Theorem calls_touch_only_their_poll (h : History) env c q :
  let s := run h init in
  let s' := step s (env, c) in
  q <> target_of c s ->
  poll_at s' q = poll_at s q /\
  (forall v, voted s' q v = voted s q v).
Proof.
  intros s s' Hq.
  assert (Hwf : wf s) by apply wf_run, wf_init.
  pose proof (step_transition env c s Hwf) as Htr. fold s' in Htr.
  clearbody s'.
  inversion Htr as
    [ c0 s0 e _
    | t d os st en s0 s0' _ Herr Hpc Hpv Hnew Hoth
    | p ch prf ct s0 s0' _ Herr Hext Hpc Hpv Hnew Hoth
    | p s0 s0' _ Herr [Hpc Hpv Hnew Hoth]
    | p enc prf s0 s0' _ Herr [Hpc Hpv Hnew Hoth] ]; subst; simpl in Hq.
  - done.
  - split; [by apply Hoth|]. intros v. by apply voted_same.
  - split; [by apply Hoth|]. intros v.
    rewrite (voted_insert _ _ _ _ q v Hpv). case_decide; [congruence|done].
  - split; [by apply Hoth|]. intros v. by apply voted_same.
  - split; [by apply Hoth|]. intros v. by apply voted_same.
Qed.

(** X10. [finalizePoll] and [submitDecryptedResults] are open to any caller:
    neither looks at [msg.sender], so two callers at the same time get the
    same result and leave the same polls, vote record and poll count (only
    the logged event names the caller). *)
Theorem finalize_and_publish_ignore_the_caller env env' p enc prf s :
  timestamp env' = timestamp env ->
  ((exec env (FinalizePoll p) s).1 = (exec env' (FinalizePoll p) s).1 /\
   (forall q, poll_at (step s (env, FinalizePoll p)) q =
              poll_at (step s (env', FinalizePoll p)) q) /\
   pollVotes (step s (env, FinalizePoll p)) =
     pollVotes (step s (env', FinalizePoll p))) /\
  ((exec env (SubmitDecryptedResults p enc prf) s).1 =
     (exec env' (SubmitDecryptedResults p enc prf) s).1 /\
   (forall q, poll_at (step s (env, SubmitDecryptedResults p enc prf)) q =
              poll_at (step s (env', SubmitDecryptedResults p enc prf)) q) /\
   pollVotes (step s (env, SubmitDecryptedResults p enc prf)) =
     pollVotes (step s (env', SubmitDecryptedResults p enc prf))).
Proof.
  intros Ht. split.
  - pose proof (exec_finalizePoll env p s) as H.
    pose proof (exec_finalizePoll env' p s) as H'.
    assert (E : finalizePoll_error env' p s = finalizePoll_error env p s)
      by (unfold finalizePoll_error; by rewrite Ht).
    rewrite E in H'. unfold step. simpl.
    destruct (finalizePoll_error env p s).
    + rewrite H, H'. done.
    + destruct H as (s1 & -> & [_ Hv1 Hn1 Ho1]).
      destruct H' as (s2 & -> & [_ Hv2 Hn2 Ho2]). simpl.
      split_and!; [done| |congruence].
      intros q. destruct (decide (q = p)) as [->|Hne]; [congruence|].
      by rewrite Ho1, Ho2.
  - pose proof (exec_submitDecryptedResults env p enc prf s) as H.
    pose proof (exec_submitDecryptedResults env' p enc prf s) as H'.
    unfold step. simpl.
    destruct (submitDecryptedResults_error p enc prf s).
    + rewrite H, H'. done.
    + destruct H as (s1 & -> & [_ Hv1 Hn1 Ho1]).
      destruct H' as (s2 & -> & [_ Hv2 Hn2 Ho2]). simpl.
      split_and!; [done| |congruence].
      intros q. destruct (decide (q = p)) as [->|Hne]; [congruence|].
      by rewrite Ho1, Ho2.
Qed.

End Coverage.

(** ** Further properties of the tallies *)

Section TallyCoverage.
Context {F : FHE} {L : FHELaws F}.

(** X11. An accepted vote adds one to the counter of the chosen option and
    nothing to the others: after a successful [submitVote] there are as many
    counters as before, and counter [i] decrypts to its former value plus
    one if the encrypted choice is [i], plus zero otherwise (modulo
    [2^32]). *)
Theorem vote_adds_one_to_the_chosen_counter (h : History) env p ch prf c :
  let s := run h init in
  let s' := step s (env, SubmitVote p ch prf) in
  (exec env (SubmitVote p ch prf) s).1 = Success None ->
  fromExternal ch prf (sender env) = Some c ->
  length (encryptedCounts (poll_at s' p)) =
    length (encryptedCounts (poll_at s p)) /\
  forall (i : nat) ct, encryptedCounts (poll_at s p) !! i = Some ct ->
    exists ct', encryptedCounts (poll_at s' p) !! i = Some ct' /\
      clear ct' =
        (clear ct + if decide (clear c = Z.of_nat i) then 1 else 0)
        mod 2 ^ 32.
Proof.
  intros s s' Hx Hc.
  assert (Hwf : wf s) by apply wf_run, wf_init.
  pose proof (exec_submitVote env p ch prf s) as H.
  destruct (submitVote_error env p ch prf s) as [e|] eqn:Herr;
    [rewrite H in Hx; done|].
  destruct (H (wf_counters s Hwf p)) as (s1 & c' & Hc' & Hx1 & _ & _ & Hnew & _).
  assert (s' = s1) as -> by (subst s'; unfold step; simpl; by rewrite Hx1).
  assert (c' = c) as -> by congruence.
  apply submitVote_ok in Herr as (Hex & _).
  pose proof (wf_exists_range s p Hwf Hex) as Hp.
  pose proof (wf_options s Hwf p Hp) as Ho.
  pose proof (wf_counters s Hwf p) as Hk.
  rewrite Hnew. simpl. split; [apply tally_length|].
  intros i ct Hi. rewrite tally_lookup.
  pose proof (lookup_lt_Some _ _ _ Hi) as Hlt.
  case_decide; [|lia].
  rewrite Hi. simpl. eexists. split; [done|].
  rewrite clear_add, clear_increment; [done|].
  unfold len, MAX_OPTIONS, MAX_UINT32 in *. lia.
Qed.

(** X12. [getEncryptedResults] fails with [PollNotFound] on an unknown id
    and is available as soon as the poll exists: it returns one handle per
    option, and handle [i] decrypts to the number of accepted ballots for
    option [i] (modulo [2^32]), so all zero for a poll nobody has voted in.
    It does not change the storage. *)
Theorem encrypted_results_count_the_ballots (h : History) p :
  let s := run h init in
  let bs := ballots h init p in
  (~ poll_exists s p ->
   transact (getEncryptedResults p) s = (Failure (PollNotFound p), s)) /\
  (poll_exists s p ->
   exists cs,
     transact (getEncryptedResults p) s = (Success cs, s) /\
     length cs = length (options (poll_at s p)) /\
     (forall (i : nat) ct, cs !! i = Some ct ->
        clear ct = Z.of_nat (votes_for (Z.of_nat i) bs) mod 2 ^ 32) /\
     (bs = [] -> Forall (fun ct => clear ct = 0) cs)).
Proof.
  intros s bs.
  assert (Hwf : wf s) by apply wf_run, wf_init.
  rewrite getEncryptedResults_result, poll_exists_len.
  destruct (len (options (poll_at s p)) =? 0).
  - split; [done|]. intros H. done.
  - split; [intros H; by destruct H|]. intros _.
    destruct (ballots_invariant h p) as (_ & _ & Hcnt).
    fold s bs in Hcnt.
    exists (encryptedCounts (poll_at s p)).
    split_and!; [done|apply (wf_counters s Hwf)|apply Hcnt|].
    intros Hbs. apply Forall_forall. intros ct Hct.
    apply list_elem_of_lookup in Hct as [i Hi].
    rewrite (Hcnt i ct Hi), Hbs. done.
Qed.

(** X13. [hasVoted] never fails and changes nothing, and it is exact: it
    returns true for a poll and an account exactly when a [submitVote] of
    that account for that poll has succeeded; an account has at most one
    ballot in a poll. *)
Theorem hasVoted_iff_ballot_cast (h : History) p v :
  let s := run h init in
  let bs := ballots h init p in
  transact (hasVoted p v) s = (Success (bool_decide (v ∈ voters bs)), s) /\
  NoDup bs.*1.
Proof.
  intros s bs.
  destruct (ballots_invariant h p) as (Hv & Hnd & _). fold s bs in Hv, Hnd.
  split; [|done].
  rewrite hasVoted_result. do 2 f_equal.
  unfold voters. destruct (voted s p v) eqn:E.
  - symmetry. apply bool_decide_eq_true.
    apply elem_of_list_to_set. by apply Hv.
  - symmetry. apply bool_decide_eq_false.
    rewrite elem_of_list_to_set, Hv. congruence.
Qed.

(** X14. Finalization freezes the tallies: if time does not go backwards,
    then from the state in which a poll is finalized on, no ballot is cast
    for it and its encrypted counters never change, so the handles made
    publicly decryptable by [finalizePoll] are the ones
    [getEncryptedResults] returns and [submitDecryptedResults] checks ever
    after. *)
Theorem tallies_frozen_once_finalized (h h' : History) p :
  chrono (h ++ h') ->
  finalized (poll_at (run h init) p) = true ->
  encryptedCounts (poll_at (run (h ++ h') init) p) =
    encryptedCounts (poll_at (run h init) p) /\
  ballots (h ++ h') init p = ballots h init p /\
  (transact (getEncryptedResults p) (run (h ++ h') init)).1 =
    (transact (getEncryptedResults p) (run h init)).1.
Proof.
  intros Hch Hfin.
  apply chrono_chrono_from in Hch as [t Hch].
  apply chrono_from_app in Hch as [Hch1 Hch2].
  set (s := run h init) in *.
  assert (Hwf : wf s) by apply wf_run, wf_init.
  pose proof (closed_run h t init wf_init (closed_init t) Hch1) as Hcl.
  fold s in Hcl.
  pose proof (counters_closed h' _ s p Hwf Hcl Hfin Hch2) as Hcs.
  rewrite run_app. fold s.
  split_and!; [done| |].
  - rewrite ballots_app. fold s.
    rewrite (ballots_closed h' _ s p Hwf Hcl Hfin Hch2). by rewrite app_nil_r.
  - rewrite !getEncryptedResults_result, Hcs.
    pose proof (wf_flag_range s p Hwf (or_introl Hfin)) as Hp.
    rewrite (later_options _ _ (later_run h' s Hwf)) by done.
    by destruct (len (options (poll_at s p)) =? 0).
Qed.

End TallyCoverage.

(** ** What the calls log *)

Section EffectsCoverage.
Context {F : FHE}.

Local Abbreviation vote_body p choice := (fun i : Z =>
  let isTarget := fhe_eq choice (asEuint32 (i mod 2 ^ 32)) in
  let increment := fhe_select isTarget (asEuint32 1) (asEuint32 0) in
  s ← get;
  c ← index (encryptedCounts (poll_at s p)) i;
  let c' := fhe_add c increment in
  modify (update_poll p (fun x =>
    set_encryptedCounts (<[Z.to_nat i := c']> (encryptedCounts x)) x));;
  modify (log (AllowThis c'))).

Lemma fold_bump_notin choice l cs (i : nat) :
  i ∉ l -> fold_left (bump choice) l cs !! i = cs !! i.
Proof.
  revert cs. induction l as [|j l IH]; intros cs Hi; [done|].
  simpl. rewrite IH by (intros ?; apply Hi; by right).
  unfold bump. destruct (cs !! j); [|done].
  apply list_lookup_insert_ne. intros ->. apply Hi. left.
Qed.

Lemma vote_loop_effects p choice k : forall a s s',
  (a + k <= length (encryptedCounts (poll_at s p)))%nat ->
  for_each (Z.of_nat <$> seq a k) (vote_body p choice) s = Done tt s' ->
  effects s' =
    effects s ++ (AllowThis <$> take k (drop a (encryptedCounts (poll_at s' p)))).
Proof.
  induction k as [|k IH]; intros a s s' Hk Hrun.
  - simpl in Hrun. injection Hrun as <-. simpl. by rewrite app_nil_r.
  - simpl seq in Hrun. rewrite fmap_cons, for_each_cons in Hrun.
    destruct (lookup_lt_is_Some_2 (encryptedCounts (poll_at s p)) a)
      as [c Hc]; [lia|].
    rewrite (vote_turn _ _ _ _ _ Hc) in Hrun.
    set (c' := fhe_add c (increment choice (Z.of_nat a))) in *.
    set (s1 := log (AllowThis c') (update_poll p _ s)) in *.
    assert (Hcs1 : encryptedCounts (poll_at s1 p) =
                   <[a := c']> (encryptedCounts (poll_at s p))).
    { subst s1. by rewrite poll_at_log, poll_at_update_poll_eq. }
    assert (Hk1 : (S a + k <= length (encryptedCounts (poll_at s1 p)))%nat).
    { rewrite Hcs1, length_insert. lia. }
    rewrite (IH (S a) s1 s' Hk1 Hrun).
    destruct (vote_loop p choice (seq (S a) k) s1) as (s'' & Hrun' & [_ _ Hp _]).
    { intros i Hi%elem_of_seq. lia. }
    assert (s'' = s') as -> by congruence.
    assert (Ha : encryptedCounts (poll_at s' p) !! a = Some c').
    { rewrite Hp. simpl. rewrite fold_bump_notin.
      - rewrite Hcs1. apply list_lookup_insert_eq. lia.
      - intros Hi%elem_of_seq. lia. }
    rewrite (drop_S _ _ _ Ha). simpl. subst s1. simpl.
    by rewrite <- app_assoc.
Qed.

Lemma finalize_loop_effects (cs : list euint32) k : forall a s s',
  (a + k <= length cs)%nat ->
  for_each (Z.of_nat <$> seq a k) (fun i =>
    c ← index cs i; modify (log (PubliclyDecryptable c))) s = Done tt s' ->
  effects s' = effects s ++ (PubliclyDecryptable <$> take k (drop a cs)).
Proof.
  induction k as [|k IH]; intros a s s' Hk Hrun.
  - simpl in Hrun. injection Hrun as <-. simpl. by rewrite app_nil_r.
  - simpl seq in Hrun. rewrite fmap_cons, for_each_cons in Hrun.
    destruct (lookup_lt_is_Some_2 cs a) as [c Hc]; [lia|].
    unfold mbind at 1, M_bind at 1, bind at 1, index at 1 in Hrun.
    rewrite Nat2Z.id, Hc in Hrun. unfold ret at 1, modify at 1 in Hrun.
    rewrite (IH (S a) _ s' ltac:(lia) Hrun).
    rewrite (drop_S _ _ _ Hc). simpl. by rewrite <- app_assoc.
Qed.

Lemma quiet_loop_effects {A} (l : list A) (body : A -> M unit) :
  (forall x s s', body x s = Done tt s' -> effects s' = effects s) ->
  forall s s', for_each l body s = Done tt s' -> effects s' = effects s.
Proof.
  intros Hbody. induction l as [|x l IH]; intros s s' Hrun.
  - by injection Hrun as <-.
  - rewrite for_each_cons in Hrun.
    destruct (body x s) as [[] s1|] eqn:E; [|done].
    rewrite (IH s1 s' Hrun). by apply (Hbody x).
Qed.

Lemma effects_log e s : effects (log e s) = effects s ++ [e].
Proof. reflexivity. Qed.

Lemma createPoll_effects env t d os st en s id s' :
  createPoll env t d os st en s = Done id s' ->
  effects s' = effects s ++ [PollCreated (pollCount s) (sender env) t].
Proof.
  unfold createPoll. unfold mbind, M_bind, bind, revert_if, get.
  destruct (Z.of_nat (String.length t) =? 0); [done|].
  destruct ((len os <? MIN_OPTIONS) || (len os >? MAX_OPTIONS)); [done|].
  destruct ((en <=? st) || (en <=? timestamp env)); [done|].
  simpl.
  destruct (pollCount s + 1 >? MAX_UINT256); [done|].
  simpl.
  match goal with |- context [for_each ?l ?b ?st] =>
    destruct (for_each l b st) as [[] s1|] eqn:E; [|done]
  end.
  simpl. intros [= _ <-]. simpl.
  erewrite (quiet_loop_effects _ _ _ _ _ E). done.
  Unshelve.
  intros o s0 s0'. simpl.
  destruct (Z.of_nat (String.length o) =? 0); [done|].
  simpl. by intros [= <-].
Qed.

Lemma submitVote_effects env p ch prf s s' :
  length (encryptedCounts (poll_at s p)) = length (options (poll_at s p)) ->
  submitVote env p ch prf s = Done tt s' ->
  effects s' =
    effects s ++ (AllowThis <$> encryptedCounts (poll_at s' p)) ++
    [VoteSubmitted p (sender env)].
Proof.
  intros Hlen.
  unfold submitVote, _ensurePollExists.
  unfold mbind, M_bind, bind, revert_if, get.
  destruct (len (options (poll_at s p)) =? 0); [done|].
  simpl.
  destruct (timestamp env <? startTime (poll_at s p)); [done|].
  simpl.
  destruct (timestamp env >? endTime (poll_at s p)); [done|].
  simpl.
  destruct (voted s p (sender env)); [done|].
  simpl.
  destruct (fromExternal ch prf (sender env)) as [c|]; [|done].
  simpl. rewrite indices_len.
  match goal with |- context [for_each ?l ?b ?st] =>
    destruct (for_each l b st) as [[] s1|] eqn:E; [|done]
  end.
  simpl. intros [= <-].
  pose proof (vote_loop_effects p c (length (options (poll_at s p))) 0
                (set_voted p (sender env) s) s1) as Heff.
  rewrite poll_at_set_voted in Heff.
  rewrite effects_log, (Heff ltac:(lia) E). simpl.
  rewrite poll_at_log, drop_0, <- app_assoc. f_equal. f_equal. f_equal.
  apply take_ge.
  destruct (vote_loop p c (seq 0 (length (options (poll_at s p))))
              (set_voted p (sender env) s)) as (s'' & Hrun' & [_ _ Hp _]).
  { intros i Hi%elem_of_seq. rewrite poll_at_set_voted. lia. }
  assert (@Done F unit tt s'' = Done tt s1) as [= ->]
    by (rewrite <- Hrun'; exact E).
  rewrite Hp. simpl. rewrite fold_bump_length, poll_at_set_voted. lia.
Qed.

Lemma finalizePoll_effects env p s s' :
  finalizePoll env p s = Done tt s' ->
  effects s' =
    effects s ++ (PubliclyDecryptable <$> encryptedCounts (poll_at s p)) ++
    [PollFinalized p (sender env)].
Proof.
  unfold finalizePoll, _ensurePollExists.
  unfold mbind, M_bind, bind, revert_if, get.
  destruct (len (options (poll_at s p)) =? 0); [done|].
  simpl.
  destruct (timestamp env <=? endTime (poll_at s p)); [done|].
  simpl.
  destruct (finalized (poll_at s p)); [done|].
  simpl. rewrite indices_len.
  match goal with |- context [for_each ?l ?b ?st] =>
    destruct (for_each l b st) as [[] s1|] eqn:E; [|done]
  end.
  simpl. intros [= <-].
  pose proof (finalize_loop_effects (encryptedCounts (poll_at s p))
                (length (encryptedCounts (poll_at s p))) 0
                (update_poll p (set_finalized true) s) s1) as Heff.
  rewrite effects_log, (Heff ltac:(lia) E). simpl.
  by rewrite drop_0, firstn_all, <- app_assoc.
Qed.

Lemma submitDecryptedResults_effects env p enc prf s s' :
  submitDecryptedResults env p enc prf s = Done tt s' ->
  effects s' =
    effects s ++ [ResultsPublished p (decryptedCounts (poll_at s' p))].
Proof.
  unfold submitDecryptedResults, _ensurePollExists, _decodeClearValues.
  unfold mbind, M_bind, bind, revert_if, get.
  destruct (len (options (poll_at s p)) =? 0); [done|].
  simpl.
  destruct (finalized (poll_at s p)); [|done].
  simpl.
  destruct (resultsSubmitted (poll_at s p)); [done|].
  simpl. rewrite collect_index_all.
  destruct (checkSignatures (encryptedCounts (poll_at s p)) enc prf); [|done].
  simpl.
  destruct (len (encryptedCounts (poll_at s p)) * 32 >? MAX_UINT256); [done|].
  simpl.
  destruct (len enc =? len (encryptedCounts (poll_at s p)) * 32); [|done].
  simpl. rewrite collect_ret.
  match goal with |- context [for_each ?l ?b ?st] =>
    destruct (for_each l b st) as [[] s1|] eqn:E; [|done]
  end.
  simpl. intros [= <-]. simpl.
  erewrite (quiet_loop_effects _ _ _ _ _ E).
  { rewrite poll_at_log, poll_at_update_poll_eq. done. }
  Unshelve.
  intros i s0 s0'. simpl. unfold index.
  destruct (_ !! Z.to_nat i) as [v|]; [|done]. simpl.
  destruct (v >? MAX_UINT32); [done|]. simpl. by intros [= <-].
Qed.

Lemma exec_effects env c s r s' :
  wf s -> exec env c s = (Success r, s') ->
  effects s' = effects s ++ grants_of c s s' ++ [event_of env c s s'].
Proof.
  intros Hwf. unfold exec, transact, call_body.
  destruct c as [t d os st en|p ch prf|p|p enc prf];
    unfold mbind, M_bind, bind.
  - destruct (createPoll env t d os st en s) as [id s1|] eqn:E; [|done].
    simpl. intros [= _ <-]. by apply createPoll_effects in E.
  - destruct (submitVote env p ch prf s) as [[] s1|] eqn:E; [|done].
    simpl. intros [= _ <-].
    apply submitVote_effects in E; [done|apply (wf_counters s Hwf)].
  - destruct (finalizePoll env p s) as [[] s1|] eqn:E; [|done].
    simpl. intros [= _ <-]. by apply finalizePoll_effects in E.
  - destruct (submitDecryptedResults env p enc prf s) as [[] s1|] eqn:E; [|done].
    simpl. intros [= _ <-]. by apply submitDecryptedResults_effects in E.
Qed.



Lemma omap_public_fmap (cs : list euint32) :
  omap public_handle (PubliclyDecryptable <$> cs) = cs.
Proof. induction cs as [|x l IH]; [done|]. simpl. f_equal. exact IH. Qed.

Lemma omap_public_allow (cs : list euint32) :
  omap public_handle (AllowThis <$> cs) = [].
Proof. induction cs as [|x l IH]; [done|]. simpl. exact IH. Qed.

Lemma omap_allowed_fmap (cs : list euint32) :
  omap allowed_handle (AllowThis <$> cs) = cs.
Proof. induction cs as [|x l IH]; [done|]. simpl. f_equal. exact IH. Qed.

Lemma omap_allowed_public (cs : list euint32) :
  omap allowed_handle (PubliclyDecryptable <$> cs) = [].
Proof. induction cs as [|x l IH]; [done|]. simpl. exact IH. Qed.


Lemma grants_step env c (s : State) :
  wf s ->
  let s' := step s (env, c) in
  public_handles s' =
    public_handles s ++
    match c, (exec env c s).1 with
    | FinalizePoll p, Success _ => encryptedCounts (poll_at s p)
    | _, _ => []
    end /\
  allowed_handles s' =
    allowed_handles s ++
    match c, (exec env c s).1 with
    | SubmitVote p _ _, Success _ => encryptedCounts (poll_at s' p)
    | _, _ => []
    end.
Proof.
  intros Hwf s'.
  destruct (exec env c s) as [[r|e] s1] eqn:Hx; simpl.
  - assert (s' = s1) as -> by (subst s'; unfold step; simpl; by rewrite Hx).
    pose proof (exec_effects env c s r s1 Hwf Hx) as Heff.
    unfold public_handles, allowed_handles. rewrite Heff, !omap_app.
    destruct c; unfold grants_of, event_of;
      rewrite ?omap_public_fmap, ?omap_public_allow, ?omap_allowed_fmap,
        ?omap_allowed_public; rewrite ?Hx; simpl; rewrite ?app_nil_r; done.
  - apply exec_failure in Hx as Hs. subst s1.
    assert (s' = s) as -> by (subst s'; unfold step; simpl; by rewrite Hx).
    destruct c; rewrite ?Hx; simpl; by rewrite !app_nil_r.
Qed.



(** X16. Only [finalizePoll] makes handles publicly decryptable, and only
    [submitVote] grants the contract access to handles: a successful
    [finalizePoll] makes public exactly the poll's counters, in option
    order; a successful [submitVote] allows the contract exactly the poll's
    updated counters; no other call, and no failed call, grants anything. *)
Theorem grants_come_from_votes_and_finalization (h : History) env c :
  let s := run h init in
  let s' := step s (env, c) in
  public_handles s' =
    public_handles s ++
    match c, (exec env c s).1 with
    | FinalizePoll p, Success _ => encryptedCounts (poll_at s p)
    | _, _ => []
    end /\
  allowed_handles s' =
    allowed_handles s ++
    match c, (exec env c s).1 with
    | SubmitVote p _ _, Success _ => encryptedCounts (poll_at s' p)
    | _, _ => []
    end.
Proof. intros s s'. apply grants_step, wf_run, wf_init. Qed.


End EffectsCoverage.

(** ** Decoding and [abi.encode] *)

Section EncodingCoverage.
Context {F : FHE}.

Lemma byte_val_range b : 0 <= byte_val b < 256.
Proof. unfold byte_val. pose proof (Byte.to_N_bounded b). lia. Qed.

Lemma byte_val_byte_of v : byte_val (Ideal.byte_of v) = v mod 256.
Proof.
  unfold Ideal.byte_of, byte_val.
  pose proof (Z.mod_pos_bound v 256 eq_refl) as Hv.
  destruct (Byte.of_N (Z.to_N (v mod 256))) as [b|] eqn:E.
  - simpl. apply Byte.to_of_N in E. lia.
  - apply Byte.of_N_None_iff in E. lia.
Qed.

Lemma byte_of_byte_val x b : Ideal.byte_of (x * 256 + byte_val b) = b.
Proof.
  unfold Ideal.byte_of.
  pose proof (byte_val_range b) as Hb.
  replace ((x * 256 + byte_val b) mod 256) with (byte_val b).
  - unfold byte_val. by rewrite N2Z.id, Byte.of_to_N.
  - rewrite Z.add_comm, Z_mod_plus_full. by rewrite Z.mod_small.
Qed.

Lemma be_value_snoc bs b : be_value (bs ++ [b]) = be_value bs * 256 + byte_val b.
Proof. unfold be_value. by rewrite fold_left_app. Qed.

Lemma length_be_bytes n v : length (Ideal.be_bytes n v) = n.
Proof.
  revert v. induction n as [|n IH]; intros v; [done|].
  simpl. rewrite length_app, IH. simpl. lia.
Qed.

Lemma be_value_be_bytes n v :
  be_value (Ideal.be_bytes n v) = v mod 256 ^ Z.of_nat n.
Proof.
  revert v. induction n as [|n IH]; intros v.
  - simpl. by rewrite Z.mod_1_r.
  - cbn [Ideal.be_bytes]. rewrite be_value_snoc, IH, byte_val_byte_of.
    rewrite Nat2Z.inj_succ, Z.pow_succ_r by lia.
    rewrite Z.rem_mul_r by lia. lia.
Qed.

Lemma be_bytes_be_value bs :
  Ideal.be_bytes (length bs) (be_value bs) = bs.
Proof.
  induction bs as [|b bs IH] using rev_ind; [done|].
  rewrite length_app, Nat.add_comm. cbn [length Nat.add Ideal.be_bytes].
  rewrite be_value_snoc, byte_of_byte_val. f_equal.
  pose proof (byte_val_range b) as Hb.
  replace ((be_value bs * 256 + byte_val b) / 256) with (be_value bs);
    [done|].
  rewrite Z.add_comm, Z_div_plus_full by lia.
  rewrite Z.div_small by lia. lia.
Qed.

Lemma be_words_S n w rest :
  length w = 32%nat ->
  be_words (S n) (w ++ rest) = be_value w :: be_words n rest.
Proof.
  intros Hw. unfold be_words. cbn [seq]. rewrite fmap_cons. f_equal.
  - cbv beta. rewrite Nat.mul_0_r, drop_0. by rewrite take_app_length'.
  - rewrite <- fmap_S_seq, <- list_fmap_compose.
    apply list_fmap_ext. intros i k _. unfold compose. cbv beta.
    replace (32 * S k)%nat with (length w + 32 * k)%nat by lia.
    by rewrite drop_app_add.
Qed.

Lemma be_words_abi_encode vs :
  Forall (fun v => 0 <= v <= MAX_UINT256) vs ->
  be_words (length vs) (Ideal.abi_encode vs) = vs.
Proof.
  unfold Ideal.abi_encode.
  induction 1 as [|v vs Hv _ IH]; [done|].
  rewrite bind_cons. cbn [length].
  rewrite be_words_S by apply length_be_bytes.
  rewrite IH, be_value_be_bytes. f_equal.
  apply Z.mod_small. unfold MAX_UINT256 in Hv.
  change (256 ^ Z.of_nat 32) with (2 ^ 256). lia.
Qed.

Lemma length_abi_encode vs : len (Ideal.abi_encode vs) = len vs * 32.
Proof.
  unfold Ideal.abi_encode, len.
  induction vs as [|v vs IH]; [done|].
  rewrite bind_cons, length_app, length_be_bytes. cbn [length].
  rewrite Nat2Z.inj_add, IH. lia.
Qed.

Lemma abi_encode_be_words n enc :
  length enc = (32 * n)%nat ->
  Ideal.abi_encode (be_words n enc) = enc.
Proof.
  revert enc. induction n as [|n IH]; intros enc Hlen.
  - by destruct enc.
  - rewrite <- (take_drop 32 enc).
    assert (Hw : length (take 32 enc) = 32%nat) by (rewrite length_take; lia).
    rewrite be_words_S by done.
    unfold Ideal.abi_encode. rewrite bind_cons.
    fold (Ideal.abi_encode (be_words n (drop 32 enc))).
    rewrite IH by (rewrite length_drop; lia).
    f_equal. rewrite <- Hw at 1. apply be_bytes_be_value.
Qed.

Lemma be_words_range n enc :
  Forall (fun v => 0 <= v <= MAX_UINT256) (be_words n enc).
Proof.
  unfold be_words. apply Forall_fmap, Forall_forall. intros k _.
  unfold compose. cbv beta.
  set (w := take 32 (drop (32 * k) enc)).
  assert (Hw : (length w <= 32)%nat) by (subst w; rewrite length_take; lia).
  pose proof (be_bytes_be_value w) as Hb.
  pose proof (be_value_be_bytes (length w) (be_value w)) as Hv.
  rewrite Hb in Hv.
  pose proof (be_value_nonneg w) as H0.
  assert (H256 : 256 ^ Z.of_nat (length w) <= 2 ^ 256).
  { change (2 ^ 256) with (256 ^ 32).
    apply Z.pow_le_mono_r; lia. }
  assert (H1 : 0 < 256 ^ Z.of_nat (length w)) by (apply Z.pow_pos_nonneg; lia).
  pose proof (Z.mod_pos_bound (be_value w) (256 ^ Z.of_nat (length w)) H1) as Hm.
  unfold MAX_UINT256. lia.
Qed.

Lemma _decodeClearValues_result enc (n : nat) p (s : State) :
  _decodeClearValues enc (Z.of_nat n) p s =
  if Z.of_nat n * 32 >? MAX_UINT256 then Reverted Panic s
  else if len enc =? Z.of_nat n * 32 then Done (be_words n enc) s
  else Reverted (InvalidResultsLength p) s.
Proof.
  unfold _decodeClearValues, mbind, M_bind, bind, revert_if.
  destruct (Z.of_nat n * 32 >? MAX_UINT256) eqn:E1; [done|]. simpl.
  destruct (len enc =? Z.of_nat n * 32) eqn:E2; [|done]. simpl.
  rewrite collect_ret.
  fold (decoded_words enc (Z.of_nat n)).
  rewrite decoded_words_be_words by lia. done.
Qed.

(** X18. [_decodeClearValues] undoes [abi.encode]: given the encoding of a
    list of 256-bit unsigned integers and their number, it returns the list
    itself, in order, and leaves the storage alone. *)
Theorem decodeClearValues_inverts_abi_encode (vs : list Z) p (s : State) :
  Forall (fun v => 0 <= v <= MAX_UINT256) vs ->
  len vs * 32 <= MAX_UINT256 ->
  _decodeClearValues (Ideal.abi_encode vs) (len vs) p s = Done vs s.
Proof.
  intros Hvs Hmax. unfold len at 1.
  rewrite _decodeClearValues_result.
  destruct (Z.of_nat (length vs) * 32 >? MAX_UINT256) eqn:E1;
    [unfold len in Hmax; lia|].
  rewrite length_abi_encode. unfold len. rewrite Z.eqb_refl.
  by rewrite be_words_abi_encode.
Qed.

(** X19. [_decodeClearValues] accepts nothing but encodings: it fails with
    [InvalidResultsLength] unless the input is exactly 32 bytes per expected
    value, and whenever it returns a list, that list has the expected
    length, its elements are 256-bit unsigned integers, and the input is
    its [abi.encode]; so two different inputs never decode to the same
    counts. *)
Theorem decodeClearValues_accepts_only_encodings
    (enc : bytes) (n : nat) p (s : State) :
  Z.of_nat n * 32 <= MAX_UINT256 ->
  (len enc <> Z.of_nat n * 32 ->
   _decodeClearValues enc (Z.of_nat n) p s =
   Reverted (InvalidResultsLength p) s) /\
  (forall vs s',
   _decodeClearValues enc (Z.of_nat n) p s = Done vs s' ->
   s' = s /\ length vs = n /\
   Forall (fun v => 0 <= v <= MAX_UINT256) vs /\
   enc = Ideal.abi_encode vs).
Proof.
  intros Hmax. rewrite _decodeClearValues_result.
  destruct (Z.of_nat n * 32 >? MAX_UINT256) eqn:E1; [lia|].
  destruct (len enc =? Z.of_nat n * 32) eqn:E2.
  - split; [lia|]. intros vs s' [= <- <-].
    split_and!; [done| |apply be_words_range|].
    + unfold be_words. by rewrite length_fmap, length_seq.
    + symmetry. apply abi_encode_be_words. unfold len in E2. lia.
  - split; [done|]. intros vs s' [=].
Qed.

End EncodingCoverage.

(** ** Publishing an honest decryption *)

Section PublicationCoverage.
Context {F : FHE} {L : FHELaws F}.

(** X20. An honest decryption is always accepted: for a poll that is
    finalized and has no results yet, the [abi.encode] of the cleartexts of
    its counters, with a proof the signature check accepts, passes every
    other check of [submitDecryptedResults] whoever sends it and whenever;
    the counts then stored and returned by [getDecryptedResults] are, option
    by option, the numbers of accepted ballots (modulo [2^32]). *)
Theorem honest_decryption_is_accepted (h : History) env p prf :
  let s := run h init in
  let cs := encryptedCounts (poll_at s p) in
  let enc := Ideal.abi_encode (clear <$> cs) in
  finalized (poll_at s p) = true ->
  resultsSubmitted (poll_at s p) = false ->
  checkSignatures cs enc prf = true ->
  exists s',
    exec env (SubmitDecryptedResults p enc prf) s = (Success None, s') /\
    transact (getDecryptedResults p) s' = (Success (clear <$> cs), s') /\
    length (clear <$> cs) = length (options (poll_at s p)) /\
    forall (i : nat) v, (clear <$> cs) !! i = Some v ->
      v = Z.of_nat (votes_for (Z.of_nat i) (ballots h init p)) mod 2 ^ 32.
Proof.
  intros s cs enc Hfin Hres Hsig.
  assert (Hwf : wf s) by apply wf_run, wf_init.
  pose proof (wf_flag_range s p Hwf (or_introl Hfin)) as Hp.
  pose proof (wf_options s Hwf p Hp) as Hopts.
  pose proof (wf_counters s Hwf p) as Hcnt. fold cs in Hcnt.
  unfold MIN_OPTIONS, MAX_OPTIONS, len in Hopts.
  assert (Hex : (len (options (poll_at s p)) =? 0) = false)
    by (apply Z.eqb_neq; unfold len; lia).
  assert (Hrange : Forall (fun v => 0 <= v <= MAX_UINT32) (clear <$> cs)).
  { apply Forall_fmap, Forall_forall. intros c _. apply clear_range. }
  assert (Hrange' : Forall (fun v => 0 <= v <= MAX_UINT256) (clear <$> cs)).
  { eapply Forall_impl; [exact Hrange|]. simpl.
    unfold MAX_UINT32, MAX_UINT256. lia. }
  assert (Hlen : len enc = Z.of_nat (length cs) * 32).
  { subst enc. rewrite length_abi_encode. unfold len.
    by rewrite length_fmap. }
  assert (Hmax : Z.of_nat (length cs) * 32 <= MAX_UINT256)
    by (unfold MAX_UINT256; lia).
  assert (Hdec : decoded_words enc (len cs) = clear <$> cs).
  { unfold len. rewrite decoded_words_be_words by done.
    subst enc. rewrite <- (length_fmap clear cs).
    by apply be_words_abi_encode. }
  assert (Herr : submitDecryptedResults_error p enc prf s = None).
  { unfold submitDecryptedResults_error. simpl. fold cs.
    rewrite Hex, Hfin, Hres, Hsig. simpl.
    destruct (len cs * 32 >? MAX_UINT256) eqn:E1; [unfold len in E1; lia|].
    rewrite Hlen. unfold len at 1. rewrite Z.eqb_refl. simpl.
    rewrite Hdec.
    destruct (list_find exceeds_limit (clear <$> cs)) as [[i v]|] eqn:Efind;
      [|done].
    apply list_find_Some in Efind as (Hi & Hv & _).
    rewrite Forall_forall in Hrange.
    apply list_elem_of_lookup_2, Hrange in Hi. unfold exceeds_limit in Hv. lia. }
  pose proof (exec_submitDecryptedResults env p enc prf s) as Hspec.
  rewrite Herr in Hspec. destruct Hspec as (s' & Hx & [_ _ Hnew _]).
  fold cs in Hnew. rewrite Hdec in Hnew.
  rewrite mod_small_words in Hnew.
  2:{ eapply Forall_impl; [exact Hrange|]. simpl. lia. }
  2:{ eapply Forall_impl; [exact Hrange|]. simpl.
      unfold exceeds_limit. lia. }
  exists s'. split_and!; [done| | |].
  - rewrite getDecryptedResults_result, Hnew. simpl. by rewrite Hex.
  - by rewrite length_fmap.
  - intros i v Hi. rewrite list_lookup_fmap in Hi.
    destruct (cs !! i) as [c|] eqn:Hc; [|done]. injection Hi as <-.
    destruct (ballots_invariant h p) as (_ & _ & Hb).
    by apply Hb.
Qed.

End PublicationCoverage.

(** ** The client and the contract *)

Section ClientCoverage.
Context {F : FHE}.













End ClientCoverage.

(** ** What the client shows and what the contract accepts *)

Section AppCoverage.
Context {F : FHE}.




















End AppCoverage.

(** ** The ideal FHE is a correct one *)

Module IdealLaws.
Import Ideal.

Lemma plain_range a : 0 <= plain a <= MAX_UINT32.
Proof.
  unfold MAX_UINT32. destruct a as [|v]; simpl; [lia|].
  pose proof (Z.mod_pos_bound v (2 ^ 32)). lia.
Qed.

Lemma plain_asEuint32 v : 0 <= v <= MAX_UINT32 -> plain (asEuint32 v) = v.
Proof.
  unfold MAX_UINT32. intros Hv. simpl.
  rewrite Z.mod_mod by lia. apply Z.mod_small. lia.
Qed.

Lemma plain_select (c : bool) a b :
  plain (fhe_select c a b) = if c then plain a else plain b.
Proof. by destruct c. Qed.

(** A ciphertext means its plaintext. *)
#[export] Instance ideal_laws : FHELaws ideal := {|
  clear := plain;
  clearb := fun b : bool => b;
  clear_range := plain_range;
  clear_zero := eq_refl;
  clear_asEuint32 := plain_asEuint32;
  clear_eq := fun a b => eq_refl;
  clear_select := plain_select;
  clear_add := fun a b => eq_refl;
|}.

End IdealLaws.

(** ** The claims on concrete histories *)

Import Ideal IdealLaws Scenarios.


(** The scenario of the repository's test, end to end: the published results
    of the election are [0; 1; 1], and the published bytes and proof are the
    ones submitted. *)
Example election_end_to_end :
  (transact (getDecryptedResults 0) (run election_published init)).1 =
    Success [0; 1; 1] /\
  (transact (getResultVerification 0) (run election_published init)).1 =
    Success (abi_encode [0; 1; 1], []) /\
  (transact (getDecryptedResults 0) (run election_closed init)).1 =
    Failure (RequireFailed RESULTS_NOT_AVAILABLE) /\
  (transact (getEncryptedResults 0) (run election_closed init)).1 =
    Success [Ct 0; Ct 1; Ct 1].
Proof. split_and!; vm_compute; reflexivity. Qed.

(** C1: Alice's second vote, cast after the poll has ended. *)
Lemma one_vote_per_voter_witness :
  (exec (mkEnv 3701 alice) (SubmitVote 0 (mkInput 2 alice) [])
     (run [bob_votes] (step (run election_created init) alice_votes))).1
  = Failure (VotingFinished 0).
Proof.
  assert (Hx : exec (mkEnv 101 alice) (SubmitVote 0 (mkInput 1 alice) [])
                 (run election_created init) =
               (Success None, step (run election_created init) alice_votes)).
  { apply exec_pair. vm_compute. reflexivity. }
  destruct (one_vote_per_voter (F := ideal) election_created _ _ _ _ _ Hx [bob_votes]
              (mkEnv 3701 alice) (mkInput 2 alice) [] eq_refl) as [H _].
  rewrite H. vm_compute. reflexivity.
Defined.

(** C1 as stated fails: the second attempt of a voter who has voted does not
    always fail with [AlreadyVoted]; after the poll's end it fails with
    [VotingFinished]. *)
Lemma second_vote_not_always_AlreadyVoted :
  (exec (mkEnv 101 alice) (SubmitVote 0 (mkInput 1 alice) [])
     (run election_created init)).1 = Success None /\
  (exec (mkEnv 3701 alice) (SubmitVote 0 (mkInput 2 alice) [])
     (run election init)).1 = Failure (VotingFinished 0) /\
  (exec (mkEnv 3701 alice) (SubmitVote 0 (mkInput 2 alice) [])
     (run election init)).1 <> Failure (AlreadyVoted 0 alice).
Proof.
  split_and!.
  - vm_compute. reflexivity.
  - vm_compute. reflexivity.
  - vm_compute. discriminate.
Qed.

(** C2: the results of the election, published once the poll is finalized. *)
Lemma submitDecryptedResults_decoding_witness :
  (exec (mkEnv 3702 bob) (SubmitDecryptedResults 0 (abi_encode [0; 1; 1]) [])
     (run election_closed init)).1 = Success None.
Proof.
  destruct (submitDecryptedResults_decoding (F := ideal) election_closed (mkEnv 3702 bob) 0
              (abi_encode [0; 1; 1]) []) as (_ & _ & H).
  - vm_compute. discriminate.
  - vm_compute. reflexivity.
  - vm_compute. reflexivity.
  - vm_compute. reflexivity.
  - destruct H as (s' & Hx & _).
    + vm_compute. reflexivity.
    + repeat constructor; vm_compute; discriminate.
    + rewrite Hx. reflexivity.
Defined.

(** C3: in the election every choice is an option, and the published counts
    add up to the two voters. *)
Lemma tallies_count_valid_ballots_witness :
  sumZ (decryptedCounts
          (poll_at
             (run (election_closed ++
                   (mkEnv 3702 bob,
                    SubmitDecryptedResults 0 (abi_encode [0; 1; 1]) []) :: [])
                init) 0)) = 2.
Proof.
  destruct (tallies_count_valid_ballots (F := ideal) election_closed [] (mkEnv 3702 bob) 0
              (abi_encode [0; 1; 1]) []) as [H _].
  - vm_compute. intuition discriminate.
  - vm_compute. reflexivity.
  - vm_compute. reflexivity.
  - vm_compute. reflexivity.
  - rewrite H. vm_compute. reflexivity.
Defined.

(** C3 as stated fails: Alice's ballot carries the choice 7, which is no
    option of the referendum; her vote is accepted and recorded, no counter
    moves, and the correctly decrypted counts add up to 1 for 2 voters. *)
Lemma tally_sum_misses_invalid_choice :
  let publish := (mkEnv 202 carol,
                  SubmitDecryptedResults 0 referendum_results []) in
  let h := referendum_closed ++ [publish] in
  chrono h /\
  (exec publish.1 publish.2 (run referendum_closed init)).1 = Success None /\
  be_words 2 referendum_results =
    clear <$> encryptedCounts (poll_at (run referendum_closed init) 0) /\
  sumZ (decryptedCounts (poll_at (run h init) 0)) = 1 /\
  size (voters (ballots h init 0)) = 2%nat /\
  sumZ (decryptedCounts (poll_at (run h init) 0)) <>
    Z.of_nat (size (voters (ballots h init 0))).
Proof.
  split_and!.
  - vm_compute. intuition discriminate.
  - vm_compute. reflexivity.
  - vm_compute. reflexivity.
  - vm_compute. reflexivity.
  - vm_compute. reflexivity.
  - vm_compute. discriminate.
Qed.


(** C5: a vote cast at 50, before the election opens at 100. *)
Lemma submitVote_check_order_witness :
  (exec (mkEnv 50 alice) (SubmitVote 0 (mkInput 1 alice) [])
     (run election_created init)).1 = Failure (VotingNotStarted 0).
Proof.
  destruct (submitVote_check_order (F := ideal) (mkEnv 50 alice) 0 (mkInput 1 alice) []
              (run election_created init)) as (_ & H & _).
  rewrite H.
  - reflexivity.
  - vm_compute. discriminate.
  - vm_compute. reflexivity.
Defined.

(** C6: a poll whose second option is empty, everything else being valid. *)
Lemma createPoll_validation_order_witness :
  (exec (mkEnv 100 alice)
     (CreatePoll "Lunch" EmptyString ["Pizza"; EmptyString] 100 200) init).1
  = Failure EmptyOption.
Proof.
  destruct (createPoll_validation_order (F := ideal) (mkEnv 100 alice) "Lunch" EmptyString
              ["Pizza"; EmptyString] 100 200 init) as (_ & _ & _ & H & _).
  rewrite H.
  - reflexivity.
  - discriminate.
  - vm_compute. intuition discriminate.
  - reflexivity.
  - reflexivity.
  - vm_compute. reflexivity.
  - apply Exists_cons_tl, Exists_cons_hd. reflexivity.
Defined.

(** C6 as stated fails: with an empty option and an invalid schedule
    ([endTime <= startTime]) the call fails with [InvalidSchedule], not with
    [EmptyOption]. *)
Lemma createPoll_schedule_checked_before_options :
  let r := (exec (mkEnv 100 alice)
              (CreatePoll "Lunch" EmptyString ["Pizza"; EmptyString] 300 200)
              init).1 in
  r = Failure InvalidSchedule /\ r <> Failure EmptyOption.
Proof.
  split.
  - vm_compute. reflexivity.
  - vm_compute. discriminate.
Qed.

(** The empty-option check of [createPoll] runs after the body has written:
    when it reverts, the counter has been incremented (the call boundary then
    throws that away). *)
Example createPoll_EmptyOption_after_writes :
  match createPoll (F := ideal) (mkEnv 100 alice) "Lunch" EmptyString
          ["Pizza"; EmptyString] 100 200 init with
  | Reverted EmptyOption dirty => pollCount dirty = 1 /\ pollCount init = 0
  | _ => False
  end.
Proof. vm_compute. split; reflexivity. Qed.

(** C7: a vote cast at 3702, after the election was finalized at 3701. *)
Lemma no_vote_once_finalized_witness :
  (exec (mkEnv 3702 carol) (SubmitVote 0 (mkInput 0 carol) [])
     (run election_closed init)).1 = Failure (VotingFinished 0).
Proof.
  rewrite (no_vote_once_finalized (F := ideal) election_closed (mkEnv 3702 carol) 0
             (mkInput 0 carol) []).
  - reflexivity.
  - vm_compute. intuition discriminate.
  - vm_compute. reflexivity.
Defined.

(** C8: the election, the one poll created. *)
Lemma created_polls_well_formed_witness :
  MIN_OPTIONS <= len (options (poll_at (run election init) 0)) <= MAX_OPTIONS /\
  len (encryptedCounts (poll_at (run election init) 0)) =
    len (options (poll_at (run election init) 0)).
Proof.
  apply (created_polls_well_formed (F := ideal) election 0).
  vm_compute. left.
Defined.

(** C9: at time 5000 a poll is created whose [startTime] is 10. *)
Lemma createPoll_past_start_allowed_witness :
  (exec (mkEnv 5000 alice) (CreatePoll "Late" EmptyString ["A"; "B"] 10 6000)
     (run election init)).1 = Success (Some 1).
Proof.
  destruct (createPoll_past_start_allowed (F := ideal) election (mkEnv 5000 alice) "Late"
              EmptyString ["A"; "B"] 10 6000) as (s' & Hx & _).
  - vm_compute. reflexivity.
  - discriminate.
  - vm_compute. intuition discriminate.
  - repeat constructor; discriminate.
  - reflexivity.
  - reflexivity.
  - rewrite Hx. vm_compute. reflexivity.
Defined.

(** C10: Alice has voted in the election, poll 0 of 1. *)
Lemma recorded_vote_has_poll_witness :
  0 <= 0 < pollCount (run election init) /\
  0 ∈ created_ids election init /\
  poll_exists (run election init) 0.
Proof.
  apply (recorded_vote_has_poll (F := ideal) election 0 alice).
  vm_compute. reflexivity.
Defined.

(** ** The further properties on concrete histories *)

Import ClientScenarios.

(** X1: the election, created in the empty contract, reads back. *)
Lemma created_poll_reads_back_witness :
  (transact (getPoll 0)
     (step (run [] init)
        (mkEnv 100 0,
         CreatePoll "Election" "Choose wisely" ["Alpha"; "Beta"; "Gamma"]
                    100 3700))).1 =
  Success (mkPollView "Election" "Choose wisely" ["Alpha"; "Beta"; "Gamma"]
             100 3700 false false 0).
Proof.
  destruct (created_poll_reads_back (F := ideal) [] (mkEnv 100 0)
              "Election" "Choose wisely" ["Alpha"; "Beta"; "Gamma"]
              100 3700 0) as (_ & _ & H & _).
  - vm_compute. reflexivity.
  - exact (f_equal fst H).
Defined.

(** X2: the election keeps its title through the two votes. *)
Lemma poll_metadata_is_immutable_witness :
  exists v',
    (transact (getPoll 0)
       (run (election_created ++ [alice_votes; bob_votes]) init)).1 =
      Success v' /\
    view_title v' = "Election".
Proof.
  destruct (poll_metadata_is_immutable (F := ideal) election_created
              [alice_votes; bob_votes] 0
              (mkPollView "Election" "Choose wisely"
                 ["Alpha"; "Beta"; "Gamma"] 100 3700 false false 0))
    as (v' & H & Ht & _).
  - vm_compute. reflexivity.
  - exists v'. split; [exact H|exact Ht].
Defined.

(** X5: the results of the election, as published. *)
Lemma published_results_read_back_witness :
  (transact (getResultVerification 0)
     (run []
        (step (run election_closed init)
           (mkEnv 3702 bob,
            SubmitDecryptedResults 0 (abi_encode [0; 1; 1]) [])))).1 =
  Success (abi_encode [0; 1; 1], []).
Proof.
  destruct (published_results_read_back (F := ideal) election_closed []
              (mkEnv 3702 bob) 0 (abi_encode [0; 1; 1]) []) as [H _].
  - vm_compute. reflexivity.
  - exact (f_equal fst H).
Defined.

(** X7: the election, finalized at 3701, ended at 3700. *)
Lemma flags_follow_lifecycle_witness :
  endTime (poll_at (run election_closed init) 0) <
  end_time 0 election_closed.
Proof.
  destruct (flags_follow_lifecycle (F := ideal) election_closed 0 0)
    as (_ & H & _).
  - vm_compute. intuition discriminate.
  - destruct H as [_ H]; [vm_compute; reflexivity|exact H].
Defined.

(** X9: finalizing the election leaves poll 5 alone. *)
Lemma calls_touch_only_their_poll_witness :
  poll_at (step (run election init) (mkEnv 3701 bob, FinalizePoll 0)) 5 =
  poll_at (run election init) 5.
Proof.
  destruct (calls_touch_only_their_poll (F := ideal) election
              (mkEnv 3701 bob) (FinalizePoll 0) 5) as [H _].
  - simpl. lia.
  - exact H.
Defined.

(** X10: Bob or Carol, finalizing the election at 3701. *)
Lemma finalize_and_publish_ignore_the_caller_witness :
  (exec (mkEnv 3701 bob) (FinalizePoll 0) (run election init)).1 =
  (exec (mkEnv 3701 carol) (FinalizePoll 0) (run election init)).1.
Proof.
  destruct (finalize_and_publish_ignore_the_caller (F := ideal)
              (mkEnv 3701 bob) (mkEnv 3701 carol) 0 [] []
              (run election init)) as [[H _] _].
  - reflexivity.
  - exact H.
Defined.

(** X11: Alice's vote for option 1 of the election. *)
Lemma vote_adds_one_to_the_chosen_counter_witness :
  length (encryptedCounts
            (poll_at (step (run election_created init) alice_votes) 0)) =
  length (encryptedCounts (poll_at (run election_created init) 0)).
Proof.
  destruct (vote_adds_one_to_the_chosen_counter (F := ideal) election_created
              (mkEnv 101 alice) 0 (mkInput 1 alice) [] (Ct 1)) as [H _].
  - vm_compute. reflexivity.
  - vm_compute. reflexivity.
  - exact H.
Defined.

(** X14: Carol tries to vote in the finalized election. *)
Lemma tallies_frozen_once_finalized_witness :
  ballots (election_closed ++ [carol_votes_late]) init 0 =
  ballots election_closed init 0.
Proof.
  destruct (tallies_frozen_once_finalized (F := ideal) election_closed
              [carol_votes_late] 0) as (_ & H & _).
  - vm_compute. intuition discriminate.
  - vm_compute. reflexivity.
  - exact H.
Defined.


(** X18: the counts of the election, encoded and decoded. *)
Lemma decodeClearValues_inverts_abi_encode_witness :
  _decodeClearValues (F := ideal) (abi_encode [0; 1; 1]) (len [0; 1; 1]) 0
    init = Done [0; 1; 1] init.
Proof.
  apply (decodeClearValues_inverts_abi_encode (F := ideal) [0; 1; 1] 0 init).
  - repeat (constructor; [unfold MAX_UINT256; lia|]). constructor.
  - vm_compute. discriminate.
Defined.

(** X19: no bytes where three counts are expected. *)
Lemma decodeClearValues_accepts_only_encodings_witness :
  _decodeClearValues (F := ideal) [] (Z.of_nat 3) 0 init =
  Reverted (InvalidResultsLength 0) init.
Proof.
  destruct (decodeClearValues_accepts_only_encodings (F := ideal) [] 3 0 init)
    as [H _].
  - vm_compute. discriminate.
  - apply H. vm_compute. discriminate.
Defined.

(** X20: the honest decryption of the finalized election. *)
Lemma honest_decryption_is_accepted_witness :
  exists s',
    (transact (getDecryptedResults 0) s').1 =
    Success (clear <$> encryptedCounts (poll_at (run election_closed init) 0)).
Proof.
  destruct (honest_decryption_is_accepted (F := ideal) election_closed
              (mkEnv 3702 bob) 0 []) as (s' & _ & H & _).
  - vm_compute. reflexivity.
  - vm_compute. reflexivity.
  - vm_compute. reflexivity.
  - exists s'. exact (f_equal fst H).
Defined.







